(** * deeprl-snes: environment wrappers and the PPO numerics

    A shallow embedding of [envs.py] (SkipFrames, LazyFrames, FrameStack,
    RewardScaler, ButtonsRemapper, the two discretizers and
    discretize_actions) and of the numerical core of
    [policygradientpytorch.py] (prepro, discount_rewards,
    generalized_advantage_estimation, the policy and value losses of
    ppostep, runepisode, experiencegenerator, the minibatches of train),
    followed by the properties proved about them.

    Conventions.
    - Python exceptions are values of [exn]; a computation that may raise
      returns a [result].
    - The wrapped environment is a pure transition function on an explicit
      environment state.
    - numpy arrays that are shared and mutated (the press vectors of
      ButtonsRemapper) live in an explicit [heap] and are handled through
      locations.
    - Floating-point tensors are modelled over the real numbers: rounding is
      abstracted away, the order and shape of the operations is kept. *)

From Stdlib Require Import Reals Lra ZArith Lia.
From stdpp Require Import base list strings gmap.

(* ================================================================= *)
(** * Part I. The programs                                            *)
(* ================================================================= *)

(** ** Python runtime: exceptions, indexing *)

Inductive exn : Set :=
  | ValueError
  | IndexError
  | TypeError
  | AssertionError
  | RuntimeError
  | InvalidActionError.

Inductive result (A : Type) : Type :=
  | Ok (a : A)
  | Raise (e : exn).
Arguments Ok {A} a.
Arguments Raise {A} e.

#[global] Instance result_ret : MRet result := @Ok.
#[global] Instance result_bind : MBind result := fun A B f m =>
  match m with
  | Ok a => f a
  | Raise e => Raise e
  end.

#[global] Instance result_fmap : FMap result := fun A B f m =>
  match m with
  | Ok a => Ok (f a)
  | Raise e => Raise e
  end.

(** [l[i]] for a Python sequence: a negative index counts from the end,
    an index outside [-len, len) raises IndexError. *)
Definition py_index (n : nat) (i : Z) : result nat :=
  let j := if (i <? 0)%Z then (i + Z.of_nat n)%Z else i in
  if ((0 <=? j)%Z && (j <? Z.of_nat n)%Z) then Ok (Z.to_nat j)
  else Raise IndexError.

Definition py_getitem {A} (l : list A) (i : Z) : result A :=
  j ← py_index (length l) i;
  match l !! j with
  | Some x => Ok x
  | None => Raise IndexError
  end.

(** [l.index(x)]: position of the first element equal to [x], ValueError
    when there is none. *)
Fixpoint list_index `{EqDecision A} (x : A) (l : list A) : result nat :=
  match l with
  | [] => Raise ValueError
  | y :: l' => if decide (y = x) then Ok 0 else S <$> list_index x l'
  end.

(** [collections.deque(maxlen=k).append(x)]: push on the right, the oldest
    entries fall off the left once the capacity is exceeded. *)
Definition deque_append {A} (maxlen : nat) (q : list A) (x : A) : list A :=
  let q' := q ++ [x] in drop (length q' - maxlen) q'.

(** ** envs.py *)

(** *** SkipFrames *)

Section SkipFrames.
Context {Env Action Obs Reward Info : Type}.
(** The wrapped environment's [step], and the float addition and [0.0]
    used to accumulate rewards. *)
Context (env_step : Env → Action → Env * (Obs * Reward * bool * Info)).
Context (radd : Reward → Reward → Reward) (rzero : Reward).

Record SkipFrames := mkSkipFrames { sf_env : Env; _skip : Z }.

(** What [step] hands back; [obs], [done] and [info] start as [None]. *)
Definition skip_out : Type :=
  option Obs * Reward * option bool * option Info.

(** The body of [for i in range(self._skip)], with [n] iterations left. *)
Fixpoint skip_loop (n : nat) (e : Env) (action : Action)
    (total_reward : Reward) (obs : option Obs) (done : option bool)
    (info : option Info) : Env * skip_out :=
  match n with
  | O => (e, (obs, total_reward, done, info))
  | S n' =>
      let '(e', (o, reward, d, i)) := env_step e action in
      let total_reward := radd total_reward reward in
      if d then (e', (Some o, total_reward, Some d, Some i))
      else skip_loop n' e' action total_reward (Some o) (Some d) (Some i)
  end.

Definition SkipFrames_step (self : SkipFrames) (action : Action)
    : SkipFrames * skip_out :=
  let '(e', out) :=
    skip_loop (Z.to_nat (_skip self)) (sf_env self) action
              rzero None None None in
  (mkSkipFrames e' (_skip self), out).

(** Reference semantics used to state the properties: the outputs of [m]
    consecutive inner steps with the same action, and the environment
    they leave behind. *)
Fixpoint inner_steps (m : nat) (e : Env) (action : Action)
    : list (Obs * Reward * bool * Info) * Env :=
  match m with
  | O => ([], e)
  | S m' =>
      let '(e', out) := env_step e action in
      let '(outs, e'') := inner_steps m' e' action in
      (out :: outs, e'')
  end.

Definition out_reward (x : Obs * Reward * bool * Info) : Reward := x.1.1.2.
Definition out_done (x : Obs * Reward * bool * Info) : bool := x.1.2.
End SkipFrames.

Arguments SkipFrames : clear implicits.
Arguments mkSkipFrames {Env} sf_env _skip.

(** *** numpy arrays of rank 3 (height, width, channels) *)

Section Frames.
Context {Pixel : Type}.

(** A frame carries its shape [(H, W, C)] next to its rows of pixels, a
    pixel being the list of its channel values. *)
Record ndarray3 := mkArray {
  shape : nat * nat * nat;
  data : list (list (list Pixel))
}.

Definition height (a : ndarray3) : nat := (shape a).1.1.
Definition width (a : ndarray3) : nat := (shape a).1.2.
Definition channels (a : ndarray3) : nat := (shape a).2.

(** The rows agree with the declared shape. *)
Definition wf_array (a : ndarray3) : Prop :=
  length (data a) = height a ∧
  Forall (λ row, length row = width a ∧
                 Forall (λ px, length px = channels a) row) (data a).

Definition same_hw (a b : ndarray3) : bool :=
  bool_decide ((shape a).1 = (shape b).1).

(** Pixel-wise juxtaposition of the channels of two frames. *)
Definition join_channels (a b : list (list (list Pixel)))
    : list (list (list Pixel)) :=
  zip_with (zip_with app) a b.

(** [np.concatenate(frames, axis=2)]: needs at least one array, and all
    arrays must agree on the two leading dimensions. *)
Definition np_concatenate2 (frames : list ndarray3) : result ndarray3 :=
  match frames with
  | [] => Raise ValueError
  | f :: fs =>
      if forallb (same_hw f) fs then
        Ok {| shape := ((shape f).1, sum_list (channels <$> frames));
              data := foldl join_channels (data f) (data <$> fs) |}
      else Raise ValueError
  end.

(** *** LazyFrames *)

Record LazyFrames := mkLazyFrames {
  _frames : option (list ndarray3);
  _out : option ndarray3
}.

Definition LazyFrames_init (frames : list ndarray3) : LazyFrames :=
  {| _frames := Some frames; _out := None |}.

Definition _force (self : LazyFrames) : LazyFrames * result ndarray3 :=
  match _out self with
  | None =>
      match _frames self with
      | None => (self, Raise TypeError)
      | Some frames =>
          match np_concatenate2 frames with
          | Raise e => (self, Raise e)
          | Ok out => ({| _frames := None; _out := Some out |}, Ok out)
          end
      end
  | Some out => (self, Ok out)
  end.

(** [out.astype(dtype)] converts every channel value. *)
Context {Dtype : Type} (cast : Dtype → Pixel → Pixel).

Definition astype (out : ndarray3) (dtype : Dtype) : ndarray3 :=
  {| shape := shape out; data := map (map (map (cast dtype))) (data out) |}.

Definition LazyFrames_array (self : LazyFrames) (dtype : option Dtype)
    : LazyFrames * result ndarray3 :=
  let '(self, r) := _force self in
  (self, out ← r;
         match dtype with
         | Some dt => Ok (astype out dt)
         | None => Ok out
         end).

(** [len] of an array is its leading dimension. *)
Definition LazyFrames_len (self : LazyFrames) : LazyFrames * result nat :=
  let '(self, r) := _force self in (self, height <$> r).

(** [self._force()[i]] for an integer [i]: one row of the array. *)
Definition LazyFrames_getitem (self : LazyFrames) (i : Z)
    : LazyFrames * result (list (list Pixel)) :=
  let '(self, r) := _force self in
  (self, out ← r; py_getitem (data out) i).

(** The three ways of materializing, and what each one yields. *)
Inductive access :=
  | AsArray (dtype : option Dtype)
  | Len
  | GetItem (i : Z).

Inductive view :=
  | VArray (a : result ndarray3)
  | VLen (n : result nat)
  | VRow (r : result (list (list Pixel))).

Definition LazyFrames_access (self : LazyFrames) (op : access)
    : LazyFrames * view :=
  match op with
  | AsArray dtype =>
      let '(self, r) := LazyFrames_array self dtype in (self, VArray r)
  | Len => let '(self, r) := LazyFrames_len self in (self, VLen r)
  | GetItem i =>
      let '(self, r) := LazyFrames_getitem self i in (self, VRow r)
  end.

(** A sequence of accesses on one object, threading its cache. *)
Fixpoint LazyFrames_run (self : LazyFrames) (ops : list access)
    : list view :=
  match ops with
  | [] => []
  | op :: ops' =>
      let '(self, v) := LazyFrames_access self op in
      v :: LazyFrames_run self ops'
  end.

(** The same access made directly on an eagerly built array. *)
Definition eager_access (out : ndarray3) (op : access) : view :=
  match op with
  | AsArray (Some dt) => VArray (Ok (astype out dt))
  | AsArray None => VArray (Ok out)
  | Len => VLen (Ok (height out))
  | GetItem i => VRow (py_getitem (data out) i)
  end.
End Frames.

Arguments ndarray3 : clear implicits.
Arguments LazyFrames : clear implicits.
Arguments access : clear implicits.
Arguments view : clear implicits.

(** *** FrameStack *)

Section FrameStack.
Context {Env Action Reward Info Pixel : Type}.
Context (env_reset : Env → Env * ndarray3 Pixel).
Context (env_step :
  Env → Action → Env * (ndarray3 Pixel * Reward * bool * Info)).

Record FrameStack := mkFrameStack {
  fs_env : Env;
  k : nat;
  frames : list (ndarray3 Pixel)   (* deque([], maxlen=k) *)
}.

Definition FrameStack_init (env : Env) (k : nat) : FrameStack :=
  {| fs_env := env; k := k; frames := [] |}.

Definition _get_ob (self : FrameStack) : result (LazyFrames Pixel) :=
  if decide (length (frames self) = k self)
  then Ok (LazyFrames_init (frames self))
  else Raise AssertionError.

Definition FrameStack_reset (self : FrameStack)
    : FrameStack * result (LazyFrames Pixel) :=
  let '(e, ob) := env_reset (fs_env self) in
  let q := Nat.iter (k self) (λ q, deque_append (k self) q ob) (frames self) in
  let self := {| fs_env := e; k := k self; frames := q |} in
  (self, _get_ob self).

Definition FrameStack_step (self : FrameStack) (action : Action)
    : FrameStack * result (LazyFrames Pixel * Reward * bool * Info) :=
  let '(e, (ob, reward, done, info)) := env_step (fs_env self) action in
  let self := {| fs_env := e; k := k self;
                 frames := deque_append (k self) (frames self) ob |} in
  (self, (λ o, (o, reward, done, info)) <$> _get_ob self).

(** Calls a client can make, and the stacked observation (if any) that a
    call hands to the model. *)
Inductive call := Reset | Step (action : Action).

Definition FrameStack_call (self : FrameStack) (c : call)
    : FrameStack * result (LazyFrames Pixel) :=
  match c with
  | Reset => FrameStack_reset self
  | Step a =>
      let '(self, r) := FrameStack_step self a in
      (self, (λ x, x.1.1.1) <$> r)
  end.

(** The deque never holds more than [k] frames; once filled it holds
    exactly [k]. *)
Definition bounded (self : FrameStack) : Prop :=
  length (frames self) ≤ k self.
Definition filled (self : FrameStack) : Prop :=
  length (frames self) = k self.

Fixpoint FrameStack_calls (self : FrameStack) (cs : list call)
    : FrameStack * list (result (LazyFrames Pixel)) :=
  match cs with
  | [] => (self, [])
  | c :: cs' =>
      let '(self, r) := FrameStack_call self c in
      let '(self, rs) := FrameStack_calls self cs' in
      (self, r :: rs)
  end.
End FrameStack.

Arguments FrameStack : clear implicits.
Arguments call : clear implicits.

(** *** ButtonsRemapper *)

(** The boolean press vectors are numpy arrays: mutable objects, known by
    their location in the heap. *)
Abbreviation loc := nat (only parsing).
Abbreviation heap := (gmap nat (list bool)) (only parsing).

(** [np.array(v)] allocates a fresh array. *)
Definition np_array (h : heap) (v : list bool) : heap * loc :=
  let l := fresh (dom h) in (<[l := v]> h, l).

(** [arr[i] = v] for a non-negative [i]. *)
Definition np_setitem (h : heap) (arr : loc) (i : nat) (v : bool)
    : result heap :=
  let old := default [] (h !! arr) in
  if decide (i < length old) then Ok (<[arr := <[i := v]> old]> h)
  else Raise IndexError.

(** [arr.copy()] allocates a fresh array with the same contents. *)
Definition np_copy (h : heap) (arr : loc) : heap * loc :=
  np_array h (default [] (h !! arr)).

Record ButtonsRemapper := mkButtonsRemapper {
  _actions : list loc;
  action_space : nat   (* gym.spaces.Discrete(n) *)
}.

(** [for button in action: arr[buttonmap.index(button)] = True] *)
Fixpoint press_buttons (buttonmap action : list string) (arr : loc)
    (h : heap) : heap * result () :=
  match action with
  | [] => (h, Ok ())
  | button :: rest =>
      match list_index button buttonmap with
      | Raise e => (h, Raise e)
      | Ok i =>
          match np_setitem h arr i true with
          | Raise e => (h, Raise e)
          | Ok h' => press_buttons buttonmap rest arr h'
          end
      end
  end.

(** [for action in actions: ...; self._actions.append(arr)] *)
Fixpoint build_actions (buttonmap : list string)
    (actions : list (list string)) (acc : list loc) (h : heap)
    : heap * result (list loc) :=
  match actions with
  | [] => (h, Ok acc)
  | action :: rest =>
      let '(h1, arr) := np_array h (replicate (length buttonmap) false) in
      match press_buttons buttonmap action arr h1 with
      | (h2, Raise e) => (h2, Raise e)
      | (h2, Ok _) => build_actions buttonmap rest (acc ++ [arr]) h2
      end
  end.

Definition ButtonsRemapper_init (buttonmap : list string)
    (actions : list (list string)) (h : heap)
    : heap * result ButtonsRemapper :=
  match build_actions buttonmap actions [] h with
  | (h', Raise e) => (h', Raise e)
  | (h', Ok acts) =>
      (h', Ok {| _actions := acts; action_space := length acts |})
  end.

(** [return self._actions[a].copy()] *)
Definition ButtonsRemapper_action (self : ButtonsRemapper) (a : Z)
    (h : heap) : heap * result loc :=
  match py_getitem (_actions self) a with
  | Raise e => (h, Raise e)
  | Ok arr => let '(h', c) := np_copy h arr in (h', Ok c)
  end.

(** Whether [action] names a button whose first position in [buttonmap]
    is [i]. *)
Definition presses (buttonmap action : list string) (i : nat) : bool :=
  existsb (λ b, match list_index b buttonmap with
                | Ok j => bool_decide (j = i)
                | Raise _ => false
                end) action.

(** The press vector an action stands for: one entry per native button,
    true at the first position of every button the action names. *)
Definition press_vector (buttonmap action : list string) : list bool :=
  presses buttonmap action <$> seq 0 (length buttonmap).

(** The lookup table of a remapper is in place in the heap: its entries
    hold the press vectors of the curated actions, in order. *)
Definition table_ok (buttonmap : list string) (actions : list (list string))
    (self : ButtonsRemapper) (h : heap) : Prop :=
  Forall2 (λ arr action, h !! arr = Some (press_vector buttonmap action))
          (_actions self) actions.

(** Every button named by every action is a native button. *)
Definition known_buttons (buttonmap : list string)
    (actions : list (list string)) : Prop :=
  Forall (Forall (λ button, button ∈ buttonmap)) actions.

Definition GENESIS_BUTTONS : list string :=
  ["B"; "A"; "MODE"; "START"; "UP"; "DOWN"; "LEFT"; "RIGHT"; "C"; "Y"; "X"; "Z"].
Definition SNES_BUTTONS : list string :=
  ["B"; "Y"; "SELECT"; "START"; "UP"; "DOWN"; "LEFT"; "RIGHT"; "A"; "X"; "L"; "R"].

(** The curated action list of GradiusDiscretizer. *)
Definition Gradius_actions : list (list string) :=
  [ ["DOWN"]; ["LEFT"]; ["RIGHT"]; ["UP"];
    ["DOWN"; "RIGHT"]; ["RIGHT"; "UP"]; ["UP"; "LEFT"]; ["LEFT"; "DOWN"];
    ["A"]; ["B"]; ["X"]; ["Y"]; ["L"]; ["R"]; ["SELECT"]; ["START"] ].

(** The curated action list of ColumnsGenesisDiscretizer. *)
Definition Columns_actions : list (list string) :=
  [ ["DOWN"]; ["LEFT"]; ["RIGHT"]; ["A"] ].

(** ** policygradientpytorch.py *)

#[global] Instance R_inhabited : Inhabited R := populate 0%R.

Section Numerics.
Open Scope R_scope.

(** [eps = np.finfo(np.float32).eps.item()] *)
Definition eps : R := / 2 ^ 23.

(** A Python bool used as a number. *)
Definition b2r (b : bool) : R := if b then 1 else 0.

Definition sum_R (a : list R) : R := foldr Rplus 0 a.

(** [np.mean], [torch.mean] *)
Definition mean (a : list R) : R := sum_R a / INR (length a).

(** [np.std]: the population standard deviation. *)
Definition np_std (a : list R) : R :=
  sqrt (mean ((λ x, Rabs (x - mean a) ^ 2) <$> a)).

(** [a[i] = v] on a one-dimensional array. *)
Definition py_setitem (a : list R) (i : Z) (v : R) : result (list R) :=
  j ← py_index (length a) i; Ok (<[j := v]> a).

(** *** generalized_advantage_estimation *)

Section GAE.
Context (values rewards : list R) (terminals : list bool).
Context (lastvalue gamma lam : R).

(** One iteration of the backward loop, at index [t]; the state is
    [(delta, advantages, lastadv)]. *)
Definition gae_step (t : nat) (st : list R * list R * R)
    : result (list R * list R * R) :=
  let '(delta, advantages, lastadv) := st in
  r ← py_getitem rewards (Z.of_nat t);
  v' ← py_getitem values (Z.of_nat t + 1);
  d ← py_getitem terminals (Z.of_nat t);
  v ← py_getitem values (Z.of_nat t);
  delta ← py_setitem delta (Z.of_nat t) (r + gamma * v' * b2r (negb d) - v);
  dt ← py_getitem delta (Z.of_nat t);
  let a := dt + gamma * lam * b2r (negb d) * lastadv in
  advantages ← py_setitem advantages (Z.of_nat t) a;
  Ok (delta, advantages, a).

(** [for t in reversed(range(m))] *)
Fixpoint gae_loop (m : nat) (st : list R * list R * R)
    : result (list R * list R * R) :=
  match m with
  | O => Ok st
  | S t => st' ← gae_step t st; gae_loop t st'
  end.

(** The arrays [delta] and [advantages] as they stand before the
    normalization. *)
Definition gae_arrays : result (list R * list R) :=
  let delta := replicate (length values) 0 in
  let advantages := replicate (length values) 0 in
  r ← py_getitem rewards (-1);
  d ← py_getitem terminals (-1);
  v ← py_getitem values (-1);
  delta ← py_setitem delta (-1) (r + gamma * lastvalue * b2r (negb d) - v);
  lastadv ← py_getitem delta (-1);
  advantages ← py_setitem advantages (-1) lastadv;
  st ← gae_loop (length values - 1) (delta, advantages, lastadv);
  Ok (st.1.1, st.1.2).

Definition normalize (advantages : list R) : list R :=
  (λ a, (a - mean advantages) / (np_std advantages + eps)) <$> advantages.

Definition generalized_advantage_estimation : result (list R) :=
  arrays ← gae_arrays; Ok (normalize arrays.2).
End GAE.

(** *** The value loss of ppostep *)

(** An element-wise operation on two one-dimensional tensors: equal
    sizes, or one of them of size one, which is then broadcast. *)
Definition torch_binop (f : R → R → R) (a b : list R) : result (list R) :=
  if decide (length a = length b) then Ok (zip_with f a b)
  else match a, b with
       | [x], _ => Ok (f x <$> b)
       | _, [y] => Ok ((λ x, f x y) <$> a)
       | _, _ => Raise RuntimeError
       end.

(** [torch.clamp(input, min, max)], either bound possibly absent. *)
Definition torch_clamp (input : list R) (min max : option R) : list R :=
  (λ x, let x := match min with Some lo => Rmax x lo | None => x end in
        match max with Some hi => Rmin x hi | None => x end) <$> input.

Definition square (a : list R) : list R := (λ x, x ^ 2) <$> a.

Section ValueLoss.
Context (newvalues values advantages : list R) (epscut valuecoef : R).

(** [returns = advantages + values] *)
Definition ppostep_returns : result (list R) :=
  torch_binop Rplus advantages values.

(** [newvalues_clipped = values + torch.clamp(newvalues - values, epscut)]:
    the second positional argument of [torch.clamp] is [min]. *)
Definition ppostep_newvalues_clipped : result (list R) :=
  d ← torch_binop Rminus newvalues values;
  torch_binop Rplus values (torch_clamp d (Some epscut) None).

Definition ppostep_valueloss : result R :=
  returns ← ppostep_returns;
  valuelosses ← square <$> torch_binop Rminus newvalues returns;
  newvalues_clipped ← ppostep_newvalues_clipped;
  valuelosses_clipped ←
    square <$> torch_binop Rminus newvalues_clipped returns;
  worst ← torch_binop Rmax valuelosses valuelosses_clipped;
  Ok (valuecoef * 0.5 * mean worst).

(** The value loss in the words of the specification: the new value
    clamped to [old - epscut, old + epscut], no factor one half. *)
Definition clamp_to (lo hi x : R) : R := Rmin (Rmax x lo) hi.

Definition spec_term (i : nat) : R :=
  let target := advantages !!! i + values !!! i in
  let clipped :=
    clamp_to (values !!! i - epscut) (values !!! i + epscut)
             (newvalues !!! i) in
  Rmax ((newvalues !!! i - target) ^ 2) ((clipped - target) ^ 2).

Definition spec_valueloss : R :=
  valuecoef * mean (spec_term <$> seq 0 (length newvalues)).
End ValueLoss.
End Numerics.

(** *** The frame window of experiencegenerator *)

(** [np.stack(statesqueue, axis=0)] of equally shaped frames: the frames
    in order along a new leading axis; an empty sequence is refused. *)
Definition np_stack {Frame} (q : list Frame) : result (list Frame) :=
  match q with
  | [] => Raise ValueError
  | _ => Ok q
  end.

Section ExperienceGenerator.
Context {Env Policy Action LogProb RawObs Frame Info : Type}.
Context (env_reset : Env → Env * RawObs).
Context (env_step : Env → Action → Env * (RawObs * R * bool * Info)).
Context (prepro : RawObs → Frame).
(** [policy.select_action]: sampling consumes randomness, which is part
    of the policy state. *)
Context (select_action : Policy → list Frame → Policy * (Action * LogProb)).
Context (episodesteps : option nat) (windowlength : nat).

(** The tuple handed out by [yield]. *)
Record experience := mkExperience {
  x_observation : RawObs;
  x_xbatch : list Frame;
  x_p : LogProb;
  x_action : Action;
  x_reward : R;
  x_newobservation : RawObs;
  x_newxbatch : list Frame;
  x_done : bool
}.

(** The local variables of the generator. *)
Record locals := mkLocals {
  g_env : Env;
  g_policy : Policy;
  episode : nat;
  totalsteps : nat;
  episoderewards : list R;
  observation : RawObs;
  statesqueue : list Frame;   (* deque(maxlen=windowlength) *)
  xbatch : list Frame;
  step : nat;
  rewards : R
}.

(** The generator is either not started or suspended at its [yield]. *)
Inductive generator :=
  | Fresh (env : Env) (policy : Policy)
  | Suspended (l : locals) (last : experience).

(** The head of the outer loop: reset and fill the window. *)
Definition begin_episode (env : Env) (policy : Policy) (episode totalsteps : nat)
    (episoderewards : list R) : result locals :=
  let '(env, observation) := env_reset env in
  let x := prepro observation in
  let statesqueue := replicate windowlength x in
  xbatch ← np_stack statesqueue;
  Ok (mkLocals env policy episode totalsteps episoderewards
               observation statesqueue xbatch 0 0%R).

(** The inner loop up to its [yield]. *)
Definition act (l : locals) : result (locals * experience) :=
  let '(policy, (action, p)) := select_action (g_policy l) (xbatch l) in
  let '(env, (newobservation, reward, done, info)) :=
    env_step (g_env l) action in
  let x := prepro newobservation in
  let statesqueue := deque_append windowlength (statesqueue l) x in
  newxbatch ← np_stack statesqueue;
  Ok (mkLocals env policy (episode l) (totalsteps l) (episoderewards l)
               (observation l) statesqueue (xbatch l) (step l) (rewards l),
      mkExperience (observation l) (xbatch l) p action reward
                   newobservation newxbatch done).

(** [done or (episodesteps is not None and step >= episodesteps)], with
    [step] already incremented. *)
Definition episode_over (l : locals) (last : experience) : bool :=
  x_done last ||
  match episodesteps with
  | Some m => bool_decide (m ≤ S (step l))
  | None => false
  end.

(** From the [yield] to the head of the next inner iteration. *)
Definition resume (l : locals) (last : experience) : result locals :=
  let rewards := (rewards l + x_reward last)%R in
  let step := S (step l) in
  if episode_over l last then
    begin_episode (g_env l) (g_policy l) (S (episode l))
                  (totalsteps l + step) (episoderewards l ++ [rewards])
  else
    Ok (mkLocals (g_env l) (g_policy l) (episode l) (totalsteps l)
                 (episoderewards l) (x_newobservation last) (statesqueue l)
                 (x_newxbatch last) step rewards).

(** [next(expgen)] *)
Definition generator_next (g : generator) : result (generator * experience) :=
  l ← match g with
      | Fresh env policy => begin_episode env policy 0 0 []
      | Suspended l last => resume l last
      end;
  '(l, x) ← act l;
  Ok (Suspended l x, x).

(** [[next(expgen) for _ in range(n)]] *)
Fixpoint generator_take (n : nat) (g : generator)
    : result (generator * list experience) :=
  match n with
  | O => Ok (g, [])
  | S n' =>
      '(g, x) ← generator_next g;
      '(g, xs) ← generator_take n' g;
      Ok (g, x :: xs)
  end.

(** Whether the next experience opens an episode. *)
Definition opens_episode (g : generator) : bool :=
  match g with
  | Fresh _ _ => true
  | Suspended l last => episode_over l last
  end.

(** A suspended generator holds a full window, the one its last
    experience reported as the new one. *)
Definition window_ok (g : generator) : Prop :=
  match g with
  | Fresh _ _ => True
  | Suspended l last =>
      length (statesqueue l) = windowlength ∧
      x_newxbatch last = statesqueue l
  end.

(** The environment the generator holds. *)
Definition generator_env (g : generator) : Env :=
  match g with
  | Fresh env _ => env
  | Suspended l _ => g_env l
  end.

(** Both windows of an experience hold [windowlength] frames. *)
Definition full_windows (x : experience) : Prop :=
  length (x_xbatch x) = windowlength ∧
  length (x_newxbatch x) = windowlength.

(** For the experience [x] yielded from state [g] at the start of an
    episode: its observation is the one [env.reset()] returned and its
    window holds [windowlength] copies of the processed first frame. *)
Definition padded_window (g : generator) (x : experience) : Prop :=
  x_observation x = (env_reset (generator_env g)).2 ∧
  x_xbatch x = replicate windowlength (prepro (x_observation x)).
End ExperienceGenerator.

(** ** A deterministic test environment

    The environment of the end-to-end scenario: every step gives reward +1,
    except the fifth of an episode, which gives -5 and ends it. Its state
    and its observation are the number of steps made in the episode. *)

Definition fake_reset (s : nat) : nat * nat := (0, 0).

Definition fake_step (s : nat) (action : bool) : nat * (nat * Z * bool * ()) :=
  let s' := S s in
  (s', (s', if s' =? 5 then (-5)%Z else 1%Z, s' =? 5, ())).

(** The same environment with 1x1x1 frames as observations, and with real
    rewards. *)
Definition fake_frame (s : nat) : ndarray3 nat :=
  {| shape := (1, 1, 1); data := [[[s]]] |}.

Definition fake_frame_reset (s : nat) : nat * ndarray3 nat :=
  (0, fake_frame 0).

Definition fake_frame_step (s : nat) (action : bool)
    : nat * (ndarray3 nat * Z * bool * ()) :=
  let '(s', (o, r, d, i)) := fake_step s action in (s', (fake_frame o, r, d, i)).

Definition fake_real_step (s : nat) (action : bool)
    : nat * (nat * R * bool * ()) :=
  let '(s', (o, r, d, i)) := fake_step s action in (s', (o, IZR r, d, i)).

(** The processed frame is the observation itself. *)
Definition fake_prepro (o : nat) : nat := o.

(** A policy that always presses, and counts its calls. *)
Definition fake_select_action (calls : nat) (window : list nat)
    : nat * (bool * R) :=
  (S calls, (true, 0%R)).

(* ================================================================= *)
(** * Part I, continued. The rest of the two modules                  *)
(* ================================================================= *)

(** ** envs.py, continued *)

(** *** FrameStack: the declared observation space

    [shape=(shp[0], shp[1], shp[2] * k)] of [FrameStack.__init__], for an
    inner observation space of shape [shp]. *)
Definition FrameStack_observation_shape (shp : nat * nat * nat) (k : nat)
    : nat * nat * nat :=
  (shp.1.1, shp.1.2, shp.2 * k).

Section InnerObservations.
Context {Env Action Reward Info Obs : Type}.
Context (env_step : Env → Action → Env * (Obs * Reward * bool * Info)).

(** The observations the inner environment returns along [actions]. *)
Fixpoint step_observations (e : Env) (actions : list Action) : list Obs :=
  match actions with
  | [] => []
  | a :: rest =>
      let '(e', (ob, _, _, _)) := env_step e a in
      ob :: step_observations e' rest
  end.
End InnerObservations.

(** What an access yields when the concatenation raises [e]. *)
Definition failed_access {Pixel Dtype} (e : exn) (op : access Dtype)
    : view Pixel :=
  match op with
  | AsArray _ => VArray (Raise e)
  | Len => VLen (Raise e)
  | GetItem _ => VRow (Raise e)
  end.

(** *** RewardScaler

    [reward] is the class's own method; [step] is the one it inherits from
    [gym.RewardWrapper], which passes the inner step through and replaces
    the reward by [self.reward(reward)]. *)
Section RewardScaler.
Context {Env Action Obs Info : Type}.
Context (env_step : Env → Action → Env * (Obs * R * bool * Info)).

Definition RewardScaler_reward (rewardscaling reward : R) : R :=
  (reward * rewardscaling)%R.

Definition RewardScaler_step (rewardscaling : R) (e : Env) (action : Action)
    : Env * (Obs * R * bool * Info) :=
  let '(e', (o, reward, d, i)) := env_step e action in
  (e', (o, RewardScaler_reward rewardscaling reward, d, i)).
End RewardScaler.

(** *** The discretizers and discretize_actions *)

Definition GradiusDiscretizer_init (h : heap) : heap * result ButtonsRemapper :=
  ButtonsRemapper_init SNES_BUTTONS Gradius_actions h.

Definition ColumnsGenesisDiscretizer_init (h : heap)
    : heap * result ButtonsRemapper :=
  ButtonsRemapper_init GENESIS_BUTTONS Columns_actions h.

Definition discretizers
    : gmap string (gmap nat (list bool) →
                   gmap nat (list bool) * result ButtonsRemapper) :=
  {[ "Columns-Genesis" := ColumnsGenesisDiscretizer_init;
     "GradiusIII-Snes" := GradiusDiscretizer_init ]}.

(** [None] stands for the environment handed back unwrapped, after the
    warning. *)
Definition discretize_actions (game : string) (h : heap)
    : heap * result (option ButtonsRemapper) :=
  match discretizers !! game with
  | Some make => let '(h', r) := make h in (h', Some <$> r)
  | None => (h, Ok None)
  end.

(** ** policygradientpytorch.py, continued *)

Section MoreNumerics.
Open Scope R_scope.

(** *** discount_rewards *)

(** [np.sign] *)
Definition np_sign (x : R) : R :=
  if Rlt_dec x 0 then -1 else if Rlt_dec 0 x then 1 else 0.

(** The body of the backward loop at index [t], on the clipped rewards
    [r]; the state is [(discounted_r, running_add)]. *)
Definition discount_step (r : list R) (terminals : list bool) (gamma : R)
    (t : nat) (st : list R * R) : result (list R * R) :=
  let '(discounted_r, running_add) := st in
  d ← py_getitem terminals (Z.of_nat t);
  running_add ←
    (if d : bool then py_getitem r (Z.of_nat t)
     else x ← py_getitem r (Z.of_nat t); Ok (running_add * gamma + x));
  discounted_r ← py_setitem discounted_r (Z.of_nat t) running_add;
  Ok (discounted_r, running_add).

(** [for t in reversed(range(0, m))] *)
Fixpoint discount_loop (r : list R) (terminals : list bool) (gamma : R)
    (m : nat) (st : list R * R) : result (list R * R) :=
  match m with
  | O => Ok st
  | S t => st' ← discount_step r terminals gamma t st;
           discount_loop r terminals gamma t st'
  end.

Definition discount_rewards (r : list R) (terminals : list bool) (gamma : R)
    : result (list R) :=
  let discounted_r := replicate (length r) 0 in
  let running_add := 0 in
  let r := np_sign <$> r in
  st ← discount_loop r terminals gamma (length r) (discounted_r, running_add);
  Ok st.1.

(** *** The policy-gradient loss of ppostep *)

(** [[newprob / prob for prob, newprob in zip(baseprobs, newprobs)]]; every
    tensor of one sample is kept as the list of its entries. *)
Fixpoint ppostep_probratios (baseprobs newprobs : list (list R))
    : result (list (list R)) :=
  match baseprobs, newprobs with
  | prob :: baseprobs, newprob :: newprobs =>
      rt ← torch_binop Rdiv newprob prob;
      rest ← ppostep_probratios baseprobs newprobs;
      Ok (rt :: rest)
  | _, _ => Ok []
  end.

(** [torch.min(rt * adv, torch.clamp(rt, 1 - epscut, 1 + epscut) * adv)] *)
Definition ppostep_clipping (epscut : R) (rt : list R) (adv : R)
    : result (list R) :=
  torch_binop Rmin
    ((λ x, x * adv) <$> rt)
    ((λ x, x * adv) <$> torch_clamp rt (Some (1 - epscut)) (Some (1 + epscut))).

Fixpoint ppostep_clippings (epscut : R) (probratios : list (list R))
    (advantages : list R) : result (list (list R)) :=
  match probratios, advantages with
  | rt :: probratios, adv :: advantages =>
      c ← ppostep_clipping epscut rt adv;
      rest ← ppostep_clippings epscut probratios advantages;
      Ok (c :: rest)
  | _, _ => Ok []
  end.

(** [torch.cat] along the first axis: at least one tensor, all of one
    width. *)
Definition torch_cat (ts : list (list R)) : result (list R) :=
  match ts with
  | [] => Raise RuntimeError
  | t :: rest =>
      if forallb (λ u, bool_decide (length u = length t)) rest
      then Ok (concat ts)
      else Raise RuntimeError
  end.

Definition ppostep_pgloss (logprobs baseprobs : list (list R))
    (advantages : list R) (epscut : R) : result R :=
  let newprobs : list (list R) := map (map exp) logprobs in
  probratios ← ppostep_probratios baseprobs newprobs;
  clippings ← ppostep_clippings epscut probratios advantages;
  flat ← torch_cat clippings;
  Ok (- mean flat).
End MoreNumerics.

(** *** prepro *)

(** [l[::step]], read with [skip] elements still to pass over. *)
Fixpoint py_stride {A} (step skip : nat) (l : list A) : list A :=
  match l with
  | [] => []
  | x :: l' =>
      match skip with
      | O => x :: py_stride step (step - 1) l'
      | S s => py_stride step s l'
      end
  end.

Section Prepro.
Context {Pixel : Type}.
(** [skimage.color.rgb2gray], which works pixel by pixel. *)
Context (rgb2gray : list Pixel → R).

Definition prepro_image (image : list (list (list Pixel))) : list (list R) :=
  let image := map (py_stride 4 0) (py_stride 4 0 image) in
  let image := map (map rgb2gray) image in
  map (map (λ x, (x - 0.5)%R)) image.
End Prepro.

(** *** runepisode *)

Section RunEpisode.
Context {Env Policy Action LogProb RawObs Frame Info : Type}.
Context (env_reset : Env → Env * RawObs).
Context (env_step : Env → Action → Env * (RawObs * R * bool * Info)).
Context (prepro : RawObs → Frame).
Context (select_action : Policy → list Frame → Policy * (Action * LogProb)).
Context (windowlength : nat).

(** [(observation, xbatch, p, action, reward, done)] *)
Definition history_entry : Type :=
  RawObs * list Frame * LogProb * Action * R * bool.

(** [for _ in range(n)], with the environment and the policy it leaves. *)
Fixpoint runepisode_loop (n : nat) (env : Env) (policy : Policy)
    (observation : RawObs) (statesqueue xbatch : list Frame)
    (history : list history_entry)
    : result (Env * Policy * list history_entry) :=
  match n with
  | O => Ok (env, policy, history)
  | S n' =>
      let '(policy, (action, p)) := select_action policy xbatch in
      let '(env, (newobservation, reward, done, info)) := env_step env action in
      let history :=
        history ++ [(observation, xbatch, p, action, reward, done)] in
      if done then Ok (env, policy, history)
      else
        let observation := newobservation in
        let x := prepro observation in
        let statesqueue := deque_append windowlength statesqueue x in
        xbatch ← np_stack statesqueue;
        runepisode_loop n' env policy observation statesqueue xbatch history
  end.

Definition runepisode (env : Env) (policy : Policy) (episodesteps : nat)
    : result (Env * Policy * list history_entry) :=
  let '(env, observation) := env_reset env in
  let x := prepro observation in
  let statesqueue := replicate windowlength x in
  xbatch ← np_stack statesqueue;
  runepisode_loop episodesteps env policy observation statesqueue xbatch [].

Definition entry_done (h : history_entry) : bool := h.2.

(** What runepisode records of an experience of the generator. *)
Definition experience_entry
    (x : experience (Action:=Action) (LogProb:=LogProb) (RawObs:=RawObs)
                    (Frame:=Frame)) : history_entry :=
  (x_observation x, x_xbatch x, x_p x, x_action x, x_reward x, x_done x).
End RunEpisode.

(** *** experiencegenerator: what a suspended generator keeps *)

Section GeneratorInvariants.
Context {Env Policy Action LogProb RawObs Frame Info : Type}.
Context (prepro : RawObs → Frame).
Context (episodesteps : option nat) (windowlength : nat).

Local Abbreviation generator :=
  (generator (Env:=Env) (Policy:=Policy) (Action:=Action) (LogProb:=LogProb)
             (RawObs:=RawObs) (Frame:=Frame)).

(** The last experience agrees with the locals, and its new window is the
    old one shifted by the new frame. *)
Definition window_slid (g : generator) : Prop :=
  match g with
  | Fresh _ _ => True
  | Suspended l last =>
      length (xbatch l) = windowlength ∧
      x_xbatch last = xbatch l ∧
      x_observation last = observation l ∧
      statesqueue l = x_newxbatch last ∧
      x_newxbatch last
        = drop 1 (xbatch l) ++ [prepro (x_newobservation last)]
  end.

(** The counters after [count] experiences whose rewards sum to [total]. *)
Definition books_kept (count : nat) (total : R) (g : generator) : Prop :=
  match g with
  | Fresh _ _ => count = 0 ∧ total = 0%R
  | Suspended l last =>
      totalsteps l + step l + 1 = count ∧
      episode l = length (episoderewards l) ∧
      (sum_R (episoderewards l) + rewards l + x_reward last)%R = total ∧
      ∀ m, episodesteps = Some m → S (step l) ≤ 1 `max` m
  end.
End GeneratorInvariants.

(** *** train: the minibatches of one epoch *)

(** [l[start:stop]] for non-negative bounds. *)
Definition py_slice {A} (l : list A) (start stop : nat) : list A :=
  take (stop - start) (drop start l).

(** [[idx[i*minibatchsize:(i+1)*minibatchsize] for i in range(nminibatches)]] *)
Definition train_minibatches {A} (idx : list A)
    (minibatchsize nminibatches : nat) : list (list A) :=
  (λ i, py_slice idx (i * minibatchsize) ((i + 1) * minibatchsize))
    <$> seq 0 nminibatches.

(* ================================================================= *)
(** * Part II. Properties                                             *)
(* ================================================================= *)

(** ** The programs on small inputs *)

Example py_getitem_negative : py_getitem [10; 20; 30] (-1) = Ok 30.
Proof. reflexivity. Qed.

Example py_getitem_out_of_range : py_getitem [10; 20; 30] 3 = Raise IndexError.
Proof. reflexivity. Qed.

Example list_index_first : list_index "A" ["B"; "A"; "A"] = Ok 1.
Proof. reflexivity. Qed.

Example deque_append_evicts : deque_append 3 [1; 2; 3] 4 = [2; 3; 4].
Proof. reflexivity. Qed.

Example deque_append_zero_capacity : deque_append 0 [] 4 = [].
Proof. reflexivity. Qed.

(** Three steps into an episode of the test environment, a skip of four
    stops after two more steps, at the terminal fifth one. *)
Example SkipFrames_step_stops_at_done :
  SkipFrames_step fake_step Z.add 0%Z (mkSkipFrames 3 4) true
    = (mkSkipFrames 5 4, (Some 5, (-4)%Z, Some true, Some ())).
Proof. reflexivity. Qed.

Example np_concatenate2_two_frames :
  np_concatenate2 [fake_frame 1; fake_frame 2]
    = Ok {| shape := (1, 1, 2); data := [[[1; 2]]] |}.
Proof. reflexivity. Qed.

Example np_concatenate2_shape_mismatch :
  np_concatenate2 [fake_frame 1; {| shape := (2, 1, 1); data := [[[1]]; [[2]]] |}]
    = Raise ValueError.
Proof. reflexivity. Qed.

(** A step before the first reset trips the assertion of [_get_ob]. *)
Example FrameStack_step_before_reset :
  (FrameStack_calls fake_frame_reset fake_frame_step (FrameStack_init 0 2)
     [Step true; Reset; Step true]).2
    = [ Raise AssertionError;
        Ok (LazyFrames_init [fake_frame 0; fake_frame 0]);
        Ok (LazyFrames_init [fake_frame 0; fake_frame 1]) ].
Proof. reflexivity. Qed.

(** GradiusDiscretizer: action 4 is DOWN + RIGHT, buttons 5 and 7. *)
Example Gradius_down_right :
  match ButtonsRemapper_init SNES_BUTTONS Gradius_actions ∅ with
  | (h, Ok self) =>
      match ButtonsRemapper_action self 4 h with
      | (h', Ok c) => h' !! c
      | _ => None
      end
  | _ => None
  end
  = Some [false; false; false; false; false; true; false; true;
          false; false; false; false].
Proof. vm_compute. reflexivity. Qed.

Example generator_windows :
  match generator_take fake_reset fake_real_step fake_prepro
          fake_select_action (Some 2) 3 3 (Fresh 0 0) with
  | Ok (_, xs) => (λ x, (x_xbatch x, x_newxbatch x)) <$> xs
  | Raise _ => []
  end
  = [ ([0; 0; 0], [0; 0; 1]); ([0; 0; 1], [0; 1; 2]); ([0; 0; 0], [0; 0; 1]) ].
Proof. vm_compute. reflexivity. Qed.

(** ** SkipFrames *)

Section SkipFramesSpec.
Context {Env Action Obs Reward Info : Type}.
Context (env_step : Env → Action → Env * (Obs * Reward * bool * Info)).
Context (radd : Reward → Reward → Reward) (rzero : Reward).

Local Abbreviation loop := (skip_loop env_step radd).
Local Abbreviation run := (inner_steps env_step).

Lemma skip_loop_runs n e action total obs done info :
  ∃ m outs e' lst,
    1 ≤ m ≤ S n ∧
    run m e action = (outs, e') ∧
    last outs = Some lst ∧
    loop (S n) e action total obs done info
      = (e', (Some lst.1.1.1, foldl radd total (out_reward <$> outs),
              Some (out_done lst), Some lst.2)) ∧
    (∀ j x, j < m - 1 → outs !! j = Some x → out_done x = false) ∧
    (m = S n ∨ out_done lst = true).
Proof.
  revert e total obs done info.
  induction n as [|n IH]; intros e total obs done info.
  - exists 1. simpl.
    destruct (env_step e action) as [e1 [[[o r] d] i]] eqn:E.
    exists [(o, r, d, i)], e1, (o, r, d, i).
    split; [lia|]. split; [done|]. split; [done|].
    split; [by destruct d|]. split; [|by left].
    intros j x Hj. lia.
  - cbn [skip_loop].
    destruct (env_step e action) as [e1 [[[o r] d] i]] eqn:E.
    destruct d.
    + exists 1, [(o, r, true, i)], e1, (o, r, true, i).
      cbn [inner_steps]. rewrite E.
      split; [lia|]. split; [done|]. split; [done|].
      split; [done|]. split; [|by right].
      intros j x Hj. lia.
    + destruct (IH e1 (radd total r) (Some o) (Some false) (Some i))
        as (m & outs & e' & lst & Hm & Hrun & Hlast & Hloop & Hnot & Hend).
      exists (S m), ((o, r, false, i) :: outs), e', lst.
      split; [lia|]. split.
      { cbn [inner_steps]. by rewrite E, Hrun. }
      split.
      { destruct outs; [done|]. by rewrite last_cons, Hlast. }
      split.
      { cbn [skip_loop] in Hloop. exact Hloop. }
      split.
      { intros [|j] x Hj Hx; simplify_eq/=; [done|].
        apply (Hnot j x); [lia|done]. }
      destruct Hend as [->|Hd]; [by left|by right].
Qed.

(** C7. For skip >= 1, [step] runs between one and [skip] inner steps with
    the given action, hands back the sum of their rewards with the
    observation, flag and info of the last one, and stops at the first
    inner step that reports done: no inner step before the last reported
    done, and the loop ran to [skip] unless the last one did. The
    environment is left as these inner steps left it. *)
Theorem SkipFrames_step_repeats (self : SkipFrames Env) (action : Action) :
  (1 ≤ _skip self)%Z →
  ∃ m outs e' lst,
    1 ≤ m ≤ Z.to_nat (_skip self) ∧
    run m (sf_env self) action = (outs, e') ∧
    last outs = Some lst ∧
    SkipFrames_step env_step radd rzero self action
      = (mkSkipFrames e' (_skip self),
         (Some lst.1.1.1, foldl radd rzero (out_reward <$> outs),
          Some (out_done lst), Some lst.2)) ∧
    (∀ j x, j < m - 1 → outs !! j = Some x → out_done x = false) ∧
    (m = Z.to_nat (_skip self) ∨ out_done lst = true).
Proof.
  intros Hskip. unfold SkipFrames_step.
  destruct (Z.to_nat (_skip self)) as [|n] eqn:En; [lia|].
  destruct (skip_loop_runs n (sf_env self) action rzero None None None)
    as (m & outs & e' & lst & Hm & Hrun & Hlast & Hloop & Hnot & Hend).
  exists m, outs, e', lst. rewrite Hloop. done.
Qed.

(** C10. With skip <= 0 the loop body never runs: the environment is not
    stepped and the caller gets [(None, 0.0, None, None)]. *)
Theorem SkipFrames_step_nonpositive (self : SkipFrames Env) (action : Action) :
  (_skip self ≤ 0)%Z →
  SkipFrames_step env_step radd rzero self action
    = (mkSkipFrames (sf_env self) (_skip self), (None, rzero, None, None)).
Proof.
  intros Hskip. unfold SkipFrames_step.
  by replace (Z.to_nat (_skip self)) with 0 by lia.
Qed.
End SkipFramesSpec.

(** ** np.concatenate along the channel axis *)

Section ConcatenateShape.
Context {Pixel : Type}.
Implicit Types (d : list (list (list Pixel))) (f g : ndarray3 Pixel).

(** Rows of [w] pixels of [c] channels each, [h] of them. *)
Local Abbreviation rows_ok h w c d :=
  (length d = h ∧
   Forall (λ row : list (list Pixel),
             length row = w ∧ Forall (λ px, length px = c) row) d).

Lemma join_row_ok (r1 r2 : list (list Pixel)) w c1 c2 :
  length r1 = w ∧ Forall (λ px, length px = c1) r1 →
  length r2 = w ∧ Forall (λ px, length px = c2) r2 →
  length (zip_with app r1 r2) = w ∧
  Forall (λ px, length px = c1 + c2) (zip_with app r1 r2).
Proof.
  intros [Hl1 H1] [Hl2 H2]. split; [rewrite length_zip_with; lia|].
  clear Hl1 Hl2. revert r2 H2.
  induction H1 as [|p1 r1 Hp1 _ IH]; intros r2 H2; [constructor|].
  destruct H2 as [|p2 r2 Hp2 H2]; [constructor|].
  cbn. constructor; [rewrite length_app; lia|by apply IH].
Qed.

Lemma join_channels_ok d1 d2 h w c1 c2 :
  rows_ok h w c1 d1 → rows_ok h w c2 d2 →
  rows_ok h w (c1 + c2) (join_channels d1 d2).
Proof.
  intros [Hl1 H1] [Hl2 H2]. unfold join_channels.
  split; [rewrite length_zip_with; lia|].
  clear Hl1 Hl2. revert d2 H2.
  induction H1 as [|r1 d1 Hr1 _ IH]; intros d2 H2; [constructor|].
  destruct H2 as [|r2 d2 Hr2 H2]; [constructor|].
  cbn. constructor; [by apply join_row_ok|by apply IH].
Qed.

Lemma foldl_join_ok fs d h w c :
  rows_ok h w c d →
  Forall (λ g, wf_array g ∧ (shape g).1 = (h, w)) fs →
  rows_ok h w (c + sum_list (channels <$> fs))
          (foldl join_channels d (data <$> fs)).
Proof.
  intros Hd Hfs. revert d c Hd.
  induction Hfs as [|g fs [Hg Hhw] _ IH]; intros d c Hd.
  - cbn. by rewrite Nat.add_0_r.
  - cbn [fmap list_fmap foldl sum_list sum_list_with].
    rewrite Nat.add_assoc. apply IH. apply join_channels_ok; [done|].
    destruct Hg as [Hlen Hrows]. unfold height, width in *.
    rewrite Hhw in Hlen, Hrows. done.
Qed.

(** The concatenation of well-formed frames that agree on height and
    width is a well-formed frame of that height and width, whose channel
    count is the sum of theirs. *)
Lemma np_concatenate2_wf (frames : list (ndarray3 Pixel)) out :
  Forall wf_array frames →
  np_concatenate2 frames = Ok out →
  wf_array out ∧
  channels out = sum_list (channels <$> frames) ∧
  Forall (λ f, height f = height out ∧ width f = width out) frames.
Proof.
  destruct frames as [|f fs]; [done|].
  intros [Hf Hfs]%Forall_cons. unfold np_concatenate2.
  destruct (forallb (same_hw f) fs) eqn:Hsame; [|done].
  intros [= <-].
  assert (Forall (λ g, (shape g).1 = (shape f).1) fs) as Hhw.
  { apply Forall_forall. intros g Hg%list_elem_of_In.
    eapply forallb_forall in Hsame; [|done].
    symmetry. by apply bool_decide_eq_true in Hsame. }
  split; [|split; [done|]].
  - unfold wf_array, height, width, channels. cbn [shape data].
    destruct (shape f) as [[h w] c] eqn:Hshape. cbn [fst snd].
    apply foldl_join_ok.
    + destruct Hf as [Hlen Hrows]. unfold height, width, channels in *.
      by rewrite Hshape in Hlen, Hrows.
    + apply Forall_and. split; [done|].
      eapply Forall_impl; [exact Hhw|]. intros g Hg. by rewrite Hg.
  - unfold height, width. cbn [shape].
    constructor; [done|].
    eapply Forall_impl; [exact Hhw|]. intros g Hg. cbv beta. by rewrite Hg.
Qed.
End ConcatenateShape.

(** ** LazyFrames *)

Section LazyFramesSpec.
Context {Pixel Dtype : Type} (cast : Dtype → Pixel → Pixel).

Lemma np_concatenate2_ok (frames : list (ndarray3 Pixel)) :
  frames ≠ [] →
  (∀ f g, f ∈ frames → g ∈ frames → shape f = shape g) →
  ∃ out, np_concatenate2 frames = Ok out.
Proof.
  destruct frames as [|f fs]; [done|]. intros _ Hshape.
  unfold np_concatenate2.
  assert (forallb (same_hw f) fs = true) as ->; [|by eexists].
  apply forallb_forall. intros g Hg%list_elem_of_In.
  unfold same_hw. apply bool_decide_eq_true.
  f_equal. apply Hshape; set_solver.
Qed.

(** Once the cache is filled, every access is served from it and leaves
    the object as it is. *)
Lemma access_cached (out : ndarray3 Pixel) (op : access Dtype) :
  LazyFrames_access cast {| _frames := None; _out := Some out |} op
    = ({| _frames := None; _out := Some out |}, eager_access cast out op).
Proof. by destruct op as [[dt|]| |i]. Qed.

Lemma run_cached (out : ndarray3 Pixel) (ops : list (access Dtype)) :
  LazyFrames_run cast {| _frames := None; _out := Some out |} ops
    = eager_access cast out <$> ops.
Proof.
  induction ops as [|op ops IH]; [done|].
  cbn [LazyFrames_run]. rewrite access_cached. by rewrite IH.
Qed.

(** The first access concatenates, fills the cache and drops the list. *)
Lemma access_first (frames : list (ndarray3 Pixel)) out (op : access Dtype) :
  np_concatenate2 frames = Ok out →
  LazyFrames_access cast (LazyFrames_init frames) op
    = ({| _frames := None; _out := Some out |}, eager_access cast out op).
Proof.
  intros Hcat.
  destruct op as [[dt|]| |i]; cbn;
    unfold LazyFrames_array, LazyFrames_len, LazyFrames_getitem, _force;
    cbn; by rewrite Hcat.
Qed.

(** C9. A LazyFrames built from a non-empty list of equally shaped frames
    serves every sequence of accesses (array conversion, length, indexing)
    exactly as the eager [np.concatenate(frames, axis=2)] would: the first
    access computes that array, all later ones return the same array. *)
Theorem LazyFrames_is_eager_concatenation
    (frames : list (ndarray3 Pixel)) (ops : list (access Dtype)) :
  frames ≠ [] →
  (∀ f g, f ∈ frames → g ∈ frames → shape f = shape g) →
  ∃ out,
    np_concatenate2 frames = Ok out ∧
    (_force (LazyFrames_init frames)).2 = Ok out ∧
    (_force (_force (LazyFrames_init frames)).1).2 = Ok out ∧
    LazyFrames_run cast (LazyFrames_init frames) ops
      = eager_access cast out <$> ops.
Proof.
  intros Hne Hshape.
  destruct (np_concatenate2_ok frames Hne Hshape) as [out Hcat].
  exists out. split; [done|].
  split; [by unfold _force; cbn; rewrite Hcat|].
  split; [by unfold _force; cbn; rewrite Hcat|].
  destruct ops as [|op ops]; [done|].
  cbn [LazyFrames_run]. rewrite (access_first _ out) by done.
  by rewrite run_cached.
Qed.
End LazyFramesSpec.

(** ** FrameStack and the frame window of experiencegenerator *)

Section DequeFacts.
Context {A : Type}.
Implicit Types q : list A.

Lemma deque_append_length k q x :
  length (deque_append k q x) = k `min` S (length q).
Proof.
  unfold deque_append. rewrite length_drop, length_app. simpl. lia.
Qed.

(** Pushing the same frame [j] times. *)
Lemma deque_fill k q ob j :
  length q ≤ k →
  Nat.iter j (λ q, deque_append k q ob) q
    = drop (length q + j - k) (q ++ replicate j ob).
Proof.
  intros Hq. induction j as [|j IH].
  - simpl. rewrite app_nil_r.
    by replace (length q + 0 - k) with 0 by lia.
  - rewrite Nat.iter_succ, IH. unfold deque_append.
    rewrite replicate_S_end, app_assoc.
    rewrite <- drop_app_le by (rewrite length_app, length_replicate; lia).
    rewrite drop_drop. f_equal.
    rewrite length_drop, !length_app, length_replicate. simpl. lia.
Qed.

Lemma deque_fill_full k q ob :
  length q ≤ k →
  Nat.iter k (λ q, deque_append k q ob) q = replicate k ob.
Proof.
  intros Hq. rewrite deque_fill by done.
  replace (length q + k - k) with (length q) by lia.
  by rewrite drop_app_length.
Qed.
End DequeFacts.

Section FrameStackSpec.
Context {Env Action Reward Info Pixel : Type}.
Context (env_reset : Env → Env * ndarray3 Pixel).
Context (env_step :
  Env → Action → Env * (ndarray3 Pixel * Reward * bool * Info)).

Local Abbreviation fs_call := (FrameStack_call env_reset env_step).
Local Abbreviation fs_calls := (FrameStack_calls env_reset env_step).
Implicit Types self : FrameStack Env Pixel.

Lemma call_k self c : k (fs_call self c).1 = k self.
Proof.
  destruct c as [|a]; cbn; unfold FrameStack_reset, FrameStack_step.
  - by destruct (env_reset _).
  - by destruct (env_step _ _) as [? [[[??]?]?]].
Qed.

Lemma call_bounded self c : bounded self → bounded (fs_call self c).1.
Proof.
  unfold bounded. intros Hb.
  destruct c as [|a]; cbn; unfold FrameStack_reset, FrameStack_step.
  - destruct (env_reset _) as [e ob]. cbn.
    by rewrite deque_fill_full, length_replicate.
  - destruct (env_step _ _) as [e [[[ob r] d] i]]. cbn.
    rewrite deque_append_length. lia.
Qed.

(** Whatever a call hands out holds exactly [k] frames, not yet
    concatenated. *)
Lemma call_window self c lf :
  (fs_call self c).2 = Ok lf →
  ∃ fr, lf = LazyFrames_init fr ∧ length fr = k self.
Proof.
  destruct c as [|a]; cbn; unfold FrameStack_reset, FrameStack_step.
  - destruct (env_reset _) as [e ob]. cbn. unfold _get_ob. cbn.
    case_decide; [|done]. intros [= <-]. by eexists.
  - destruct (env_step _ _) as [e [[[ob r] d] i]]. cbn. unfold _get_ob. cbn.
    case_decide; [|done]. intros [= <-]. by eexists.
Qed.

(** [reset] hands out [k] copies of the frame the environment's [reset]
    returned, and leaves the deque filled. *)
Lemma reset_window self :
  bounded self →
  (fs_call self Reset).2
    = Ok (LazyFrames_init (replicate (k self) (env_reset (fs_env self)).2)) ∧
  filled (fs_call self Reset).1.
Proof.
  unfold bounded, filled. intros Hb. cbn. unfold FrameStack_reset.
  destruct (env_reset _) as [e ob]. cbn. unfold _get_ob. cbn.
  rewrite deque_fill_full by done. rewrite length_replicate.
  by rewrite decide_True.
Qed.

(** On a filled deque no call can fail, and the deque stays filled. *)
Lemma call_filled self c :
  filled self →
  filled (fs_call self c).1 ∧ ∃ lf, (fs_call self c).2 = Ok lf.
Proof.
  intros Hf. destruct c as [|a].
  - destruct (reset_window self) as [-> ?]; [unfold bounded; by rewrite Hf|].
    eauto.
  - revert Hf. unfold filled. cbn. unfold FrameStack_step.
    destruct (env_step _ _) as [e [[[ob r] d] i]]. cbn. intros Hf.
    unfold _get_ob. cbn. rewrite deque_append_length, Hf.
    rewrite decide_True by lia. split; [lia|]. by eexists.
Qed.

Lemma calls_cons self c cs :
  fs_calls self (c :: cs)
    = ((fs_calls (fs_call self c).1 cs).1,
       (fs_call self c).2 :: (fs_calls (fs_call self c).1 cs).2).
Proof.
  cbn [FrameStack_calls]. destruct (fs_call self c) as [self1 r]. cbn.
  by destruct (fs_calls self1 cs).
Qed.

Lemma calls_length self cs : length (fs_calls self cs).2 = length cs.
Proof.
  revert self. induction cs as [|c cs IH]; intros self; [done|].
  rewrite calls_cons. cbn. by rewrite IH.
Qed.

Lemma calls_window self cs i lf :
  (fs_calls self cs).2 !! i = Some (Ok lf) →
  ∃ fr, lf = LazyFrames_init fr ∧ length fr = k self.
Proof.
  revert self i. induction cs as [|c cs IH]; intros self i; [done|].
  rewrite calls_cons. destruct i as [|i]; cbn.
  - intros [= H]. by apply call_window in H.
  - intros H. apply IH in H. by rewrite call_k in H.
Qed.

Lemma calls_filled self cs j :
  filled self → j < length cs →
  ∃ lf, (fs_calls self cs).2 !! j = Some (Ok lf).
Proof.
  revert self j. induction cs as [|c cs IH]; intros self j Hf Hj;
    [simpl in Hj; lia|].
  rewrite calls_cons. destruct (call_filled self c Hf) as [Hf' [lf Hlf]].
  destruct j as [|j]; cbn.
  - rewrite Hlf. by eexists.
  - apply IH; [done|]. simpl in Hj. lia.
Qed.

Lemma calls_reset self cs i :
  bounded self →
  cs !! i = Some Reset →
  (fs_calls self cs).2 !! i
    = Some (Ok (LazyFrames_init
        (replicate (k self)
           (env_reset (fs_env (fs_calls self (take i cs)).1)).2))) ∧
  ∀ j, i < j < length cs → ∃ lf, (fs_calls self cs).2 !! j = Some (Ok lf).
Proof.
  revert self i. induction cs as [|c cs IH]; intros self i Hb Hi; [done|].
  rewrite calls_cons. destruct i as [|i]; cbn in Hi.
  - injection Hi as ->. destruct (reset_window self Hb) as [Hr Hf].
    split; [by rewrite Hr|].
    intros [|j] Hj; [lia|]. cbn - [FrameStack_call FrameStack_calls].
    apply calls_filled; [done|]. simpl in Hj. lia.
  - destruct (IH (fs_call self c).1 i (call_bounded _ _ Hb) Hi) as [Hr Hlater].
    split.
    + cbn - [FrameStack_call FrameStack_calls].
      etrans; [exact Hr|]. by rewrite call_k, calls_cons.
    + intros [|j] Hj; [lia|]. cbn - [FrameStack_call FrameStack_calls].
      apply Hlater. simpl in Hj. lia.
Qed.
End FrameStackSpec.

Section ExperienceGeneratorSpec.
Context {Env Policy Action LogProb RawObs Frame Info : Type}.
Context (env_reset : Env → Env * RawObs).
Context (env_step : Env → Action → Env * (RawObs * R * bool * Info)).
Context (prepro : RawObs → Frame).
Context (select_action : Policy → list Frame → Policy * (Action * LogProb)).
Context (episodesteps : option nat) (windowlength : nat).

Local Abbreviation gen_next :=
  (generator_next env_reset env_step prepro select_action
                  episodesteps windowlength).
Local Abbreviation gen_take :=
  (generator_take env_reset env_step prepro select_action
                  episodesteps windowlength).
Local Abbreviation opens := (opens_episode episodesteps).
Local Abbreviation generator :=
  (generator (Env:=Env) (Policy:=Policy) (Action:=Action) (LogProb:=LogProb)
             (RawObs:=RawObs) (Frame:=Frame)).
Local Abbreviation experience :=
  (experience (Action:=Action) (LogProb:=LogProb) (RawObs:=RawObs)
              (Frame:=Frame)).
Local Abbreviation locals :=
  (locals (Env:=Env) (Policy:=Policy) (RawObs:=RawObs) (Frame:=Frame)).
Implicit Types (g : generator) (x : experience) (l : locals).

Local Abbreviation full_windows := (full_windows windowlength).
Local Abbreviation padded_window :=
  (padded_window env_reset prepro windowlength).

Lemma np_stack_nonempty (q : list Frame) : 1 ≤ length q → np_stack q = Ok q.
Proof. destruct q; simpl; [lia|done]. Qed.

Lemma begin_episode_ok env policy ep ts ers :
  1 ≤ windowlength →
  ∃ l, begin_episode env_reset prepro windowlength env policy ep ts ers = Ok l ∧
       observation l = (env_reset env).2 ∧
       xbatch l = replicate windowlength (prepro (observation l)) ∧
       statesqueue l = xbatch l.
Proof.
  intros Hk. unfold begin_episode. destruct (env_reset env) as [e ob].
  rewrite np_stack_nonempty by (by rewrite length_replicate).
  cbn. by eexists.
Qed.

Lemma act_ok l :
  1 ≤ windowlength →
  length (statesqueue l) = windowlength →
  ∃ l' x, act env_step prepro select_action windowlength l = Ok (l', x) ∧
    length (statesqueue l') = windowlength ∧
    x_newxbatch x = statesqueue l' ∧
    x_xbatch x = xbatch l ∧
    x_observation x = observation l ∧
    g_env l' = (env_step (g_env l) (x_action x)).1.
Proof.
  intros Hk Hq. unfold act.
  destruct (select_action _ _) as [pol [a p]].
  destruct (env_step _ _) as [e [[[ob r] d] i]] eqn:E.
  rewrite np_stack_nonempty by (rewrite deque_append_length; lia).
  cbn. eexists _, _. split; [done|]. cbn.
  rewrite deque_append_length, E. repeat split; lia.
Qed.

Lemma next_ok g :
  1 ≤ windowlength →
  window_ok windowlength g →
  ∃ g' x, gen_next g = Ok (g', x) ∧
    window_ok windowlength g' ∧
    full_windows x ∧
    (opens g = true → padded_window g x).
Proof.
  intros Hk Hg. unfold generator_next, full_windows, padded_window.
  destruct g as [env policy | l last].
  - destruct (begin_episode_ok env policy 0 0 [] Hk) as (l & -> & Hob & Hx & Hq).
    cbn. destruct (act_ok l Hk) as (l' & x & -> & Hq' & Hnew & Hxb & Hobs & _).
    { by rewrite Hq, Hx, length_replicate. }
    cbn. eexists _, _. split; [done|]. cbn.
    rewrite Hnew, Hxb, Hobs, Hx, Hq', length_replicate. naive_solver.
  - destruct Hg as (Hq & Hlast). unfold resume. cbn [opens_episode generator_env].
    destruct (episode_over episodesteps l last) eqn:Hover.
    + destruct (begin_episode_ok (g_env l) (g_policy l) (S (episode l))
        (totalsteps l + S (step l))
        (episoderewards l ++ [(rewards l + x_reward last)%R]) Hk)
        as (l1 & -> & Hob & Hx & Hq1).
      cbn. destruct (act_ok l1 Hk) as (l' & x & -> & Hq' & Hnew & Hxb & Hobs & _).
      { by rewrite Hq1, Hx, length_replicate. }
      cbn. eexists _, _. split; [done|]. cbn.
      rewrite Hnew, Hxb, Hobs, Hx, Hq', length_replicate. naive_solver.
    + cbn.
      match goal with |- context [act _ _ _ _ ?l1] =>
        destruct (act_ok l1 Hk) as (l' & x & -> & Hq' & Hnew & Hxb & Hobs & _)
      end; [done|].
      cbn. eexists _, _. split; [done|]. cbn.
      rewrite Hnew, Hxb, Hq'. cbn. rewrite Hlast, Hq. naive_solver.
Qed.

Lemma take_ok n g :
  1 ≤ windowlength →
  window_ok windowlength g →
  ∃ g' xs, gen_take n g = Ok (g', xs) ∧
    window_ok windowlength g' ∧
    length xs = n ∧
    Forall full_windows xs ∧
    (∀ i gi xsi x,
       gen_take i g = Ok (gi, xsi) → opens gi = true →
       xs !! i = Some x → padded_window gi x).
Proof.
  intros Hk. revert g. induction n as [|n IH]; intros g Hg.
  - exists g, []. by repeat split.
  - cbn [generator_take].
    destruct (next_ok g Hk Hg) as (g1 & x & Hnext & Hg1 & Hfull & Hopen).
    rewrite Hnext. cbn.
    destruct (IH g1 Hg1) as (g' & xs & -> & Hg' & Hlen & Hall & Hpad).
    cbn. exists g', (x :: xs). split; [done|]. split; [done|].
    split; [by rewrite length_cons, Hlen|]. split; [by constructor|].
    intros [|i] gi xsi y; cbn [generator_take].
    + intros [= <- <-] Ho [= <-]. by apply Hopen.
    + rewrite Hnext. cbn. intros Htake Ho Hy.
      destruct (gen_take i g1) as [[g2 xs2]|] eqn:E2; [|done].
      cbn in Htake. injection Htake as <- <-.
      by eapply Hpad.
Qed.
End ExperienceGeneratorSpec.

Section FrameWindowSpec.
Context {Env Action Reward Info Pixel : Type}.
Context (env_reset : Env → Env * ndarray3 Pixel).
Context (env_step :
  Env → Action → Env * (ndarray3 Pixel * Reward * bool * Info)).
Context {GEnv Policy GAction LogProb RawObs Frame GInfo : Type}.
Context (retro_reset : GEnv → GEnv * RawObs).
Context (retro_step : GEnv → GAction → GEnv * (RawObs * R * bool * GInfo)).
Context (prepro : RawObs → Frame).
Context (select_action :
  Policy → list Frame → Policy * (GAction * LogProb)).
Context (episodesteps : option nat) (windowlength : nat).

Local Abbreviation fs_calls := (FrameStack_calls env_reset env_step).
Local Abbreviation gen_take :=
  (generator_take retro_reset retro_step prepro select_action
                  episodesteps windowlength).

(** C8. FrameStack: whatever sequence of reset and step calls is made on a
    new FrameStack, every stacked observation it hands out holds exactly
    [k] frames; a reset hands out [k] copies of the frame the wrapped
    environment's reset returned, and from the first reset on no call
    fails. experiencegenerator (window length at least one): any number
    of experiences can be drawn, the window passed to the policy and the
    new window of every experience hold exactly [windowlength] frames, and
    the window of an experience that opens an episode holds
    [windowlength] copies of the processed frame of the observation that
    the environment's reset returned. *)
Theorem frame_window_always_full
    (env : Env) (k : nat) (cs : list (call Action))
    (genv : GEnv) (policy : Policy) (n : nat) :
  1 ≤ windowlength →
  (let outs := (fs_calls (FrameStack_init env k) cs).2 in
   length outs = length cs ∧
   (∀ i lf, outs !! i = Some (Ok lf) →
      ∃ fr, lf = LazyFrames_init fr ∧ length fr = k) ∧
   (∀ i, cs !! i = Some Reset →
      outs !! i
        = Some (Ok (LazyFrames_init (replicate k
            (env_reset
               (fs_env (fs_calls (FrameStack_init env k) (take i cs)).1)).2)))
      ∧ ∀ j, i < j < length cs → ∃ lf, outs !! j = Some (Ok lf))) ∧
  (∃ g xs,
     gen_take n (Fresh genv policy) = Ok (g, xs) ∧
     length xs = n ∧
     Forall (full_windows windowlength) xs ∧
     ∀ i gi xsi x,
       gen_take i (Fresh genv policy) = Ok (gi, xsi) →
       opens_episode episodesteps gi = true →
       xs !! i = Some x →
       padded_window retro_reset prepro windowlength gi x).
Proof.
  intros Hk. split.
  - cbv zeta. split; [apply calls_length|]. split.
    + intros i lf H. by apply calls_window in H.
    + intros i Hi. apply calls_reset; [|done].
      unfold bounded. cbn. lia.
  - destruct (take_ok retro_reset retro_step prepro select_action
                episodesteps windowlength n (Fresh genv policy) Hk I)
      as (g & xs & Htake & _ & Hlen & Hall & Hpad).
    by exists g, xs.
Qed.
End FrameWindowSpec.

(** ** ButtonsRemapper *)

Section ListIndex.
Context `{EqDecision A}.
Implicit Types (x : A) (l : list A).

Lemma list_index_elem x l :
  x ∈ l → ∃ i, list_index x l = Ok i ∧ l !! i = Some x.
Proof.
  induction l as [|y l IH]; [by intros ?%elem_of_nil|].
  intros Hx. cbn. case_decide as Hy; [subst; by exists 0|].
  apply elem_of_cons in Hx as [->|Hx]; [done|].
  destruct (IH Hx) as (i & -> & Hi). by exists (S i).
Qed.

Lemma list_index_not_elem x l : x ∉ l → list_index x l = Raise ValueError.
Proof.
  induction l as [|y l IH]; [done|].
  intros Hx. apply not_elem_of_cons in Hx as [Hy Hx].
  cbn. rewrite decide_False by done. by rewrite IH.
Qed.

Lemma list_index_lookup x l i : list_index x l = Ok i → l !! i = Some x.
Proof.
  revert i. induction l as [|y l IH]; intros i; [done|].
  cbn. case_decide as Hy; [by intros [= <-]; subst|].
  destruct (list_index x l) as [j|]; [|done].
  intros [= <-]. by apply IH.
Qed.

Lemma list_index_raises x l e : list_index x l = Raise e → e = ValueError ∧ x ∉ l.
Proof.
  induction l as [|y l IH]; [intros [= <-]; split; [done|apply not_elem_of_nil]|].
  cbn. case_decide as Hy; [done|].
  destruct (list_index x l) as [j|e'] eqn:E; [done|].
  intros [= <-]. destruct IH as [-> Hx]; [done|].
  split; [done|]. apply not_elem_of_cons. by split.
Qed.
End ListIndex.

Section ButtonsRemapperSpec.
Implicit Types (h : heap) (buttonmap action : list string)
  (actions : list (list string)) (self : ButtonsRemapper) (v : list bool).

Lemma np_array_fresh h v : (np_array h v).2 ∉ dom h.
Proof. apply is_fresh. Qed.

Lemma press_buttons_ok buttonmap action arr h v :
  h !! arr = Some v → length v = length buttonmap →
  Forall (λ b, b ∈ buttonmap) action →
  ∃ v', press_buttons buttonmap action arr h = (<[arr := v']> h, Ok ()) ∧
        ∀ i, v' !! i = (λ x, x || presses buttonmap action i) <$> v !! i.
Proof.
  revert h v. induction action as [|b action IH]; intros h v Hv Hlen Hin.
  - exists v. cbn. rewrite insert_id by done. split; [done|].
    intros i. destruct (v !! i) as [x|]; cbn; [|done]. by rewrite orb_false_r.
  - apply Forall_cons in Hin as [Hb Hin]. cbn [press_buttons].
    destruct (list_index_elem b buttonmap Hb) as (j & Hj & Hbj).
    rewrite Hj. unfold np_setitem. rewrite Hv. cbn [default from_option Datatypes.id].
    assert (j < length v) as Hjv.
    { rewrite Hlen. by eapply lookup_lt_Some. }
    rewrite decide_True by done. cbv beta iota zeta.
    destruct (IH (<[arr := <[j := true]> v]> h) (<[j := true]> v))
      as (v' & Hpress & Hlook);
      [by rewrite lookup_insert_eq|by rewrite length_insert|done|].
    exists v'. rewrite Hpress, insert_insert_eq. split; [done|].
    intros i. rewrite Hlook. unfold presses. cbn [existsb]. rewrite Hj.
    destruct (decide (j = i)) as [->|Hne].
    + rewrite list_lookup_insert_eq by done.
      destruct (lookup_lt_is_Some_2 v i Hjv) as [x ->]. cbn.
      by rewrite bool_decide_eq_true_2, orb_true_r.
    + rewrite list_lookup_insert_ne by done.
      by rewrite (bool_decide_eq_false_2 (j = i)) by done.
Qed.

Lemma press_buttons_raises buttonmap action arr h v :
  h !! arr = Some v → length v = length buttonmap →
  ¬ Forall (λ b, b ∈ buttonmap) action →
  ∃ h', press_buttons buttonmap action arr h = (h', Raise ValueError).
Proof.
  revert h v. induction action as [|b action IH]; intros h v Hv Hlen Hin.
  - by destruct Hin.
  - cbn [press_buttons].
    destruct (list_index b buttonmap) as [j|e] eqn:Hj.
    + unfold np_setitem. rewrite Hv. cbn [default from_option Datatypes.id].
      assert (j < length v) as Hjv.
      { rewrite Hlen. eapply lookup_lt_Some. by apply list_index_lookup. }
      rewrite decide_True by done. cbv beta iota zeta.
      eapply IH; [by rewrite lookup_insert_eq|by rewrite length_insert|].
      intros Hrest. apply Hin. constructor; [|done].
      eapply list_elem_of_lookup_2. by apply list_index_lookup.
    + apply list_index_raises in Hj as [-> _]. by eexists.
Qed.

Lemma press_vector_length buttonmap action :
  length (press_vector buttonmap action) = length buttonmap.
Proof. unfold press_vector. by rewrite length_fmap, length_seq. Qed.

Lemma press_vector_lookup buttonmap action i :
  i < length buttonmap →
  press_vector buttonmap action !! i = Some (presses buttonmap action i).
Proof.
  intros Hi. unfold press_vector.
  by rewrite list_lookup_fmap, lookup_seq_lt.
Qed.

(** Pressing the buttons of an action on an all-false vector gives its
    press vector. *)
Lemma pressed_is_press_vector buttonmap action v' :
  (∀ i, v' !! i = (λ x, x || presses buttonmap action i)
                    <$> replicate (length buttonmap) false !! i) →
  v' = press_vector buttonmap action.
Proof.
  intros Hv. apply list_eq. intros i. rewrite Hv.
  destruct (decide (i < length buttonmap)) as [Hi|Hi].
  - rewrite press_vector_lookup by done.
    by rewrite lookup_replicate_2.
  - rewrite (proj1 (lookup_replicate_None _ _ _)) by lia.
    symmetry. apply lookup_ge_None. rewrite press_vector_length. lia.
Qed.

(** The true entries of a press vector are exactly the buttons the
    action names. *)
Lemma press_vector_names buttonmap action b :
  Forall (λ b, b ∈ buttonmap) action →
  b ∈ action ↔
  ∃ i, press_vector buttonmap action !! i = Some true ∧
       buttonmap !! i = Some b.
Proof.
  intros Hin. split.
  - intros Hb.
    assert (b ∈ buttonmap) as Hbm by (by eapply Forall_forall in Hin).
    destruct (list_index_elem b buttonmap Hbm) as (i & Hi & Hbi).
    exists i. split; [|done].
    rewrite press_vector_lookup by (by eapply lookup_lt_Some).
    f_equal. unfold presses. apply existsb_exists.
    exists b. split; [by apply list_elem_of_In|].
    rewrite Hi. by apply bool_decide_eq_true.
  - intros (i & Hi & Hbi).
    rewrite press_vector_lookup in Hi by (by eapply lookup_lt_Some).
    injection Hi as Hi. unfold presses in Hi.
    apply existsb_exists in Hi as (b' & Hb'%list_elem_of_In & Hidx).
    destruct (list_index b' buttonmap) as [j|] eqn:Hj; [|done].
    apply bool_decide_eq_true in Hidx as ->.
    apply list_index_lookup in Hj. by simplify_eq.
Qed.
End ButtonsRemapperSpec.

Section ButtonsRemapperTable.
Implicit Types (h : heap) (buttonmap action : list string)
  (actions : list (list string)) (self : ButtonsRemapper) (v : list bool).

(** Construction over known buttons: one fresh array per action, holding
    its press vector; the arrays that existed before are untouched. *)
Lemma build_actions_ok buttonmap actions acc h :
  known_buttons buttonmap actions →
  ∃ h' locs,
    build_actions buttonmap actions acc h = (h', Ok (acc ++ locs)) ∧
    Forall2 (λ arr action, h' !! arr = Some (press_vector buttonmap action))
            locs actions ∧
    (∀ l, l ∈ dom h → h' !! l = h !! l).
Proof.
  revert acc h. induction actions as [|action actions IH]; intros acc h Hk.
  - exists h, []. cbn. rewrite app_nil_r. by repeat split.
  - apply Forall_cons in Hk as [Hact Hk]. cbn [build_actions].
    unfold np_array. set (l := fresh (dom h)).
    assert (l ∉ dom h) as Hl by apply is_fresh.
    destruct (press_buttons_ok buttonmap action l
                (<[l := replicate (length buttonmap) false]> h)
                (replicate (length buttonmap) false))
      as (v' & -> & Hv');
      [by rewrite lookup_insert_eq|by rewrite length_replicate|done|].
    apply pressed_is_press_vector in Hv' as ->.
    rewrite insert_insert_eq.
    destruct (IH (acc ++ [l]) (<[l := press_vector buttonmap action]> h) Hk)
      as (h' & locs & -> & Htab & Hold).
    exists h', (l :: locs). split; [by rewrite <- app_assoc|]. split.
    + constructor; [|done]. rewrite Hold by set_solver.
      by rewrite lookup_insert_eq.
    + intros l' Hl'. rewrite Hold by set_solver.
      rewrite lookup_insert_ne; [done|]. by intros ->.
Qed.

(** Construction over an unknown button stops with [list.index]'s
    ValueError. *)
Lemma build_actions_raises buttonmap actions acc h :
  ¬ known_buttons buttonmap actions →
  ∃ h', build_actions buttonmap actions acc h = (h', Raise ValueError).
Proof.
  revert acc h. induction actions as [|action actions IH]; intros acc h Hk.
  - destruct Hk. constructor.
  - cbn [build_actions]. unfold np_array. set (l := fresh (dom h)).
    destruct (decide (Forall (λ b, b ∈ buttonmap) action)) as [Hact|Hact].
    + destruct (press_buttons_ok buttonmap action l
                  (<[l := replicate (length buttonmap) false]> h)
                  (replicate (length buttonmap) false))
        as (v' & -> & _);
        [by rewrite lookup_insert_eq|by rewrite length_replicate|done|].
      apply IH. intros Hrest. apply Hk. by constructor.
    + destruct (press_buttons_raises buttonmap action l
                  (<[l := replicate (length buttonmap) false]> h)
                  (replicate (length buttonmap) false))
        as (h' & ->);
        [by rewrite lookup_insert_eq|by rewrite length_replicate|done|].
      by eexists.
Qed.

Lemma init_ok buttonmap actions h :
  known_buttons buttonmap actions →
  ∃ self,
    (ButtonsRemapper_init buttonmap actions h).2 = Ok self ∧
    length (_actions self) = length actions ∧
    action_space self = length actions ∧
    table_ok buttonmap actions self (ButtonsRemapper_init buttonmap actions h).1.
Proof.
  intros Hk. unfold ButtonsRemapper_init.
  destruct (build_actions_ok buttonmap actions [] h Hk)
    as (h' & locs & -> & Htab & _).
  cbn. eexists. split; [done|]. cbn.
  by rewrite (Forall2_length _ _ _ Htab).
Qed.

Lemma init_raises buttonmap actions h :
  ¬ known_buttons buttonmap actions →
  (ButtonsRemapper_init buttonmap actions h).2 = Raise ValueError.
Proof.
  intros Hk. unfold ButtonsRemapper_init.
  by destruct (build_actions_raises buttonmap actions [] h Hk) as (h' & ->).
Qed.

Lemma init_inv buttonmap actions h0 h self :
  ButtonsRemapper_init buttonmap actions h0 = (h, Ok self) →
  known_buttons buttonmap actions ∧ table_ok buttonmap actions self h.
Proof.
  intros Hinit.
  destruct (decide (known_buttons buttonmap actions)) as [Hk|Hk].
  - split; [done|].
    destruct (init_ok buttonmap actions h0 Hk) as (self' & Hself & _ & _ & Htab).
    rewrite Hinit in Hself, Htab. cbn in Hself, Htab. by simplify_eq.
  - apply (init_raises _ _ h0) in Hk. by rewrite Hinit in Hk.
Qed.

(** An array outside the heap is not one of the table's: writing to it
    leaves the table in place. *)
Lemma table_ok_insert buttonmap actions self h c w :
  c ∉ dom h →
  table_ok buttonmap actions self h →
  table_ok buttonmap actions self (<[c := w]> h).
Proof.
  intros Hc. unfold table_ok. intros Htab.
  eapply Forall2_impl; [exact Htab|]. intros l action Hl. cbv beta.
  rewrite lookup_insert_ne; [exact Hl|]. intros ->.
  apply Hc, elem_of_dom. eexists. exact Hl.
Qed.

Lemma action_copy buttonmap actions self h (a : Z) :
  table_ok buttonmap actions self h →
  (0 ≤ a < Z.of_nat (length actions))%Z →
  ∃ action c,
    actions !! Z.to_nat a = Some action ∧
    ButtonsRemapper_action self a h
      = (<[c := press_vector buttonmap action]> h, Ok c) ∧
    c ∉ dom h.
Proof.
  intros Htab Ha. unfold ButtonsRemapper_action, py_getitem, py_index.
  rewrite (Forall2_length _ _ _ Htab).
  destruct (Z.ltb_spec a 0) as [?|_]; [lia|].
  destruct (Z.leb_spec 0 a) as [_|?]; [|lia].
  destruct (Z.ltb_spec a (Z.of_nat (length actions))) as [_|?]; [|lia].
  cbn.
  destruct (lookup_lt_is_Some_2 actions (Z.to_nat a)) as [action Hact]; [lia|].
  destruct (Forall2_lookup_r _ _ _ _ _ Htab Hact) as (l & Hl & Hhl).
  rewrite Hl. unfold np_copy, np_array. rewrite Hhl. cbn.
  exists action, (fresh (dom h)). split; [done|]. split; [done|].
  apply is_fresh.
Qed.
End ButtonsRemapperTable.

Section ButtonsRemapperClaims.
Implicit Types (h : heap) (buttonmap action : list string)
  (actions : list (list string)) (self : ButtonsRemapper).

(** C5 as the specification states it fails: the exception raised on an
    unknown button is [list.index]'s ValueError, not an
    InvalidActionError. *)
Lemma ButtonsRemapper_init_not_InvalidActionError :
  (ButtonsRemapper_init SNES_BUTTONS [["A"]; ["C"]] ∅).2 = Raise ValueError ∧
  (ButtonsRemapper_init SNES_BUTTONS [["A"]; ["C"]] ∅).2
    ≠ Raise InvalidActionError.
Proof. split; [vm_compute; reflexivity|vm_compute; discriminate]. Qed.

(** C5, amended. Construction over a curated list that names a button
    absent from the native list fails with ValueError; over a list whose
    buttons are all native it succeeds with one table entry per curated
    action, in order, each holding that action's press vector, and an
    action space of that size. *)
Theorem ButtonsRemapper_init_fails_fast buttonmap actions h :
  (¬ known_buttons buttonmap actions →
     (ButtonsRemapper_init buttonmap actions h).2 = Raise ValueError) ∧
  (known_buttons buttonmap actions →
     ∃ self,
       (ButtonsRemapper_init buttonmap actions h).2 = Ok self ∧
       length (_actions self) = length actions ∧
       action_space self = length actions ∧
       table_ok buttonmap actions self
                (ButtonsRemapper_init buttonmap actions h).1).
Proof. split; [apply init_raises|apply init_ok]. Qed.

(** C6. On a constructed ButtonsRemapper and a valid action index [a]:
    the press vector of the [a]-th curated action has one entry per native
    button and its true entries are exactly the buttons that action names;
    in every heap where the table is in place, as it is after
    construction, [action(a)] returns a newly allocated array holding that
    vector, an array that is neither a table entry nor any array returned
    before; and whatever the caller then writes into the returned array,
    the table stays in place and a second call returns another array,
    holding the same vector again, while the first keeps what was written
    into it. *)
Theorem ButtonsRemapper_action_fresh_copy buttonmap actions h0 h1 self (a : Z) :
  ButtonsRemapper_init buttonmap actions h0 = (h1, Ok self) →
  (0 ≤ a < Z.of_nat (length actions))%Z →
  table_ok buttonmap actions self h1 ∧
  ∃ action,
    actions !! Z.to_nat a = Some action ∧
    length (press_vector buttonmap action) = length buttonmap ∧
    (∀ b, b ∈ action ↔
          (∃ i, press_vector buttonmap action !! i = Some true ∧
                buttonmap !! i = Some b)) ∧
    ∀ h, table_ok buttonmap actions self h →
      ∃ c,
        ButtonsRemapper_action self a h
          = (<[c := press_vector buttonmap action]> h, Ok c) ∧
        (c ∉ dom h) ∧
        ∀ w,
          let h' := <[c := w]> (<[c := press_vector buttonmap action]> h) in
          table_ok buttonmap actions self h' ∧
          ∃ c',
            ButtonsRemapper_action self a h'
              = (<[c' := press_vector buttonmap action]> h', Ok c') ∧
            c' ≠ c ∧
            (<[c' := press_vector buttonmap action]> h') !! c = Some w.
Proof.
  intros [Hk Htab]%init_inv Ha. split; [done|].
  destruct (lookup_lt_is_Some_2 actions (Z.to_nat a)) as [action Hact]; [lia|].
  exists action. split; [done|]. split; [apply press_vector_length|].
  split.
  { intros b. apply press_vector_names.
    eapply Forall_lookup_1 in Hk; done. }
  intros h Hh.
  destruct (action_copy buttonmap actions self h a Hh Ha)
    as (action' & c & Hact' & Hcall & Hc).
  assert (action' = action) as -> by congruence.
  exists c. split; [done|]. split; [done|].
  intros w. cbv zeta. rewrite insert_insert_eq.
  assert (table_ok buttonmap actions self (<[c := w]> h)) as Hh'
    by (by apply table_ok_insert).
  split; [done|].
  destruct (action_copy buttonmap actions self (<[c := w]> h) a Hh' Ha)
    as (action'' & c' & Hact'' & Hcall' & Hc').
  assert (action'' = action) as -> by congruence.
  assert (c' ≠ c) as Hne.
  { intros ->. apply Hc', elem_of_dom. rewrite lookup_insert_eq. by eexists. }
  exists c'. split; [done|]. split; [done|].
  rewrite lookup_insert_ne by done. by rewrite lookup_insert_eq.
Qed.
End ButtonsRemapperClaims.

(** ** Indexing facts *)

Section Indexing.
Context {A : Type}.
Implicit Types l : list A.

Lemma py_index_nat n (t : nat) : t < n → py_index n (Z.of_nat t) = Ok t.
Proof.
  intros Ht. unfold py_index.
  destruct (Z.ltb_spec (Z.of_nat t) 0) as [?|_]; [lia|].
  destruct (Z.leb_spec 0 (Z.of_nat t)) as [_|?]; [|lia].
  destruct (Z.ltb_spec (Z.of_nat t) (Z.of_nat n)) as [_|?]; [|lia].
  cbn. by rewrite Nat2Z.id.
Qed.

Lemma py_index_last n : 1 ≤ n → py_index n (-1) = Ok (n - 1).
Proof.
  intros Hn. unfold py_index. cbn.
  destruct (Z.leb_spec 0 (-1 + Z.of_nat n)) as [_|?]; [|lia].
  destruct (Z.ltb_spec (-1 + Z.of_nat n) (Z.of_nat n)) as [_|?]; [|lia].
  cbn. f_equal. lia.
Qed.

Lemma py_getitem_nat l (t : nat) x :
  l !! t = Some x → py_getitem l (Z.of_nat t) = Ok x.
Proof.
  intros Hx. unfold py_getitem.
  rewrite py_index_nat by (by eapply lookup_lt_Some). cbn. by rewrite Hx.
Qed.

Lemma py_getitem_last l x :
  l !! (length l - 1) = Some x → py_getitem l (-1) = Ok x.
Proof.
  intros Hx. unfold py_getitem.
  rewrite py_index_last by (apply lookup_lt_Some in Hx; lia).
  cbn. by rewrite Hx.
Qed.
End Indexing.

Section ArrayIndexing.
Lemma py_setitem_nat (a : list R) (t : nat) v :
  (t < length a)%nat → py_setitem a (Z.of_nat t) v = Ok (<[t := v]> a).
Proof. intros Ht. unfold py_setitem. by rewrite py_index_nat. Qed.

Lemma py_setitem_last (a : list R) v :
  (1 ≤ length a)%nat → py_setitem a (-1) v = Ok (<[(length a - 1)%nat := v]> a).
Proof. intros Ht. unfold py_setitem. by rewrite py_index_last. Qed.

Lemma getitem_total `{Inhabited A} (l : list A) (t : nat) :
  (t < length l)%nat → py_getitem l (Z.of_nat t) = Ok (l !!! t).
Proof. intros Ht. by apply py_getitem_nat, list_lookup_lookup_total_lt. Qed.

Lemma getitem_total_last `{Inhabited A} (l : list A) :
  (1 ≤ length l)%nat → py_getitem l (-1) = Ok (l !!! (length l - 1)%nat).
Proof.
  intros Ht. apply py_getitem_last, list_lookup_lookup_total_lt. lia.
Qed.
End ArrayIndexing.

(** ** generalized_advantage_estimation *)

Section GAESpec.
Open Scope R_scope.
Context (values rewards : list R) (terminals : list bool).
Context (lastvalue gamma lam : R).
Context (n : nat).
Hypothesis Hn : (1 ≤ n)%nat.
Hypothesis Hvalues : length values = n.
Hypothesis Hrewards : length rewards = n.
Hypothesis Hterminals : length terminals = n.

Local Abbreviation step := (gae_step values rewards terminals gamma lam).
Local Abbreviation loop := (gae_loop values rewards terminals gamma lam).

(** One iteration writes the TD error and the advantage at index [t]. *)
Lemma gae_step_writes (t : nat) delta advantages lastadv :
  (S t < n)%nat → length delta = n → length advantages = n →
  let dt := rewards !!! t + gamma * values !!! S t * b2r (negb (terminals !!! t)) - values !!! t in
  let a := dt + gamma * lam * b2r (negb (terminals !!! t)) * lastadv in
  step t (delta, advantages, lastadv)
    = Ok (<[t := dt]> delta, <[t := a]> advantages, a).
Proof.
  intros Ht Hd Ha. cbv zeta. unfold gae_step.
  rewrite (getitem_total rewards) by lia. cbn.
  replace (Z.of_nat t + 1)%Z with (Z.of_nat (S t)) by lia.
  rewrite (getitem_total values (S t)) by lia. cbn.
  rewrite (getitem_total terminals) by lia. cbn.
  rewrite (getitem_total values t) by lia. cbn.
  rewrite py_setitem_nat by lia. cbn.
  rewrite getitem_total by (rewrite length_insert; lia). cbn.
  rewrite list_lookup_total_insert_eq by lia.
  rewrite py_setitem_nat by lia. by cbn.
Qed.

(** The backward loop from index [m - 1] down to [0]: entries from [m] on
    are left alone, entries below [m] obey the recurrence. *)
Lemma gae_loop_inv (m : nat) delta advantages :
  (m < n)%nat → length delta = n → length advantages = n →
  ∃ delta' advantages' lastadv',
    loop m (delta, advantages, advantages !!! m)
      = Ok (delta', advantages', lastadv') ∧
    length delta' = n ∧ length advantages' = n ∧
    (∀ j : nat, (m ≤ j)%nat →
       delta' !!! j = delta !!! j ∧ advantages' !!! j = advantages !!! j) ∧
    (∀ t : nat, (t < m)%nat →
       delta' !!! t = rewards !!! t + gamma * values !!! S t * b2r (negb (terminals !!! t)) - values !!! t ∧
       advantages' !!! t
         = delta' !!! t + gamma * lam * b2r (negb (terminals !!! t)) * advantages' !!! S t).
Proof.
  revert delta advantages.
  induction m as [|t IH]; intros delta advantages Hm Hd Ha.
  - exists delta, advantages, (advantages !!! 0%nat). cbn.
    repeat split; try done. all: intros; lia.
  - cbn [gae_loop]. rewrite gae_step_writes by done. cbn.
    set (dt := rewards !!! t + gamma * values !!! S t * b2r (negb (terminals !!! t)) - values !!! t).
    set (a := dt + gamma * lam * b2r (negb (terminals !!! t)) * advantages !!! S t).
    destruct (IH (<[t := dt]> delta) (<[t := a]> advantages))
      as (delta' & adv' & last' & Hloop & Hd' & Ha' & Hkeep & Hrec);
      [lia|by rewrite length_insert|by rewrite length_insert|].
    rewrite list_lookup_total_insert_eq in Hloop by lia.
    exists delta', adv', last'. split; [done|]. split; [done|]. split; [done|].
    split.
    + intros j Hj. destruct (Hkeep j) as [-> ->]; [lia|].
      by rewrite !list_lookup_total_insert_ne by lia.
    + intros t' Ht'. destruct (decide (t' = t)) as [->|Hne].
      * destruct (Hkeep t) as [-> ->]; [lia|].
        destruct (Hkeep (S t)) as [_ ->]; [lia|].
        rewrite !list_lookup_total_insert_eq by lia.
        by rewrite list_lookup_total_insert_ne by lia.
      * apply Hrec. lia.
Qed.

(** The two arrays as the loop leaves them. *)
Lemma gae_arrays_spec :
  ∃ delta A,
    gae_arrays values rewards terminals lastvalue gamma lam = Ok (delta, A) ∧
    length delta = n ∧ length A = n ∧
    delta !!! (n - 1)%nat
      = rewards !!! (n - 1)%nat + gamma * lastvalue * b2r (negb (terminals !!! (n - 1)%nat))
        - values !!! (n - 1)%nat ∧
    A !!! (n - 1)%nat = delta !!! (n - 1)%nat ∧
    (∀ t : nat, (S t < n)%nat →
       delta !!! t = rewards !!! t + gamma * values !!! S t * b2r (negb (terminals !!! t)) - values !!! t ∧
       A !!! t = delta !!! t + gamma * lam * b2r (negb (terminals !!! t)) * A !!! S t).
Proof.
  unfold gae_arrays.
  rewrite (getitem_total_last rewards), (getitem_total_last terminals),
    (getitem_total_last values) by lia. cbn.
  rewrite Hvalues, Hrewards, Hterminals.
  set (dl := rewards !!! (n - 1)%nat + gamma * lastvalue * b2r (negb (terminals !!! (n - 1)%nat))
             - values !!! (n - 1)%nat).
  rewrite py_setitem_last by (rewrite length_replicate; lia). cbn.
  rewrite getitem_total_last by (rewrite length_insert, length_replicate; lia).
  cbn. rewrite length_insert, length_replicate.
  rewrite list_lookup_total_insert_eq by (rewrite length_replicate; lia).
  rewrite py_setitem_last by (rewrite length_replicate; lia). cbn.
  rewrite length_replicate.
  set (delta0 := <[(n - 1)%nat := dl]> (replicate n 0)).
  destruct (gae_loop_inv (n - 1) delta0 delta0)
    as (delta & A & last' & Hloop & Hd' & Ha' & Hkeep & Hrec);
    [lia|by unfold delta0; rewrite length_insert, length_replicate..|].
  assert (delta0 !!! (n - 1)%nat = dl) as Hdl.
  { unfold delta0. rewrite list_lookup_total_insert_eq; [done|].
    rewrite length_replicate. lia. }
  rewrite Hdl in Hloop. subst delta0 dl. rewrite Hloop. cbn.
  exists delta, A. split; [done|]. split; [done|]. split; [done|].
  destruct (Hkeep (n - 1)%nat) as [Hk1 Hk2]; [lia|].
  rewrite Hk1, Hk2, Hdl. split; [done|]. split; [done|].
  intros t Ht. apply Hrec. lia.
Qed.
End GAESpec.

Section GAEClaims.
Open Scope R_scope.
Implicit Types (values rewards : list R) (terminals : list bool).
Implicit Types (lastvalue gamma lam : R) (n t : nat).

Lemma b2r_negb (b : bool) : b2r (negb b) = 1 - b2r b.
Proof. destruct b; cbn; lra. Qed.

Lemma gae_of_arrays values rewards terminals lastvalue gamma lam delta A :
  gae_arrays values rewards terminals lastvalue gamma lam = Ok (delta, A) →
  generalized_advantage_estimation values rewards terminals lastvalue gamma lam
    = Ok (normalize A).
Proof. intros H. unfold generalized_advantage_estimation. by rewrite H. Qed.

(** C2. On a segment of [n >= 1] values, rewards and terminal flags the
    backward pass fills [delta] and the advantages [A] by the stated
    recurrence, started at the last index with the bootstrap value; the
    function returns [(A - mean(A)) / (std(A) + eps)] with [eps = 2^-23],
    the float32 machine epsilon; where the terminal flag is true the
    bootstrap and propagation terms vanish. *)
Theorem gae_recurrence values rewards terminals lastvalue gamma lam n :
  (1 ≤ n)%nat →
  length values = n → length rewards = n → length terminals = n →
  ∃ delta A,
    gae_arrays values rewards terminals lastvalue gamma lam = Ok (delta, A) ∧
    length delta = n ∧ length A = n ∧
    delta !!! (n - 1)%nat
      = rewards !!! (n - 1)%nat
        + gamma * lastvalue * (1 - b2r (terminals !!! (n - 1)%nat))
        - values !!! (n - 1)%nat ∧
    A !!! (n - 1)%nat = delta !!! (n - 1)%nat ∧
    (∀ t, (S t < n)%nat →
       delta !!! t
         = rewards !!! t + gamma * values !!! S t * (1 - b2r (terminals !!! t))
           - values !!! t ∧
       A !!! t
         = delta !!! t + gamma * lam * (1 - b2r (terminals !!! t)) * A !!! S t) ∧
    generalized_advantage_estimation values rewards terminals lastvalue gamma lam
      = Ok ((λ a, (a - mean A) / (np_std A + / 2 ^ 23)) <$> A) ∧
    (∀ t, (t < n)%nat → terminals !!! t = true →
       delta !!! t = rewards !!! t - values !!! t ∧ A !!! t = delta !!! t).
Proof.
  intros Hn Hv Hr Ht.
  destruct (gae_arrays_spec values rewards terminals lastvalue gamma lam n
              Hn Hv Hr Ht)
    as (delta & A & Harr & Hd & Ha & Hlast & Hlast' & Hrec).
  exists delta, A. rewrite <- !b2r_negb.
  split; [done|]. split; [done|]. split; [done|]. split; [done|].
  split; [done|]. split.
  { intros t Hlt. rewrite <- !b2r_negb. by apply Hrec. }
  split; [by apply gae_of_arrays in Harr|].
  intros t Hlt Hterm.
  destruct (decide (S t = n)) as [Heq|Hne].
  - replace t with (n - 1)%nat in * by lia.
    rewrite Hlast', Hlast, Hterm. cbn [b2r negb]. split; ring.
  - destruct (Hrec t) as [-> ->]; [lia|]. rewrite Hterm. cbn [b2r negb].
    split; ring.
Qed.

(** C3 as the specification states it fails: what the function returns
    is normalized, so on a one-step segment with TD error 1 it returns 0. *)
Lemma gae_lam_zero_returns_normalized :
  ∃ adv delta,
    generalized_advantage_estimation [0] [1] [false] 0 1 0 = Ok adv ∧
    gae_arrays [0] [1] [false] 0 1 0 = Ok (delta, delta) ∧
    delta !!! 0%nat = 1 ∧
    adv !!! 0%nat = 0 ∧
    adv !!! 0%nat ≠ delta !!! 0%nat.
Proof.
  destruct (gae_arrays_spec [0] [1] [false] 0 1 0 1)
    as (delta & A & Harr & Hd & Ha & Hlast & Hlast' & _); [done..|].
  destruct delta as [|d0 [|]]; try done.
  destruct A as [|a0 [|]]; try done.
  cbn in Hlast, Hlast'. subst a0.
  assert (d0 = 1) as -> by (rewrite Hlast; lra).
  exists (normalize [1]), [1].
  split; [by apply gae_of_arrays in Harr|]. split; [done|].
  split; [done|].
  assert (normalize [1] !!! 0%nat = 0) as ->; [|split; [done|cbn; lra]].
  unfold normalize, mean. cbn. lra.
Qed.

(** C3, amended. With [lam = 0] the advantages before normalization are
    the one-step TD errors, [V_last] standing for the next value at the
    final index; the function returns their normalization. *)
Theorem gae_lam_zero values rewards terminals lastvalue gamma n :
  (1 ≤ n)%nat →
  length values = n → length rewards = n → length terminals = n →
  ∃ delta,
    gae_arrays values rewards terminals lastvalue gamma 0 = Ok (delta, delta) ∧
    length delta = n ∧
    (∀ t, (t < n)%nat →
       delta !!! t
         = rewards !!! t
           + gamma * (if decide (S t = n) then lastvalue else values !!! S t)
                   * (1 - b2r (terminals !!! t))
           - values !!! t) ∧
    generalized_advantage_estimation values rewards terminals lastvalue gamma 0
      = Ok ((λ a, (a - mean delta) / (np_std delta + / 2 ^ 23)) <$> delta).
Proof.
  intros Hn Hv Hr Ht.
  destruct (gae_arrays_spec values rewards terminals lastvalue gamma 0 n
              Hn Hv Hr Ht)
    as (delta & A & Harr & Hd & Ha & Hlast & Hlast' & Hrec).
  assert (A = delta) as ->.
  { apply (list_eq_same_length _ _ n); [done..|].
    intros t x y Hlt Hx Hy.
    apply list_lookup_total_correct in Hx, Hy. subst x y.
    destruct (decide (S t = n)) as [Heq|Hne].
    - by replace t with (n - 1)%nat by lia.
    - destruct (Hrec t) as [_ ->]; [lia|]. ring. }
  exists delta. split; [done|]. split; [done|]. split.
  - intros t Hlt. rewrite <- b2r_negb. case_decide as Heq.
    + by replace t with (n - 1)%nat by lia.
    + apply Hrec. lia.
  - by apply gae_of_arrays in Harr.
Qed.
End GAEClaims.

Section GAETerminal.
Open Scope R_scope.
Implicit Types (values rewards : list R) (terminals : list bool).
Implicit Types (lastvalue gamma lam : R) (n t : nat).

(** With a terminal flag at the last index the bootstrap value is
    multiplied by zero: the arrays do not depend on it. *)
Lemma gae_arrays_terminal values rewards terminals lastvalue lastvalue'
    gamma lam :
  (1 ≤ length terminals)%nat →
  terminals !!! (length terminals - 1)%nat = true →
  gae_arrays values rewards terminals lastvalue gamma lam
    = gae_arrays values rewards terminals lastvalue' gamma lam.
Proof.
  intros Hn Hlast. unfold gae_arrays.
  destruct (py_getitem rewards (-1)) as [r|]; [cbn|done].
  rewrite (getitem_total_last terminals) by done. cbn.
  destruct (py_getitem values (-1)) as [v|]; [cbn|done].
  rewrite Hlast. cbn [negb b2r]. by rewrite !Rmult_0_r.
Qed.

(** C4 as the specification states it fails: on a two-step segment ending
    in a terminal, with zero values and the only reward at the end, the
    two returned advantages have opposite signs, so they are not all equal
    to one value. *)
Lemma gae_terminal_segment_advantages_differ :
  ∃ adv,
    generalized_advantage_estimation [0; 0] [0; 1] [false; true] 0 1 (1 / 2)
      = Ok adv ∧
    adv !!! 0%nat < 0 ∧ 0 < adv !!! 1%nat ∧
    ¬ ∃ c, ∀ t, (t < 2)%nat → adv !!! t = c.
Proof.
  destruct (gae_arrays_spec [0; 0] [0; 1] [false; true] 0 1 (1 / 2) 2)
    as (delta & A & Harr & Hd & Ha & Hlast & Hlast' & Hrec); [lia|done..|].
  destruct (Hrec 0%nat) as [Hd0 Ha0]; [lia|].
  destruct delta as [|d0 [|d1 [|]]]; try done.
  destruct A as [|a0 [|a1 [|]]]; try done.
  cbn in Hlast, Hlast', Hd0, Ha0.
  assert (a1 = 1) as -> by lra. assert (a0 = 1 / 2) as -> by lra.
  apply gae_of_arrays in Harr. eexists. split; [exact Harr|].
  unfold normalize. cbn.
  assert (mean [1 / 2; 1] = 3 / 4) as -> by (unfold mean; cbn; lra).
  assert (0 < / (np_std [1 / 2; 1] + eps)) as Hpos.
  { apply Rinv_0_lt_compat. unfold np_std, eps.
    pose proof (sqrt_pos (mean ((λ x, Rabs (x - mean [1 / 2; 1]) ^ 2)
                                  <$> [1 / 2; 1]))).
    assert (0 < / 2 ^ 23) by (apply Rinv_0_lt_compat; lra). lra. }
  unfold Rdiv in *.
  set (i := / (np_std _ + eps)) in *.
  split; [nra|]. split; [nra|].
  intros [c Hc]. pose proof (Hc 0%nat) as H0. pose proof (Hc 1%nat) as H1.
  cbn in H0, H1.
  specialize (H0 ltac:(lia)). specialize (H1 ltac:(lia)). nra.
Qed.

(** C4, amended. On a segment whose only terminal flag is at the last
    index and whose rewards are zero before it, the result does not depend
    on [V_last]; before normalization the last advantage is the terminal
    step's delta [r - V] and every earlier one is
    [gamma * V[t+1] - V[t] + gamma * lam * A[t+1]]; when moreover all
    values are zero, every advantage before normalization is the terminal
    delta discounted by [gamma * lam] per step. *)
Theorem gae_terminal_segment values rewards terminals lastvalue lastvalue'
    gamma lam n :
  (1 ≤ n)%nat →
  length values = n → length rewards = n → length terminals = n →
  (∀ t, (t < n)%nat → terminals !!! t = bool_decide (S t = n)) →
  (∀ t, (S t < n)%nat → rewards !!! t = 0) →
  ∃ delta A,
    gae_arrays values rewards terminals lastvalue gamma lam = Ok (delta, A) ∧
    generalized_advantage_estimation values rewards terminals lastvalue gamma lam
      = Ok (normalize A) ∧
    generalized_advantage_estimation values rewards terminals lastvalue' gamma lam
      = Ok (normalize A) ∧
    length A = n ∧
    A !!! (n - 1)%nat = rewards !!! (n - 1)%nat - values !!! (n - 1)%nat ∧
    (∀ t, (S t < n)%nat →
       A !!! t = gamma * values !!! S t - values !!! t + gamma * lam * A !!! S t) ∧
    ((∀ t, (t < n)%nat → values !!! t = 0) →
     ∀ t, (t < n)%nat →
       A !!! t = (gamma * lam) ^ (n - 1 - t)
                 * (rewards !!! (n - 1)%nat - values !!! (n - 1)%nat)).
Proof.
  intros Hn Hv Hr Ht Hterm Hrew.
  destruct (gae_arrays_spec values rewards terminals lastvalue gamma lam n
              Hn Hv Hr Ht)
    as (delta & A & Harr & Hd & Ha & Hlast & Hlast' & Hrec).
  assert (terminals !!! (n - 1)%nat = true) as Htl.
  { rewrite Hterm by lia. apply bool_decide_eq_true. lia. }
  assert (A !!! (n - 1)%nat = rewards !!! (n - 1)%nat - values !!! (n - 1)%nat)
    as Hterminal.
  { rewrite Hlast', Hlast, Htl. cbn [negb b2r]. ring. }
  assert (∀ t, (S t < n)%nat →
    A !!! t = gamma * values !!! S t - values !!! t + gamma * lam * A !!! S t)
    as Hearlier.
  { intros t Hlt. destruct (Hrec t Hlt) as [Hdt ->]. rewrite Hdt.
    rewrite Hterm, Hrew by lia.
    rewrite bool_decide_eq_false_2 by lia. cbn [negb b2r]. ring. }
  exists delta, A. split; [done|].
  split; [by apply gae_of_arrays in Harr|]. split.
  { rewrite (gae_arrays_terminal _ _ _ lastvalue lastvalue') in Harr
      by (by rewrite ?Ht).
    by apply gae_of_arrays in Harr. }
  split; [done|]. split; [done|]. split; [done|].
  intros Hzero t Hlt.
  remember (n - 1 - t)%nat as j eqn:Hj. revert t Hlt Hj.
  induction j as [|j IH]; intros t Hlt Hj.
  - replace t with (n - 1)%nat by lia.
    rewrite Hterminal. cbn. ring.
  - rewrite Hearlier by lia. rewrite (IH (S t)) by lia.
    rewrite (Hzero t), (Hzero (S t)) by lia. cbn. ring.
Qed.
End GAETerminal.

(** ** The value loss of ppostep *)

Section ValueLossSpec.
Open Scope R_scope.
Implicit Types (newvalues values advantages : list R) (epscut valuecoef : R).

Lemma torch_binop_same f (a b : list R) :
  length a = length b → torch_binop f a b = Ok (zip_with f a b).
Proof. intros H. unfold torch_binop. by rewrite decide_True. Qed.

(** An element-wise result, read index by index. *)
Lemma zip_with_indexed (f : R → R → R) (a b : list R) (n : nat) :
  length a = n → length b = n →
  zip_with f a b = (λ i : nat, f (a !!! i) (b !!! i)) <$> seq 0 n.
Proof.
  intros Ha Hb. apply (list_eq_same_length _ _ n).
  - by rewrite length_fmap, length_seq.
  - rewrite length_zip_with. lia.
  - intros i x y Hi Hx Hy.
    rewrite list_lookup_fmap, lookup_seq_lt in Hy by done.
    apply lookup_zip_with_Some in Hx as (u & v & -> & Hu & Hv).
    apply list_lookup_total_correct in Hu, Hv. cbn in Hy. by simplify_eq.
Qed.

Lemma fmap_indexed (f : R → R) (g : nat → R) (n : nat) :
  f <$> (g <$> seq 0 n) = (λ i, f (g i)) <$> seq 0 n.
Proof. by rewrite <- list_fmap_compose. Qed.

(** What the code's clipping computes, entry by entry: the difference to
    the old value is bounded from below only. *)
Lemma ppostep_newvalues_clipped_indexed newvalues values epscut (n : nat) :
  length newvalues = n → length values = n →
  ppostep_newvalues_clipped newvalues values epscut
    = Ok ((λ i : nat, values !!! i
                      + Rmax (newvalues !!! i - values !!! i) epscut)
            <$> seq 0 n).
Proof.
  intros Hnv Hv. unfold ppostep_newvalues_clipped.
  rewrite torch_binop_same by lia. cbn.
  rewrite (zip_with_indexed _ _ _ n) by done.
  unfold torch_clamp. rewrite fmap_indexed.
  rewrite torch_binop_same by (by rewrite length_fmap, length_seq).
  f_equal. apply (list_eq_same_length _ _ n).
  - by rewrite length_fmap, length_seq.
  - rewrite length_zip_with, length_fmap, length_seq. lia.
  - intros i x y Hi Hx Hy.
    rewrite list_lookup_fmap, lookup_seq_lt in Hy by done.
    apply lookup_zip_with_Some in Hx as (u & v & -> & Hu & Hv').
    rewrite list_lookup_fmap, lookup_seq_lt in Hv' by done.
    apply list_lookup_total_correct in Hu. cbn in Hy, Hv'. by simplify_eq.
Qed.

(** C1 as the specification states it fails. First input: the clipping
    is inactive and the code returns half of the stated loss. Second
    input: new and old value coincide, the stated loss is zero, the code's
    is not. *)
Lemma ppostep_valueloss_not_as_stated :
  (ppostep_valueloss [1 / 2] [0] [0] (1 / 2) 1 = Ok (1 / 8) ∧
   spec_valueloss [1 / 2] [0] [0] (1 / 2) 1 = 1 / 4) ∧
  (ppostep_valueloss [0] [0] [0] (1 / 2) 1 = Ok (1 / 8) ∧
   spec_valueloss [0] [0] [0] (1 / 2) 1 = 0) ∧
  ppostep_valueloss [1 / 2] [0] [0] (1 / 2) 1
    ≠ Ok (spec_valueloss [1 / 2] [0] [0] (1 / 2) 1).
Proof.
  assert (ppostep_valueloss [1 / 2] [0] [0] (1 / 2) 1 = Ok (1 / 8) ∧
          spec_valueloss [1 / 2] [0] [0] (1 / 2) 1 = 1 / 4) as Hfirst;
    [|split; [exact Hfirst|split;
        [|destruct Hfirst as [-> ->]; intros [= H]; lra]]].
  all: repeat split.
  - unfold ppostep_valueloss, ppostep_returns, ppostep_newvalues_clipped.
    repeat (rewrite torch_binop_same by done; cbn).
    f_equal. unfold mean, Rmax. cbn.
    repeat destruct Rle_dec; lra.
  - unfold spec_valueloss, spec_term, clamp_to, mean, Rmax, Rmin. cbn.
    repeat destruct Rle_dec; lra.
  - unfold ppostep_valueloss, ppostep_returns, ppostep_newvalues_clipped.
    repeat (rewrite torch_binop_same by done; cbn).
    f_equal. unfold mean, Rmax. cbn.
    repeat destruct Rle_dec; lra.
  - unfold spec_valueloss, spec_term, clamp_to, mean, Rmax, Rmin. cbn.
    repeat destruct Rle_dec; lra.
Qed.

(** C1, amended. On a minibatch of [n] entries the value loss is
    [valuecoef] times one half times the mean of the element-wise maximum
    of the squared error of the new value and the squared error of the
    clipped new value that ppostep computes, both against
    [advantage + old value]. *)
Theorem ppostep_valueloss_half_mean_max
    newvalues values advantages epscut valuecoef (n : nat) :
  length newvalues = n → length values = n → length advantages = n →
  ∃ clipped,
    ppostep_newvalues_clipped newvalues values epscut = Ok clipped ∧
    length clipped = n ∧
    ppostep_valueloss newvalues values advantages epscut valuecoef
      = Ok (valuecoef * (1 / 2) *
            mean ((λ i : nat,
                     Rmax ((newvalues !!! i
                            - (advantages !!! i + values !!! i)) ^ 2)
                          ((clipped !!! i
                            - (advantages !!! i + values !!! i)) ^ 2))
                    <$> seq 0 n)).
Proof.
  intros Hnv Hv Ha.
  pose proof (ppostep_newvalues_clipped_indexed newvalues values epscut n
                Hnv Hv) as Hclip.
  eexists. split; [exact Hclip|].
  split; [by rewrite length_fmap, length_seq|].
  set (clipped := _ <$> seq 0 n) in *.
  assert (length clipped = n) as Hc
    by (by unfold clipped; rewrite length_fmap, length_seq).
  unfold ppostep_valueloss, ppostep_returns. rewrite Hclip.
  rewrite torch_binop_same by lia. cbn.
  assert (length (zip_with Rplus advantages values) = n) as Hret
    by (rewrite length_zip_with; lia).
  rewrite !torch_binop_same by lia. cbn.
  rewrite torch_binop_same by (unfold square; rewrite !length_fmap, !length_zip_with; lia).
  cbn. do 2 f_equal; [lra|]. f_equal.
  apply (list_eq_same_length _ _ n).
  - by rewrite length_fmap, length_seq.
  - unfold square. rewrite length_zip_with, !length_fmap, !length_zip_with. lia.
  - intros i x y Hi Hx Hy.
    rewrite list_lookup_fmap, lookup_seq_lt in Hy by done.
    cbn in Hy. injection Hy as <-.
    apply lookup_zip_with_Some in Hx as (u & v & -> & Hu & Hv').
    unfold square in Hu, Hv'. rewrite list_lookup_fmap in Hu, Hv'.
    apply fmap_Some in Hu as (u' & Hu & ->).
    apply fmap_Some in Hv' as (v' & Hv' & ->).
    apply lookup_zip_with_Some in Hu as (a & b & -> & Ha1 & Hb1).
    apply lookup_zip_with_Some in Hv' as (a' & b' & -> & Ha2 & Hb2).
    assert (b' = b) as -> by congruence.
    apply lookup_zip_with_Some in Hb1 as (p & q & -> & Hp & Hq).
    apply list_lookup_total_correct in Ha1, Ha2, Hp, Hq.
    by subst.
Qed.
End ValueLossSpec.

(** ** The statements on concrete inputs *)

Section Witnesses.
Open Scope R_scope.

Lemma ppostep_valueloss_half_mean_max_witness :
  length [1 / 2; 0] = 2%nat ∧
  ∃ clipped loss,
    ppostep_newvalues_clipped [1 / 2; 0] [0; 0] (1 / 2) = Ok clipped ∧
    ppostep_valueloss [1 / 2; 0] [0; 0] [0; 0] (1 / 2) 1 = Ok loss.
Proof.
  split; [reflexivity|].
  destruct (ppostep_valueloss_half_mean_max
              [1 / 2; 0] [0; 0] [0; 0] (1 / 2) 1 2)
    as (clipped & Hclip & _ & Hloss); [reflexivity..|].
  exists clipped. eexists. split; [exact Hclip|exact Hloss].
Defined.

Lemma gae_recurrence_witness :
  (1 ≤ 2)%nat ∧ length [0; 0] = 2%nat ∧
  ∃ delta A,
    gae_arrays [0; 0] [0; 1] [false; true] 0 1 (1 / 2) = Ok (delta, A) ∧
    A !!! 1%nat = delta !!! 1%nat.
Proof.
  split; [lia|]. split; [reflexivity|].
  destruct (gae_recurrence [0; 0] [0; 1] [false; true] 0 1 (1 / 2) 2)
    as (delta & A & Harr & _ & _ & _ & Hlast & _);
    [lia|reflexivity..|].
  exists delta, A. split; [exact Harr|exact Hlast].
Defined.

Lemma gae_lam_zero_witness :
  (1 ≤ 2)%nat ∧ length [0; 0] = 2%nat ∧
  ∃ delta,
    gae_arrays [0; 0] [1; 1] [false; false] 0 1 0 = Ok (delta, delta) ∧
    length delta = 2%nat.
Proof.
  split; [lia|]. split; [reflexivity|].
  destruct (gae_lam_zero [0; 0] [1; 1] [false; false] 0 1 2)
    as (delta & Harr & Hlen & _); [lia|reflexivity..|].
  exists delta. split; [exact Harr|exact Hlen].
Defined.

Lemma gae_terminal_segment_witness :
  (1 ≤ 2)%nat ∧
  (∀ t, (t < 2)%nat → [false; true] !!! t = bool_decide (S t = 2%nat)) ∧
  (∀ t, (S t < 2)%nat → [0; 1] !!! t = 0) ∧
  ∃ A,
    generalized_advantage_estimation [0; 0] [0; 1] [false; true] 0 1 (1 / 2)
      = Ok (normalize A) ∧
    generalized_advantage_estimation [0; 0] [0; 1] [false; true] 7 1 (1 / 2)
      = Ok (normalize A).
Proof.
  assert (∀ t, (t < 2)%nat → [false; true] !!! t = bool_decide (S t = 2%nat))
    as Hterm.
  { intros [|[|t]] Ht; [reflexivity..|lia]. }
  assert (∀ t, (S t < 2)%nat → [0; 1] !!! t = 0) as Hrew.
  { intros [|t] Ht; [reflexivity|lia]. }
  split; [lia|]. split; [exact Hterm|]. split; [exact Hrew|].
  destruct (gae_terminal_segment [0; 0] [0; 1] [false; true] 0 7 1 (1 / 2) 2)
    as (delta & A & _ & H0 & H7 & _);
    [lia|reflexivity..|exact Hterm|exact Hrew|].
  exists A. split; [exact H0|exact H7].
Defined.
End Witnesses.

Section EnvWitnesses.
Lemma ButtonsRemapper_init_fails_fast_witness :
  known_buttons SNES_BUTTONS Gradius_actions ∧
  ¬ known_buttons SNES_BUTTONS [["A"]; ["C"]] ∧
  (ButtonsRemapper_init SNES_BUTTONS [["A"]; ["C"]] ∅).2 = Raise ValueError ∧
  ∃ self,
    (ButtonsRemapper_init SNES_BUTTONS Gradius_actions ∅).2 = Ok self ∧
    action_space self = 16.
Proof.
  assert (known_buttons SNES_BUTTONS Gradius_actions) as Hk.
  { unfold known_buttons. apply (bool_decide_unpack _). vm_compute. exact I. }
  assert (¬ known_buttons SNES_BUTTONS [["A"]; ["C"]]) as Hnk.
  { unfold known_buttons. apply (bool_decide_unpack _).
    vm_compute. exact I. }
  split; [exact Hk|]. split; [exact Hnk|].
  destruct (ButtonsRemapper_init_fails_fast SNES_BUTTONS [["A"]; ["C"]] ∅)
    as [Hfail _].
  split; [exact (Hfail Hnk)|].
  destruct (ButtonsRemapper_init_fails_fast SNES_BUTTONS Gradius_actions ∅)
    as [_ Hok].
  destruct (Hok Hk) as (self & Hself & _ & Hspace & _).
  exists self. split; [exact Hself|exact Hspace].
Defined.

Lemma ButtonsRemapper_action_fresh_copy_witness :
  (0 ≤ 4 < Z.of_nat (length Gradius_actions))%Z ∧
  ∃ h1 self,
    ButtonsRemapper_init SNES_BUTTONS Gradius_actions ∅ = (h1, Ok self) ∧
    table_ok SNES_BUTTONS Gradius_actions self h1.
Proof.
  assert (0 ≤ 4 < Z.of_nat (length Gradius_actions))%Z as Ha
    by (cbn; lia).
  split; [exact Ha|].
  destruct (ButtonsRemapper_init SNES_BUTTONS Gradius_actions ∅)
    as [h1 [self|e]] eqn:Hinit; [|vm_compute in Hinit; discriminate].
  exists h1, self. split; [reflexivity|].
  exact (proj1 (ButtonsRemapper_action_fresh_copy
                  SNES_BUTTONS Gradius_actions ∅ h1 self 4 Hinit Ha)).
Defined.

Lemma SkipFrames_step_repeats_witness :
  (1 ≤ 4)%Z ∧
  ∃ m outs e' lst,
    (1 ≤ m ≤ 4)%nat ∧
    inner_steps fake_step m 2 true = (outs, e') ∧
    last outs = Some lst ∧
    SkipFrames_step fake_step Z.add 0%Z (mkSkipFrames 2 4) true
      = (mkSkipFrames e' 4,
         (Some lst.1.1.1, foldl Z.add 0%Z (out_reward <$> outs),
          Some (out_done lst), Some lst.2)).
Proof.
  split; [lia|].
  destruct (SkipFrames_step_repeats fake_step Z.add 0%Z (mkSkipFrames 2 4) true)
    as (m & outs & e' & lst & Hm & Hrun & Hlast & Hstep & _); [cbn; lia|].
  exists m, outs, e', lst. cbn in Hm.
  split; [exact Hm|]. split; [exact Hrun|]. split; [exact Hlast|exact Hstep].
Defined.

Lemma SkipFrames_step_nonpositive_witness :
  (0 ≤ 0)%Z ∧
  SkipFrames_step fake_step Z.add 0%Z (mkSkipFrames 2 0) true
    = (mkSkipFrames 2 0, (None, 0%Z, None, None)).
Proof.
  split; [lia|].
  apply (SkipFrames_step_nonpositive fake_step Z.add 0%Z (mkSkipFrames 2 0) true).
  cbn. lia.
Defined.

Lemma LazyFrames_is_eager_concatenation_witness :
  [fake_frame 1; fake_frame 2] ≠ [] ∧
  ∃ out,
    np_concatenate2 [fake_frame 1; fake_frame 2] = Ok out ∧
    LazyFrames_run (λ (_ : ()) (p : nat), p) (LazyFrames_init [fake_frame 1; fake_frame 2])
                   [Len; AsArray None; GetItem 0; AsArray None]
      = eager_access (λ (_ : ()) (p : nat), p) out
          <$> [Len; AsArray None; GetItem 0%Z; AsArray None].
Proof.
  split; [discriminate|].
  destruct (LazyFrames_is_eager_concatenation (λ (_ : ()) (p : nat), p)
              [fake_frame 1; fake_frame 2]
              [Len; AsArray None; GetItem 0%Z; AsArray None])
    as (out & Hcat & _ & _ & Hrun).
  - discriminate.
  - intros f g Hf Hg.
    apply list_elem_of_In in Hf, Hg. cbn in Hf, Hg.
    destruct Hf as [<-|[<-|[]]], Hg as [<-|[<-|[]]]; reflexivity.
  - exists out. split; [exact Hcat|exact Hrun].
Defined.

Lemma frame_window_always_full_witness :
  1 ≤ 4 ∧
  (∀ i lf,
     (FrameStack_calls fake_frame_reset fake_frame_step
        (FrameStack_init 0 4) [Step true; Reset; Step true; Reset]).2 !! i
       = Some (Ok lf) →
     ∃ fr, lf = LazyFrames_init fr ∧ length fr = 4) ∧
  ∃ g xs,
    generator_take fake_reset fake_real_step fake_prepro fake_select_action
                   (Some 3) 4 7 (Fresh 0 0) = Ok (g, xs) ∧
    Forall (full_windows 4) xs.
Proof.
  split; [lia|].
  destruct (frame_window_always_full fake_frame_reset fake_frame_step
              fake_reset fake_real_step fake_prepro fake_select_action (Some 3) 4
              0 4 [Step true; Reset; Step true; Reset] 0 0 7)
    as [(_ & Hwin & _) (g & xs & Htake & _ & Hall & _)]; [lia|].
  split; [exact Hwin|].
  exists g, xs. split; [exact Htake|exact Hall].
Defined.
End EnvWitnesses.

(* ================================================================= *)
(** * Part III. Further properties of the two modules                 *)
(* ================================================================= *)

(** ** FrameStack: the window along a run of steps *)

Section FrameStackSteps.
Context {Env Action Reward Info Pixel : Type}.
Context (env_reset : Env → Env * ndarray3 Pixel).
Context (env_step :
  Env → Action → Env * (ndarray3 Pixel * Reward * bool * Info)).

Local Abbreviation fs_call := (FrameStack_call env_reset env_step).
Local Abbreviation fs_calls := (FrameStack_calls env_reset env_step).
Local Abbreviation obs_of := (step_observations env_step).
Implicit Types self : FrameStack Env Pixel.

Lemma step_call self (a : Action) :
  fs_call self (Step a)
    = ({| fs_env := (env_step (fs_env self) a).1;
          k := k self;
          frames := deque_append (k self) (frames self)
                      (env_step (fs_env self) a).2.1.1.1 |},
       if decide (k self ≤ S (length (frames self)))
       then Ok (LazyFrames_init
                  (deque_append (k self) (frames self)
                     (env_step (fs_env self) a).2.1.1.1))
       else Raise AssertionError).
Proof.
  cbn. unfold FrameStack_step.
  destruct (env_step (fs_env self) a) as [e [[[ob r] d] i]]. cbn.
  unfold _get_ob. cbn. rewrite deque_append_length.
  destruct (decide (k self ≤ S (length (frames self)))).
  - by rewrite decide_True by lia.
  - by rewrite decide_False by lia.
Qed.

(** The [i]-th of a run of steps: it succeeds once the deque has filled
    up, and then hands out the last [k] frames seen. *)
Lemma calls_steps self (actions : list Action) (i : nat) :
  bounded self → i < length actions →
  (fs_calls self (Step <$> actions)).2 !! i
    = Some (if decide (k self ≤ length (frames self) + S i)
            then Ok (LazyFrames_init
                       (drop (length (frames self) + S i - k self)
                             (frames self
                              ++ take (S i) (obs_of (fs_env self) actions))))
            else Raise AssertionError).
Proof.
  revert self i. induction actions as [|a actions IH]; intros self i Hb Hi;
    [simpl in Hi; lia|].
  rewrite fmap_cons, calls_cons.
  pose proof (call_bounded env_reset env_step self (Step a) Hb) as Hb1.
  rewrite step_call in *. cbn [fst snd] in *.
  cbn [step_observations].
  destruct (env_step (fs_env self) a) as [e [[[ob r] d] info]] eqn:E.
  cbn [fst snd] in *. unfold bounded in Hb.
  destruct i as [|i].
  - cbn [lookup list_lookup take]. f_equal. unfold deque_append.
    rewrite length_app. cbn [length].
    by replace (length (frames self) + 1) with (S (length (frames self))) by lia.
  - cbn [lookup list_lookup]. rewrite IH by (done || (simpl in Hi; lia)).
    cbn [k frames fs_env]. rewrite deque_append_length. f_equal.
    unfold deque_append. rewrite length_app. cbn [length].
    destruct (decide (k self ≤ length (frames self) + S (S i))) as [Hk|Hk].
    + rewrite decide_True by lia. do 2 f_equal.
      rewrite <- drop_app_le by (rewrite length_app; cbn; lia).
      rewrite drop_drop, <- app_assoc. cbn [take app]. f_equal. lia.
    + by rewrite decide_False by lia.
Qed.
End FrameStackSteps.

Section FrameStackExtras.
Context {Env Action Reward Info Pixel : Type}.
Context (env_reset : Env → Env * ndarray3 Pixel).
Context (env_step :
  Env → Action → Env * (ndarray3 Pixel * Reward * bool * Info)).

Local Abbreviation fs_call := (FrameStack_call env_reset env_step).
Local Abbreviation fs_calls := (FrameStack_calls env_reset env_step).
Local Abbreviation obs_of := (step_observations env_step).
Implicit Types self : FrameStack Env Pixel.

(** X1. After a reset, the [j]-th following step hands out the last [k]
    frames of the sequence made of [k] copies of the reset frame followed
    by the frames of the steps so far: the oldest frame leaves as each new
    one enters. *)
Theorem FrameStack_window_slides (env : Env) (k : nat)
    (actions : list Action) (j : nat) :
  j < length actions →
  (fs_calls (FrameStack_init env k) (Reset :: (Step <$> actions))).2 !! S j
    = Some (Ok (LazyFrames_init
         (drop (S j)
               (replicate k (env_reset env).2
                ++ take (S j) (obs_of (env_reset env).1 actions))))).
Proof.
  intros Hj. rewrite calls_cons. cbn [lookup list_lookup snd].
  assert (bounded (FrameStack_init env k : FrameStack Env Pixel)) as Hb
    by (unfold bounded; cbn; lia).
  destruct (reset_window env_reset env_step _ Hb) as [_ Hfilled].
  pose proof (call_k env_reset env_step (FrameStack_init env k) Reset) as Hk.
  set (self := (fs_call (FrameStack_init env k) Reset).1) in *.
  assert (frames self = replicate k (env_reset env).2 ∧
          fs_env self = (env_reset env).1) as [Hfr He].
  { unfold self, FrameStack_call, FrameStack_reset, FrameStack_init.
    simpl. destruct (env_reset env) as [e ob]. simpl.
    by rewrite deque_fill_full by (simpl; lia). }
  etrans; [apply (calls_steps env_reset env_step self actions j);
           [unfold bounded; rewrite Hfilled; lia|done]|].
  unfold filled in Hfilled. cbn in Hk. rewrite Hfilled, Hk, He, Hfr.
  rewrite decide_True by lia. do 3 f_equal.
  by replace (k + S j - k) with (S j) by lia.
Qed.

(** X2. On a new FrameStack that was never reset, the [i]-th step (from
    zero) raises AssertionError while fewer than [k] steps were made, and
    from then on hands out the frames of the last [k] steps. *)
Theorem FrameStack_steps_before_reset (env : Env) (k : nat)
    (actions : list Action) (i : nat) :
  i < length actions →
  (fs_calls (FrameStack_init env k) (Step <$> actions)).2 !! i
    = Some (if decide (k ≤ S i)
            then Ok (LazyFrames_init
                       (drop (S i - k) (take (S i) (obs_of env actions))))
            else Raise AssertionError).
Proof.
  intros Hi.
  rewrite (calls_steps env_reset env_step (FrameStack_init env k) actions i)
    by (done || (unfold bounded; cbn; lia)).
  by cbn.
Qed.
End FrameStackExtras.

(** ** LazyFrames and FrameStack: failures and shapes *)

Section LazyFramesFailure.
Context {Pixel Dtype : Type} (cast : Dtype → Pixel → Pixel).

Lemma access_failed (frames : list (ndarray3 Pixel)) e (op : access Dtype) :
  np_concatenate2 frames = Raise e →
  LazyFrames_access cast (LazyFrames_init frames) op
    = (LazyFrames_init frames, failed_access e op).
Proof.
  intros Hcat.
  destruct op as [[dt|]| |i]; cbn;
    unfold LazyFrames_array, LazyFrames_len, LazyFrames_getitem, _force;
    cbn; by rewrite Hcat.
Qed.

Lemma run_failed (frames : list (ndarray3 Pixel)) e (ops : list (access Dtype)) :
  np_concatenate2 frames = Raise e →
  LazyFrames_run cast (LazyFrames_init frames) ops = failed_access e <$> ops.
Proof.
  intros Hcat. induction ops as [|op ops IH]; [done|].
  cbn [LazyFrames_run]. rewrite (access_failed _ e) by done. by rewrite IH.
Qed.

Lemma np_concatenate2_mismatch (f g : ndarray3 Pixel) fs :
  g ∈ fs → (shape g).1 ≠ (shape f).1 →
  np_concatenate2 (f :: fs) = Raise ValueError.
Proof.
  intros Hg Hne. unfold np_concatenate2.
  destruct (forallb (same_hw f) fs) eqn:Hall; [|done].
  eapply forallb_forall in Hall; [|by apply list_elem_of_In].
  apply bool_decide_eq_true in Hall. by destruct Hne.
Qed.

(** X3. A LazyFrames over no frames at all, or over frames that disagree
    on height or width, raises ValueError on every access, and the failure
    is not remembered: the object stays as constructed, so each further
    access tries the concatenation again. *)
Theorem LazyFrames_failure_is_not_cached
    (frames : list (ndarray3 Pixel)) (ops : list (access Dtype)) :
  frames = [] ∨
  (∃ f fs g, frames = f :: fs ∧ g ∈ fs ∧ (shape g).1 ≠ (shape f).1) →
  LazyFrames_run cast (LazyFrames_init frames) ops
    = failed_access ValueError <$> ops ∧
  ∀ op, (LazyFrames_access cast (LazyFrames_init frames) op).1
          = LazyFrames_init frames.
Proof.
  intros Hbad.
  assert (np_concatenate2 frames = Raise ValueError) as Hcat.
  { destruct Hbad as [->|(f & fs & g & -> & Hg & Hne)]; [done|].
    by eapply np_concatenate2_mismatch. }
  split; [by apply run_failed|].
  intros op. by rewrite (access_failed _ ValueError).
Qed.
End LazyFramesFailure.

Section FrameStackShapes.
Context {Env Action Reward Info Pixel : Type}.
Context (env_reset : Env → Env * ndarray3 Pixel).
Context (env_step :
  Env → Action → Env * (ndarray3 Pixel * Reward * bool * Info)).

Local Abbreviation fs_call := (FrameStack_call env_reset env_step).
Local Abbreviation fs_calls := (FrameStack_calls env_reset env_step).
Implicit Types self : FrameStack Env Pixel.

(** X4. With [k = 0] no call on a FrameStack fails, but what it hands out
    is a LazyFrames over no frames, every access to which raises
    ValueError. *)
Theorem FrameStack_zero_depth {Dtype} (cast : Dtype → Pixel → Pixel)
    (env : Env) (cs : list (call Action)) (i : nat)
    (ops : list (access Dtype)) :
  i < length cs →
  (fs_calls (FrameStack_init env 0) cs).2 !! i
    = Some (Ok (LazyFrames_init [])) ∧
  LazyFrames_run cast (LazyFrames_init []) ops
    = failed_access ValueError <$> ops.
Proof.
  intros Hi. split; [|by apply run_failed].
  pose proof (calls_length env_reset env_step (FrameStack_init env 0) cs) as Hlen.
  destruct ((fs_calls (FrameStack_init env 0) cs).2 !! i) as [r|] eqn:Hr.
  2: { apply lookup_ge_None in Hr. lia. }
  assert (filled (FrameStack_init env 0 : FrameStack Env Pixel)) as Hf by done.
  destruct (calls_filled env_reset env_step _ cs i Hf Hi) as [lf Hlf].
  rewrite Hlf in Hr. injection Hr as <-.
  destruct (calls_window env_reset env_step _ cs i lf Hlf) as (fr & -> & Hfr).
  cbn in Hfr. by destruct fr.
Qed.

Section Shaped.
Context (shp : nat * nat * nat).

(** The frames of the inner environment are well formed, of shape [shp]. *)
Local Abbreviation good := (λ f : ndarray3 Pixel, wf_array f ∧ shape f = shp).

Hypothesis reset_good : ∀ e, good (env_reset e).2.
Hypothesis step_good : ∀ e a, good (env_step e a).2.1.1.1.

Lemma deque_append_good n (q : list (ndarray3 Pixel)) x :
  Forall good q → good x → Forall good (deque_append n q x).
Proof.
  intros Hq Hx. unfold deque_append. apply Forall_drop, Forall_app.
  split; [done|by constructor].
Qed.

Lemma call_good self c :
  Forall good (frames self) → Forall good (frames (fs_call self c).1).
Proof.
  intros Hq. destruct c as [|a]; cbn; unfold FrameStack_reset, FrameStack_step.
  - pose proof (reset_good (fs_env self)) as Hob.
    destruct (env_reset (fs_env self)) as [e ob]. cbn in *.
    induction (k self) as [|n IH] at 1; [done|].
    rewrite Nat.iter_succ. by apply deque_append_good.
  - pose proof (step_good (fs_env self) a) as Hob.
    destruct (env_step (fs_env self) a) as [e [[[ob r] d] i]]. cbn in *.
    by apply deque_append_good.
Qed.

Lemma call_window_good self c lf :
  Forall good (frames self) →
  (fs_call self c).2 = Ok lf →
  ∃ fr, lf = LazyFrames_init fr ∧ length fr = k self ∧ Forall good fr.
Proof.
  intros Hq Hlf. pose proof (call_good self c Hq) as Hq'.
  destruct c as [|a]; cbn in *; unfold FrameStack_reset, FrameStack_step in *.
  - destruct (env_reset (fs_env self)) as [e ob]. cbn in *.
    unfold _get_ob in Hlf. cbn in Hlf. case_decide; [|done].
    injection Hlf as <-. by eexists.
  - destruct (env_step (fs_env self) a) as [e [[[ob r] d] i]]. cbn in *.
    unfold _get_ob in Hlf. cbn in Hlf. case_decide; [|done].
    injection Hlf as <-. by eexists.
Qed.

Lemma calls_window_good self cs i lf :
  Forall good (frames self) →
  (fs_calls self cs).2 !! i = Some (Ok lf) →
  ∃ fr, lf = LazyFrames_init fr ∧ length fr = k self ∧ Forall good fr.
Proof.
  revert self i. induction cs as [|c cs IH]; intros self i Hq; [done|].
  rewrite calls_cons. destruct i as [|i]; cbn [lookup list_lookup snd].
  - intros [= H]. by eapply call_window_good.
  - intros H. apply IH in H; [|by apply call_good].
    by rewrite call_k in H.
Qed.

Lemma sum_channels (fr : list (ndarray3 Pixel)) :
  Forall good fr → sum_list (channels <$> fr) = shp.2 * length fr.
Proof.
  induction 1 as [|f fr [_ Hf] _ IH]; [cbn; lia|].
  cbn. rewrite IH. unfold channels. rewrite Hf. lia.
Qed.

(** X5. When the inner environment only returns well-formed frames of one
    shape [shp] and [k >= 1], every stacked observation a FrameStack hands
    out materializes to a well-formed array of exactly the shape that
    [FrameStack.__init__] declares, [(shp[0], shp[1], shp[2] * k)]. *)
Theorem FrameStack_observation_has_declared_shape
    (env : Env) (k : nat) (cs : list (call Action)) (i : nat)
    (lf : LazyFrames Pixel) :
  1 ≤ k →
  (fs_calls (FrameStack_init env k) cs).2 !! i = Some (Ok lf) →
  ∃ out,
    (_force lf).2 = Ok out ∧
    shape out = FrameStack_observation_shape shp k ∧
    wf_array out.
Proof.
  intros Hk Hlf.
  destruct (calls_window_good (FrameStack_init env k) cs i lf) as
    (fr & -> & Hlen & Hgood); [by constructor|done|].
  cbn in Hlen.
  destruct fr as [|f fs] eqn:Efr; [cbn in Hlen; lia|]. rewrite <- Efr in *.
  assert (∃ out, np_concatenate2 fr = Ok out) as [out Hcat].
  { apply np_concatenate2_ok; [by rewrite Efr|].
    intros f1 f2 H1 H2. eapply Forall_forall in H1, H2; [|done..].
    destruct H1 as [_ ->], H2 as [_ ->]. done. }
  exists out. split; [by unfold _force; cbn; rewrite Hcat|].
  destruct (np_concatenate2_wf fr out) as (Hwf & Hch & Hhw); [|done|].
  { eapply Forall_impl; [exact Hgood|]. by intros ? [? _]. }
  split; [|done].
  assert (good f) as [_ Hf].
  { eapply Forall_forall in Hgood; [done|]. rewrite Efr. by left. }
  assert (height f = height out ∧ width f = width out) as [Hh Hw].
  { eapply Forall_forall in Hhw; [done|]. rewrite Efr. by left. }
  rewrite (sum_channels fr Hgood), Hlen in Hch.
  unfold FrameStack_observation_shape, height, width, channels in *.
  rewrite Hf in Hh, Hw. destruct (shape out) as [[h w] c]. cbn in *.
  by subst.
Qed.
End Shaped.
End FrameStackShapes.

(** ** ButtonsRemapper: indices and button sets *)

Section ButtonsRemapperExtras.
Implicit Types (h : gmap nat (list bool)) (buttonmap action : list string)
  (actions : list (list string)) (self : ButtonsRemapper).

Lemma action_bad_index buttonmap actions self h (a : Z) :
  table_ok buttonmap actions self h →
  (a < - Z.of_nat (length actions) ∨ Z.of_nat (length actions) ≤ a)%Z →
  ButtonsRemapper_action self a h = (h, Raise IndexError).
Proof.
  intros Htab Ha. unfold ButtonsRemapper_action, py_getitem, py_index.
  rewrite (Forall2_length _ _ _ Htab).
  destruct (Z.ltb_spec a 0) as [Hneg|Hpos].
  - destruct (Z.leb_spec 0 (a + Z.of_nat (length actions))) as [?|_]; [lia|].
    done.
  - destruct (Z.leb_spec 0 a) as [_|?]; [|lia].
    destruct (Z.ltb_spec a (Z.of_nat (length actions))) as [?|_]; [lia|].
    done.
Qed.

Lemma action_negative_index buttonmap actions self h (a : Z) :
  table_ok buttonmap actions self h →
  (- Z.of_nat (length actions) ≤ a < 0)%Z →
  ∃ action c,
    actions !! Z.to_nat (a + Z.of_nat (length actions)) = Some action ∧
    ButtonsRemapper_action self a h
      = (<[c := press_vector buttonmap action]> h, Ok c) ∧
    c ∉ dom h.
Proof.
  intros Htab Ha. unfold ButtonsRemapper_action, py_getitem, py_index.
  rewrite (Forall2_length _ _ _ Htab).
  destruct (Z.ltb_spec a 0) as [_|?]; [|lia].
  destruct (Z.leb_spec 0 (a + Z.of_nat (length actions))) as [_|?]; [|lia].
  destruct (Z.ltb_spec (a + Z.of_nat (length actions))
                       (Z.of_nat (length actions))) as [_|?]; [|lia].
  cbn.
  destruct (lookup_lt_is_Some_2 actions
              (Z.to_nat (a + Z.of_nat (length actions)))) as [action Hact];
    [lia|].
  destruct (Forall2_lookup_r _ _ _ _ _ Htab Hact) as (l & Hl & Hhl).
  rewrite Hl. unfold np_copy, np_array. rewrite Hhl. cbn.
  exists action, (fresh (dom h)). split; [done|]. split; [done|].
  apply is_fresh.
Qed.

(** X6. On a constructed ButtonsRemapper with [n] actions, in any heap
    where its table is in place: an index outside [-n, n) makes [action]
    raise IndexError and allocate nothing; a negative index [a >= -n] is
    accepted and counts from the end, returning a fresh copy of the press
    vector of action [n + a]. *)
Theorem ButtonsRemapper_action_index buttonmap actions h0 h1 self (a : Z) h :
  ButtonsRemapper_init buttonmap actions h0 = (h1, Ok self) →
  table_ok buttonmap actions self h →
  ((a < - Z.of_nat (length actions) ∨ Z.of_nat (length actions) ≤ a)%Z →
     ButtonsRemapper_action self a h = (h, Raise IndexError)) ∧
  ((- Z.of_nat (length actions) ≤ a < 0)%Z →
     ∃ action c,
       actions !! Z.to_nat (a + Z.of_nat (length actions)) = Some action ∧
       ButtonsRemapper_action self a h
         = (<[c := press_vector buttonmap action]> h, Ok c) ∧
       c ∉ dom h).
Proof.
  intros _ Htab. split.
  - by apply (action_bad_index buttonmap actions).
  - by apply (action_negative_index buttonmap actions).
Qed.

Lemma presses_same_buttons buttonmap action1 action2 i :
  (∀ b, b ∈ action1 ↔ b ∈ action2) →
  presses buttonmap action1 i = presses buttonmap action2 i.
Proof.
  intros Hsame. unfold presses. apply eq_true_iff_eq.
  rewrite !existsb_exists. split; intros (b & Hb & Hf); exists b;
    (split; [|done]); apply list_elem_of_In, Hsame; by apply list_elem_of_In.
Qed.

(** X7. In the table a constructor builds, two curated actions are given
    the same press vector exactly when they name the same set of buttons:
    the order of the names and repetitions do not matter, and different
    button sets are never confused. *)
Theorem ButtonsRemapper_vector_by_button_set
    buttonmap actions h0 h1 self (i j : nat) action1 action2 arr1 arr2 :
  ButtonsRemapper_init buttonmap actions h0 = (h1, Ok self) →
  actions !! i = Some action1 → actions !! j = Some action2 →
  _actions self !! i = Some arr1 → _actions self !! j = Some arr2 →
  h1 !! arr1 = h1 !! arr2 ↔ (∀ b, b ∈ action1 ↔ b ∈ action2).
Proof.
  intros [Hk Htab]%init_inv Ha1 Ha2 Hl1 Hl2.
  pose proof (Forall2_lookup_lr _ _ _ _ _ _ Htab Hl1 Ha1) as H1.
  pose proof (Forall2_lookup_lr _ _ _ _ _ _ Htab Hl2 Ha2) as H2.
  cbv beta in H1, H2. rewrite H1, H2.
  unfold known_buttons in Hk.
  assert (Forall (λ b, b ∈ buttonmap) action1) as Hk1
    by (eapply (Forall_lookup_1 _ _ i) in Hk; done).
  assert (Forall (λ b, b ∈ buttonmap) action2) as Hk2
    by (eapply (Forall_lookup_1 _ _ j) in Hk; done).
  split.
  - intros [= Heq] b.
    rewrite (press_vector_names buttonmap action1 b Hk1),
            (press_vector_names buttonmap action2 b Hk2).
    by rewrite Heq.
  - intros Hsame. f_equal. unfold press_vector.
    apply list_fmap_ext. intros ? i' _. by apply presses_same_buttons.
Qed.

Lemma discretizers_lookup game :
  discretizers !! game
    = if decide (game = "Columns-Genesis") then Some ColumnsGenesisDiscretizer_init
      else if decide (game = "GradiusIII-Snes") then Some GradiusDiscretizer_init
      else None.
Proof.
  unfold discretizers.
  destruct (decide (game = "Columns-Genesis")) as [->|H1]; [done|].
  rewrite lookup_insert_ne by done.
  destruct (decide (game = "GradiusIII-Snes")) as [->|H2];
    [by rewrite lookup_singleton_eq|].
  by rewrite lookup_singleton_ne.
Qed.

Lemma Gradius_known : known_buttons SNES_BUTTONS Gradius_actions.
Proof. unfold known_buttons. apply (bool_decide_unpack _). vm_compute. exact I. Qed.

Lemma Columns_known : known_buttons GENESIS_BUTTONS Columns_actions.
Proof. unfold known_buttons. apply (bool_decide_unpack _). vm_compute. exact I. Qed.

(** X8. [discretize_actions] never raises. For the two games it knows it
    builds the game's remapper, with 4 actions for Columns and 16 for
    Gradius III, every one of whose buttons exists on the console, and no
    two actions of a game press the same buttons; for any other game it
    hands the environment back unwrapped and allocates nothing. *)
Theorem discretize_actions_cases (game : string) h :
  (game = "Columns-Genesis" →
     ∃ self, (discretize_actions game h).2 = Ok (Some self) ∧
       action_space self = 4 ∧
       table_ok GENESIS_BUTTONS Columns_actions self (discretize_actions game h).1 ∧
       NoDup (press_vector GENESIS_BUTTONS <$> Columns_actions)) ∧
  (game = "GradiusIII-Snes" →
     ∃ self, (discretize_actions game h).2 = Ok (Some self) ∧
       action_space self = 16 ∧
       table_ok SNES_BUTTONS Gradius_actions self (discretize_actions game h).1 ∧
       NoDup (press_vector SNES_BUTTONS <$> Gradius_actions)) ∧
  (game ≠ "Columns-Genesis" → game ≠ "GradiusIII-Snes" →
     discretize_actions game h = (h, Ok None)).
Proof.
  unfold discretize_actions. rewrite discretizers_lookup.
  split; [|split].
  - intros ->. rewrite decide_True by done.
    unfold ColumnsGenesisDiscretizer_init.
    destruct (init_ok GENESIS_BUTTONS Columns_actions h Columns_known)
      as (self & Hself & _ & Hspace & Htab).
    destruct (ButtonsRemapper_init GENESIS_BUTTONS Columns_actions h)
      as [h' r]. cbn in *. subst r. exists self.
    split; [done|]. split; [done|]. split; [done|].
    apply (bool_decide_unpack _). vm_compute. exact I.
  - intros ->. rewrite decide_False by done. rewrite decide_True by done.
    unfold GradiusDiscretizer_init.
    destruct (init_ok SNES_BUTTONS Gradius_actions h Gradius_known)
      as (self & Hself & _ & Hspace & Htab).
    destruct (ButtonsRemapper_init SNES_BUTTONS Gradius_actions h)
      as [h' r]. cbn in *. subst r. exists self.
    split; [done|]. split; [done|]. split; [done|].
    apply (bool_decide_unpack _). vm_compute. exact I.
  - intros H1 H2. by rewrite !decide_False by done.
Qed.
End ButtonsRemapperExtras.

(** ** RewardScaler under SkipFrames *)

Section RewardScalerSpec.
Open Scope R_scope.
Context {Env Action Obs Info : Type}.
Context (env_step : Env → Action → Env * (Obs * R * bool * Info)).

(** The result of a skipped step with its reward scaled. *)
Local Abbreviation scaled c :=
  (λ x : Env * (option Obs * R * option bool * option Info),
     (x.1, (x.2.1.1.1, x.2.1.1.2 * c, x.2.1.2, x.2.2))).

Lemma skip_loop_scaled (c : R) n e (a : Action) total obs dn info :
  skip_loop (RewardScaler_step env_step c) Rplus n e a (total * c) obs dn info
    = scaled c (skip_loop env_step Rplus n e a total obs dn info).
Proof.
  revert e total obs dn info.
  induction n as [|n IH]; intros e total obs dn info; [done|].
  cbn [skip_loop]. unfold RewardScaler_step at 1, RewardScaler_reward.
  destruct (env_step e a) as [e' [[[o r] d] i]].
  replace (total * c + r * c) with ((total + r) * c) by ring.
  destruct d; [done|]. apply IH.
Qed.

(** X9. Scaling the rewards of the inner environment and then skipping
    frames gives the same observation, flag, info and inner state as
    skipping frames alone, and the summed reward multiplied by the scaling
    factor (over the reals). *)
Theorem SkipFrames_over_RewardScaler (c : R) (self : SkipFrames Env)
    (a : Action) :
  SkipFrames_step (RewardScaler_step env_step c) Rplus 0 self a
    = (let '(self', (o, r, d, i)) := SkipFrames_step env_step Rplus 0 self a in
       (self', (o, RewardScaler_reward c r, d, i))).
Proof.
  unfold SkipFrames_step, RewardScaler_reward.
  replace 0 with (0 * c) at 1 by ring. rewrite skip_loop_scaled.
  by destruct (skip_loop env_step Rplus _ _ _ _ _ _ _) as [e' [[[o r] d] i]].
Qed.
End RewardScalerSpec.

(** ** discount_rewards *)

Section DiscountRewards.
Open Scope R_scope.
Implicit Types (r D : list R) (terminals : list bool) (gamma : R).

Lemma lookup_total_beyond (l : list R) (i : nat) :
  (length l ≤ i)%nat → l !!! i = 0.
Proof.
  intros Hi. rewrite list_lookup_total_alt.
  by rewrite (proj2 (lookup_ge_None l i)).
Qed.

Lemma getitem_beyond {A} (l : list A) (t : nat) :
  (length l ≤ t)%nat → py_getitem l (Z.of_nat t) = Raise IndexError.
Proof.
  intros Ht. unfold py_getitem, py_index.
  destruct (Z.ltb_spec (Z.of_nat t) 0) as [?|_]; [lia|].
  destruct (Z.leb_spec 0 (Z.of_nat t)) as [_|?]; [|lia].
  destruct (Z.ltb_spec (Z.of_nat t) (Z.of_nat (length l))) as [?|_]; [lia|].
  done.
Qed.

Lemma np_sign_bounds x : -1 <= np_sign x <= 1.
Proof. unfold np_sign. repeat destruct Rlt_dec; lra. Qed.

Lemma np_sign_scale c x : 0 < c → np_sign (c * x) = np_sign x.
Proof.
  intros Hc. unfold np_sign.
  destruct (Rlt_dec x 0) as [Hx|Hx].
  - destruct (Rlt_dec (c * x) 0) as [_|H]; [done|]. destruct H. nra.
  - destruct (Rlt_dec (c * x) 0) as [H|_]; [nra|].
    destruct (Rlt_dec 0 x) as [Hx'|Hx'].
    + destruct (Rlt_dec 0 (c * x)) as [_|H]; [done|]. destruct H. nra.
    + destruct (Rlt_dec 0 (c * x)) as [H|_]; [nra|done].
Qed.

Lemma discount_step_writes r terminals gamma (t : nat) D running_add :
  (t < length r)%nat → (t < length terminals)%nat → (t < length D)%nat →
  let v := if (terminals !!! t : bool) then r !!! t
           else running_add * gamma + r !!! t in
  discount_step r terminals gamma t (D, running_add) = Ok (<[t := v]> D, v).
Proof.
  intros Hr Ht HD. cbv zeta. unfold discount_step.
  rewrite (getitem_total terminals) by done. cbn.
  rewrite (getitem_total r) by done.
  destruct (terminals !!! t); cbn; by rewrite py_setitem_nat by done.
Qed.

(** The backward loop from [m - 1] down to [0]: the running sum it starts
    from is what stands at index [m] (zero past the end). *)
Lemma discount_loop_inv r terminals gamma (m : nat) D :
  (m ≤ length r)%nat → (m ≤ length terminals)%nat → length D = length r →
  ∃ D' run,
    discount_loop r terminals gamma m (D, D !!! m) = Ok (D', run) ∧
    length D' = length r ∧
    (∀ j : nat, (m ≤ j)%nat → D' !!! j = D !!! j) ∧
    (∀ t : nat, (t < m)%nat →
       D' !!! t = if (terminals !!! t : bool) then r !!! t
                  else D' !!! S t * gamma + r !!! t).
Proof.
  revert D. induction m as [|t IH]; intros D Hm Ht HD.
  - exists D, (D !!! 0%nat). cbn. repeat split; try done. intros; lia.
  - cbn [discount_loop]. rewrite discount_step_writes by lia. cbn.
    set (v := if (terminals !!! t : bool) then r !!! t else D !!! S t * gamma + r !!! t).
    destruct (IH (<[t := v]> D)) as (D' & run & Hloop & HD' & Hkeep & Hrec);
      [lia|lia|by rewrite length_insert|].
    rewrite list_lookup_total_insert_eq in Hloop by lia.
    exists D', run. split; [done|]. split; [done|]. split.
    + intros j Hj. rewrite Hkeep by lia.
      by rewrite list_lookup_total_insert_ne by lia.
    + intros t' Ht'. destruct (decide (t' = t)) as [->|Hne]; [|apply Hrec; lia].
      rewrite (Hkeep t), (Hkeep (S t)) by lia.
      rewrite list_lookup_total_insert_eq by lia.
      by rewrite list_lookup_total_insert_ne by lia.
Qed.

Lemma discount_rewards_spec r terminals gamma :
  (length r ≤ length terminals)%nat →
  ∃ D,
    discount_rewards r terminals gamma = Ok D ∧
    length D = length r ∧
    (∀ t : nat, (t < length r)%nat →
       D !!! t = if (terminals !!! t : bool) then np_sign (r !!! t)
                 else D !!! S t * gamma + np_sign (r !!! t)).
Proof.
  intros Hlen. unfold discount_rewards.
  destruct (discount_loop_inv (np_sign <$> r) terminals gamma (length r)
              (replicate (length r) 0))
    as (D & run & Hloop & HD & _ & Hrec);
    [by rewrite length_fmap|done|by rewrite length_fmap, length_replicate|].
  rewrite lookup_total_beyond in Hloop by (by rewrite length_replicate).
  cbv zeta. rewrite length_fmap, Hloop. cbn. rewrite length_fmap in HD.
  exists D. split; [done|]. split; [done|].
  intros t Ht. rewrite Hrec by done.
  by rewrite (list_lookup_total_fmap np_sign r t) by done.
Qed.

(** X10. When there is a terminal flag for every reward, discount_rewards
    returns an array of the same length with
    [D[t] = sign(r[t])] at a terminal step and
    [D[t] = gamma * D[t+1] + sign(r[t])] elsewhere, [D] past the end being
    zero; for [0 <= gamma < 1] every entry is at most [1 / (1 - gamma)] in
    absolute value, whatever the size of the rewards. *)
Theorem discount_rewards_clipped_returns r terminals gamma :
  (length r ≤ length terminals)%nat →
  ∃ D,
    discount_rewards r terminals gamma = Ok D ∧
    length D = length r ∧
    (∀ t : nat, (t < length r)%nat →
       D !!! t = if (terminals !!! t : bool) then np_sign (r !!! t)
                 else gamma * (if decide (S t < length r)%nat then D !!! S t else 0)
                      + np_sign (r !!! t)) ∧
    (0 <= gamma < 1 → ∀ t : nat, Rabs (D !!! t) <= 1 / (1 - gamma)).
Proof.
  intros Hlen.
  destruct (discount_rewards_spec r terminals gamma Hlen) as (D & HD & Hl & Hrec).
  exists D. split; [done|]. split; [done|]. split.
  - intros t Ht. rewrite Hrec by done. destruct (terminals !!! t); [done|].
    case_decide; [ring|]. rewrite (lookup_total_beyond D) by lia. ring.
  - intros Hg t.
    assert (∀ j t : nat, (length r ≤ t + j)%nat →
              Rabs (D !!! t) * (1 - gamma) <= 1) as Hbound.
    { clear t. intros j. induction j as [|j IH]; intros t Ht.
      - rewrite lookup_total_beyond by lia. rewrite Rabs_R0. lra.
      - destruct (decide (t < length r)%nat) as [Hlt|Hge].
        2: { rewrite lookup_total_beyond by lia. rewrite Rabs_R0. lra. }
        rewrite Hrec by done.
        pose proof (np_sign_bounds (r !!! t)) as Hs.
        pose proof (IH (S t) ltac:(lia)) as Hnext.
        pose proof (Rabs_pos (D !!! S t)) as Hpos.
        destruct (terminals !!! t).
        + assert (Rabs (np_sign (r !!! t)) <= 1) by (apply Rabs_le; lra). nra.
        + assert (Rabs (D !!! S t * gamma + np_sign (r !!! t))
                  <= Rabs (D !!! S t) * gamma + 1) as Htri.
          { etrans; [apply Rabs_triang|].
            rewrite Rabs_mult, (Rabs_pos_eq gamma) by lra.
            assert (Rabs (np_sign (r !!! t)) <= 1) by (apply Rabs_le; lra). lra. }
          nra. }
    specialize (Hbound (length r) t ltac:(lia)).
    apply (Rmult_le_reg_r (1 - gamma)); [lra|].
    by replace (1 / (1 - gamma) * (1 - gamma)) with 1 by (field; lra).
Qed.

(** X11. discount_rewards sees only the sign of each reward: multiplying
    every reward by a positive factor of its own leaves the result
    unchanged. *)
Theorem discount_rewards_ignores_magnitude r (scale : list R) terminals gamma :
  length scale = length r →
  Forall (λ c, 0 < c) scale →
  discount_rewards (zip_with Rmult scale r) terminals gamma
    = discount_rewards r terminals gamma.
Proof.
  intros Hlen Hpos. unfold discount_rewards. cbv zeta.
  rewrite !length_fmap, length_zip_with, Hlen, Nat.min_id.
  assert (np_sign <$> zip_with Rmult scale r = np_sign <$> r) as ->; [|done].
  clear terminals gamma. revert r Hlen.
  induction Hpos as [|c scale Hc _ IH]; intros [|x r] Hlen; try done.
  cbn. rewrite np_sign_scale by done. f_equal. apply IH.
  by injection Hlen.
Qed.

(** X12. With fewer terminal flags than rewards discount_rewards raises
    IndexError; with no rewards at all it returns the empty array. *)
Theorem discount_rewards_short_terminals r terminals gamma :
  ((length terminals < length r)%nat →
     discount_rewards r terminals gamma = Raise IndexError) ∧
  (r = [] → discount_rewards r terminals gamma = Ok []).
Proof.
  split; [|by intros ->].
  intros Hlen. unfold discount_rewards. cbv zeta. rewrite length_fmap.
  destruct (length r) as [|n] eqn:Hn; [lia|].
  cbn [discount_loop]. unfold discount_step.
  by rewrite (getitem_beyond terminals) by lia.
Qed.

(** X13. discount_rewards is the backward pass of
    generalized_advantage_estimation before normalization, run on the
    clipped rewards with all values zero, bootstrap value zero and
    [lam = 1]. *)
Theorem discount_rewards_is_gae r terminals gamma :
  (1 ≤ length r)%nat → length terminals = length r →
  ∃ D,
    discount_rewards r terminals gamma = Ok D ∧
    gae_arrays (replicate (length r) 0) (np_sign <$> r) terminals 0 gamma 1
      = Ok (np_sign <$> r, D).
Proof.
  intros Hn Hlen.
  destruct (discount_rewards_spec r terminals gamma) as (D & HD & Hl & Hrec);
    [lia|].
  destruct (gae_arrays_spec (replicate (length r) 0) (np_sign <$> r) terminals
              0 gamma 1 (length r))
    as (delta & A & Harr & Hdl & Hal & Hlast & Hlast' & Hgrec);
    [done|by rewrite length_replicate|by rewrite length_fmap|done|].
  assert (∀ t : nat, (t < length r)%nat →
            delta !!! t = np_sign (r !!! t)) as Hdelta.
  { intros t Ht. destruct (decide (S t = length r)) as [Heq|Hne].
    - replace t with (length r - 1)%nat by lia. rewrite Hlast.
      rewrite lookup_total_replicate_2 by lia.
      rewrite (list_lookup_total_fmap np_sign r) by lia. ring.
    - destruct (Hgrec t) as [-> _]; [lia|].
      rewrite !lookup_total_replicate_2 by lia.
      rewrite (list_lookup_total_fmap np_sign r) by lia. ring. }
  exists D. split; [done|]. rewrite Harr. do 2 f_equal.
  - apply (list_eq_same_length _ _ (length r)); [by rewrite length_fmap|done|].
    intros t x y Ht Hx Hy.
    apply list_lookup_total_correct in Hx, Hy. subst x y.
    rewrite Hdelta by done. by rewrite (list_lookup_total_fmap np_sign r) by lia.
  - apply (list_eq_same_length _ _ (length r)); [done..|].
    intros t x y Ht Hx Hy.
    apply list_lookup_total_correct in Hx, Hy. subst x y.
    remember (length r - 1 - t)%nat as j eqn:Hj. revert t Ht Hj.
    induction j as [|j IH]; intros t Ht Hj.
    + replace t with (length r - 1)%nat by lia.
      rewrite Hlast', Hdelta, Hrec by lia.
      destruct (terminals !!! (length r - 1)%nat); [done|].
      rewrite (lookup_total_beyond D) by lia. ring.
    + destruct (Hgrec t) as [_ ->]; [lia|].
      rewrite (IH (S t)) by lia. rewrite Hdelta, (Hrec t) by lia.
      destruct (terminals !!! t); cbn [b2r negb]; ring.
Qed.
End DiscountRewards.

(** ** generalized_advantage_estimation: normalization and edges *)

Section GAEExtras.
Open Scope R_scope.
Implicit Types (values rewards A : list R) (terminals : list bool).
Implicit Types (lastvalue gamma lam : R) (n t : nat).


Lemma sum_R_replicate n (c : R) : sum_R (replicate n c) = INR n * c.
Proof.
  induction n as [|n IH]; [cbn; lra|].
  cbn [replicate sum_R foldr]. fold (sum_R (replicate n c)).
  rewrite IH, S_INR. lra.
Qed.



Lemma py_getitem_raises {B} (l : list B) (i : Z) e :
  py_getitem l i = Raise e → e = IndexError.
Proof.
  unfold py_getitem, py_index.
  destruct (_ && _); cbn; [|by intros [= <-]].
  destruct (l !! _); [done|by intros [= <-]].
Qed.

Lemma py_getitem_empty {B} (i : Z) : py_getitem (@nil B) i = Raise IndexError.
Proof.
  unfold py_getitem, py_index. cbn [length].
  set (j := if (i <? 0)%Z then _ else _).
  destruct (Z.leb_spec 0 j), (Z.ltb_spec j (Z.of_nat 0)); try done; lia.
Qed.

(** X15. On an empty segment, that is when any of the three input
    sequences is empty, the function raises IndexError; it never returns
    an empty array. *)
Theorem gae_empty_segment values rewards terminals lastvalue gamma lam :
  values = [] ∨ rewards = [] ∨ terminals = [] →
  generalized_advantage_estimation values rewards terminals lastvalue gamma lam
    = Raise IndexError.
Proof.
  intros Hempty. unfold generalized_advantage_estimation, gae_arrays.
  destruct (py_getitem rewards (-1)) as [r|e] eqn:Er.
  2: { by apply py_getitem_raises in Er as ->. }
  destruct (py_getitem terminals (-1)) as [d|e] eqn:Ed.
  2: { by apply py_getitem_raises in Ed as ->. }
  destruct (py_getitem values (-1)) as [v|e] eqn:Ev.
  2: { by apply py_getitem_raises in Ev as ->. }
  destruct Hempty as [->|[->| ->]];
    [by rewrite py_getitem_empty in Ev|by rewrite py_getitem_empty in Er
    |by rewrite py_getitem_empty in Ed].
Qed.

(** X16. With [lam = 1] the return estimate [A[t] + V[t]] before
    normalization is the discounted sum of rewards up to the next terminal,
    bootstrapped by [V_last]:
    [A[t] + V[t] = r[t] + gamma * (1 - d[t]) * (A[t+1] + V[t+1])], with
    [V_last] in place of [A[n] + V[n]]; it therefore does not depend on the
    value estimates of the segment. *)
Theorem gae_lam_one_returns values values' rewards terminals lastvalue gamma n :
  (1 ≤ n)%nat →
  length values = n → length values' = n →
  length rewards = n → length terminals = n →
  ∃ delta A delta' A',
    gae_arrays values rewards terminals lastvalue gamma 1 = Ok (delta, A) ∧
    gae_arrays values' rewards terminals lastvalue gamma 1 = Ok (delta', A') ∧
    (∀ t, (t < n)%nat →
       A !!! t + values !!! t
         = rewards !!! t
           + gamma * (1 - b2r (terminals !!! t))
             * (if decide (S t = n) then lastvalue
                else A !!! S t + values !!! S t)) ∧
    (∀ t, (t < n)%nat → A !!! t + values !!! t = A' !!! t + values' !!! t).
Proof.
  intros Hn Hv Hv' Hr Ht.
  destruct (gae_arrays_spec values rewards terminals lastvalue gamma 1 n
              Hn Hv Hr Ht)
    as (delta & A & Harr & Hd & Ha & Hlast & Hlast' & Hrec).
  destruct (gae_arrays_spec values' rewards terminals lastvalue gamma 1 n
              Hn Hv' Hr Ht)
    as (delta' & A' & Harr' & Hd' & Ha' & Hlast2 & Hlast2' & Hrec').
  exists delta, A, delta', A'. split; [done|]. split; [done|].
  assert (∀ (vs dl Ad : list R),
    dl !!! (n - 1)%nat
      = rewards !!! (n - 1)%nat
        + gamma * lastvalue * b2r (negb (terminals !!! (n - 1)%nat))
        - vs !!! (n - 1)%nat →
    Ad !!! (n - 1)%nat = dl !!! (n - 1)%nat →
    (∀ t, (S t < n)%nat →
       dl !!! t = rewards !!! t + gamma * vs !!! S t * b2r (negb (terminals !!! t))
                  - vs !!! t ∧
       Ad !!! t = dl !!! t + gamma * 1 * b2r (negb (terminals !!! t)) * Ad !!! S t) →
    ∀ t, (t < n)%nat →
      Ad !!! t + vs !!! t
        = rewards !!! t
          + gamma * (1 - b2r (terminals !!! t))
            * (if decide (S t = n) then lastvalue
               else Ad !!! S t + vs !!! S t)) as Hstep.
  { intros vs dl Ad H1 H2 H3 t Hlt. rewrite <- b2r_negb. case_decide as Heq.
    - replace t with (n - 1)%nat by lia. rewrite H2, H1. ring.
    - destruct (H3 t) as [Hdt ->]; [lia|]. rewrite Hdt. ring. }
  pose proof (Hstep values delta A Hlast Hlast' Hrec) as HA.
  pose proof (Hstep values' delta' A' Hlast2 Hlast2' Hrec') as HA'.
  split; [done|].
  intros t Hlt. remember (n - 1 - t)%nat as j eqn:Hj. revert t Hlt Hj.
  induction j as [|j IH]; intros t Hlt Hj.
  - rewrite HA, HA' by done. by rewrite !decide_True by lia.
  - rewrite HA, HA' by done. rewrite !decide_False by lia.
    by rewrite (IH (S t)) by lia.
Qed.
End GAEExtras.

(** ** ppostep: the value loss *)

Section ValueLossExtras.
Open Scope R_scope.
Implicit Types (newvalues values advantages : list R) (epscut valuecoef : R).

Lemma sum_R_le (a b : list R) :
  Forall2 Rle a b → sum_R a <= sum_R b.
Proof.
  induction 1 as [|x y a b Hxy _ IH]; [cbn; lra|].
  cbn [sum_R foldr]. fold (sum_R a) (sum_R b). lra.
Qed.

Lemma mean_le (a b : list R) : Forall2 Rle a b → mean a <= mean b.
Proof.
  intros Hab. unfold mean. rewrite (Forall2_length _ _ _ Hab).
  apply Rmult_le_compat_r; [|by apply sum_R_le].
  destruct (length b) as [|m]; [cbn; rewrite Rinv_0; lra|].
  left. apply Rinv_0_lt_compat, lt_0_INR. lia.
Qed.

Lemma mean_nonneg (a : list R) : Forall (Rle 0) a → 0 <= mean a.
Proof.
  intros Ha. unfold mean.
  apply Rmult_le_pos.
  - induction Ha as [|x a Hx _ IH]; [cbn; lra|].
    cbn [sum_R foldr]. fold (sum_R a). lra.
  - destruct (length a) as [|m]; [cbn; rewrite Rinv_0; lra|].
    left. apply Rinv_0_lt_compat, lt_0_INR. lia.
Qed.

(** X17. The clipping of the new value that ppostep computes is one-sided:
    entry by entry the clipped value is the larger of the new value and
    [old value + epscut]. It is never below the new value, and it is the
    new value itself whenever that exceeds the old one by at least
    [epscut]. *)
Theorem ppostep_clip_is_one_sided newvalues values epscut (n : nat) :
  length newvalues = n → length values = n →
  ∃ clipped,
    ppostep_newvalues_clipped newvalues values epscut = Ok clipped ∧
    length clipped = n ∧
    ∀ i : nat, (i < n)%nat →
      clipped !!! i = Rmax (newvalues !!! i) (values !!! i + epscut) ∧
      newvalues !!! i <= clipped !!! i ∧
      (values !!! i + epscut <= newvalues !!! i →
         clipped !!! i = newvalues !!! i).
Proof.
  intros Hnv Hv.
  rewrite (ppostep_newvalues_clipped_indexed newvalues values epscut n Hnv Hv).
  eexists. split; [done|]. split; [by rewrite length_fmap, length_seq|].
  intros i Hi.
  rewrite (list_lookup_total_fmap _ (seq 0 n) i) by (by rewrite length_seq).
  rewrite lookup_total_seq_lt by done. cbn.
  assert (values !!! i + Rmax (newvalues !!! i - values !!! i) epscut
          = Rmax (newvalues !!! i) (values !!! i + epscut)) as ->.
  { unfold Rmax. repeat destruct Rle_dec; lra. }
  split; [done|]. split; [apply Rmax_l|].
  intros Hle. by apply Rmax_left.
Qed.

(** X18. For a non-negative [valuecoef] the value loss is non-negative
    and never smaller than [valuecoef / 2] times the mean squared error of
    the new values against [advantage + old value]: the second, clipped
    error can only raise the loss. *)
Theorem ppostep_valueloss_is_pessimistic
    newvalues values advantages epscut valuecoef (n : nat) :
  length newvalues = n → length values = n → length advantages = n →
  0 <= valuecoef →
  ∃ loss,
    ppostep_valueloss newvalues values advantages epscut valuecoef = Ok loss ∧
    0 <= loss ∧
    valuecoef * (1 / 2)
      * mean ((λ i : nat, (newvalues !!! i
                           - (advantages !!! i + values !!! i)) ^ 2)
                <$> seq 0 n)
      <= loss.
Proof.
  intros Hnv Hv Ha Hc.
  pose proof (ppostep_newvalues_clipped_indexed newvalues values epscut n
                Hnv Hv) as Hclip.
  unfold ppostep_valueloss, ppostep_returns. rewrite Hclip.
  rewrite torch_binop_same by lia. cbn [mbind result_bind fmap result_fmap].
  assert (length (zip_with Rplus advantages values) = n) as Hret
    by (rewrite length_zip_with; lia).
  rewrite !torch_binop_same
    by (rewrite ?length_fmap, ?length_seq, ?length_zip_with; lia).
  cbn [mbind result_bind fmap result_fmap].
  rewrite torch_binop_same
    by (unfold square;
        rewrite !length_fmap, !length_zip_with, ?length_fmap, ?length_seq; lia).
  cbn [mbind result_bind fmap result_fmap]. eexists. split; [done|].
  set (sq := square (zip_with Rminus newvalues (zip_with Rplus advantages values))).
  set (worst := zip_with Rmax sq _).
  assert (length sq = n) as Hsq
    by (unfold sq, square; rewrite length_fmap, !length_zip_with; lia).
  assert (Forall2 Rle sq worst) as Hle.
  { unfold worst. apply Forall2_same_length_lookup. split.
    - rewrite length_zip_with. unfold square.
      rewrite !length_fmap, !length_zip_with, length_fmap, length_seq. lia.
    - intros i x y Hx Hy.
      apply lookup_zip_with_Some in Hy as (u & v & -> & Hu & _).
      assert (u = x) as -> by congruence. apply Rmax_l. }
  assert (Forall (Rle 0) sq) as Hsq0.
  { unfold sq, square. apply Forall_fmap, Forall_forall. intros x _. cbn.
    nra. }
  assert (0 <= mean sq) as Hm0 by (by apply mean_nonneg).
  assert (mean sq <= mean worst) as Hm by (by apply mean_le).
  assert (sq = (λ i : nat, (newvalues !!! i
                            - (advantages !!! i + values !!! i)) ^ 2)
                 <$> seq 0 n) as <-.
  { unfold sq, square.
    rewrite (zip_with_indexed Rplus advantages values n) by done.
    rewrite (zip_with_indexed Rminus newvalues _ n)
      by (done || by rewrite length_fmap, length_seq).
    rewrite fmap_indexed. apply list_fmap_ext. intros j i Hi.
    apply lookup_seq in Hi as [-> Hi]. cbn [Nat.add].
    rewrite (list_lookup_total_fmap _ (seq 0 n) j) by (by rewrite length_seq).
    by rewrite lookup_total_seq_lt by done. }
  split; nra.
Qed.

Lemma torch_binop_mismatch f (a b : list R) :
  length a ≠ length b → length a ≠ 1%nat → length b ≠ 1%nat →
  torch_binop f a b = Raise RuntimeError.
Proof.
  intros Hne Ha Hb. unfold torch_binop. rewrite decide_False by done.
  destruct a as [|x [|x' a]]; [| done |];
    destruct b as [|y [|y' b]]; done.
Qed.

(** X19. When the advantages and the old values have different sizes,
    neither of them of size one, the value loss raises RuntimeError: the
    shapes are not silently reconciled. *)
Theorem ppostep_valueloss_shape_mismatch
    newvalues values advantages epscut valuecoef :
  length advantages ≠ length values →
  length advantages ≠ 1%nat → length values ≠ 1%nat →
  ppostep_valueloss newvalues values advantages epscut valuecoef
    = Raise RuntimeError.
Proof.
  intros Hne Ha Hv. unfold ppostep_valueloss, ppostep_returns.
  by rewrite torch_binop_mismatch.
Qed.
End ValueLossExtras.

(** ** ppostep: the clipped policy-gradient loss *)

Section PolicyLoss.
Open Scope R_scope.
Implicit Types (logprobs baseprobs probratios : list (list R)).
Implicit Types (advantages : list R) (epscut : R).

(** One entry of [torch.min(rt * adv, torch.clamp(rt, ..) * adv)]. *)
Local Abbreviation clipped epscut adv :=
  (λ x : R, Rmin (x * adv) (Rmin (Rmax x (1 - epscut)) (1 + epscut) * adv)).
(** What no entry can exceed, whatever the ratio. *)
Local Abbreviation ceiling epscut := (λ adv : R, adv + epscut * Rabs adv).

Lemma clipped_le_ceiling epscut adv x :
  0 <= epscut → clipped epscut adv x <= ceiling epscut adv.
Proof.
  intros He. cbv beta. etrans; [apply Rmin_r|].
  set (y := Rmin (Rmax x (1 - epscut)) (1 + epscut)).
  assert (1 - epscut <= y <= 1 + epscut) as Hy.
  { unfold y, Rmin, Rmax. repeat destruct Rle_dec; lra. }
  unfold Rabs. destruct Rcase_abs; nra.
Qed.

Lemma clipped_at_one epscut adv : 0 <= epscut → clipped epscut adv 1 = adv.
Proof.
  intros He. cbv beta.
  assert (Rmin (Rmax 1 (1 - epscut)) (1 + epscut) = 1) as ->.
  { unfold Rmin, Rmax. repeat destruct Rle_dec; lra. }
  unfold Rmin. destruct Rle_dec; lra.
Qed.

Lemma ppostep_probratios_eq baseprobs (newprobs : list (list R)) (m : nat) :
  Forall (λ p, length p = m) baseprobs →
  Forall (λ p, length p = m) newprobs →
  ppostep_probratios baseprobs newprobs
    = Ok (zip_with (λ prob newprob, zip_with Rdiv newprob prob)
                   baseprobs newprobs).
Proof.
  intros Hb. revert newprobs.
  induction Hb as [|prob baseprobs Hp _ IH]; intros newprobs Hn; [done|].
  destruct Hn as [|newprob newprobs Hq Hn]; [done|].
  cbn [ppostep_probratios]. rewrite torch_binop_same by lia. cbn.
  by rewrite IH.
Qed.

Lemma ppostep_clipping_eq epscut (rt : list R) adv :
  ppostep_clipping epscut rt adv = Ok (clipped epscut adv <$> rt).
Proof.
  unfold ppostep_clipping, torch_clamp.
  rewrite torch_binop_same by (by rewrite !length_fmap).
  f_equal. induction rt as [|x rt IH]; [done|]. cbn. by f_equal.
Qed.

Lemma ppostep_clippings_eq epscut probratios advantages :
  ppostep_clippings epscut probratios advantages
    = Ok (zip_with (λ rt adv, clipped epscut adv <$> rt) probratios advantages).
Proof.
  revert advantages.
  induction probratios as [|rt probratios IH]; intros [|adv advantages];
    try done.
  cbn [ppostep_clippings]. rewrite ppostep_clipping_eq. cbn.
  by rewrite IH.
Qed.

Lemma torch_cat_ok (rows : list (list R)) (m : nat) :
  (1 ≤ length rows)%nat →
  Forall (λ c, length c = m) rows →
  torch_cat rows = Ok (concat rows).
Proof.
  destruct rows as [|row rows]; [cbn; lia|].
  intros _ [Hrow Hrows]%Forall_cons. unfold torch_cat.
  assert (forallb (λ u, bool_decide (length u = length row)) rows = true) as ->;
    [|done].
  apply forallb_forall. intros u Hu%list_elem_of_In.
  apply bool_decide_eq_true. eapply Forall_forall in Hrows; [|done]. lia.
Qed.

Lemma sum_R_app (a b : list R) : sum_R (a ++ b) = sum_R a + sum_R b.
Proof.
  unfold sum_R. induction a as [|x a IH]; cbn [app foldr]; lra.
Qed.

Lemma sum_R_ceiling (row : list R) (b : R) :
  Forall (λ y, y <= b) row → sum_R row <= INR (length row) * b.
Proof.
  induction 1 as [|y row Hy _ IH]; [cbn; lra|].
  cbn [sum_R foldr]. fold (sum_R row). rewrite length_cons, S_INR. lra.
Qed.

(** The rows of the clipped surrogate, each of [m] entries, summed. *)
Lemma clippings_sum_le epscut probratios advantages (m : nat) :
  0 <= epscut →
  Forall (λ rt, length rt = m) probratios →
  length probratios = length advantages →
  let rows := zip_with (λ rt adv, clipped epscut adv <$> rt)
                       probratios advantages in
  Forall (λ c, length c = m) rows ∧
  length rows = length advantages ∧
  sum_R (concat rows) <= INR m * sum_R (ceiling epscut <$> advantages).
Proof.
  intros He Hrt. revert advantages.
  induction Hrt as [|rt probratios Hm _ IH]; intros [|adv advantages] Hlen;
    try done.
  - cbn. split; [done|]. split; [done|]. lra.
  - destruct (IH advantages) as (Hrows & Hl & Hsum); [by injection Hlen|].
    cbn [zip_with concat fmap list_fmap sum_R foldr].
    fold (sum_R (ceiling epscut <$> advantages)).
    split; [constructor; [by rewrite length_fmap|done]|].
    split; [cbn; by rewrite Hl|].
    rewrite sum_R_app.
    assert (sum_R (clipped epscut adv <$> rt) <= INR m * ceiling epscut adv).
    { rewrite <- Hm, <- (length_fmap (clipped epscut adv)).
      apply sum_R_ceiling, Forall_fmap, Forall_forall. intros x _.
      by apply clipped_le_ceiling. }
    change (foldr Rplus 0 (ceiling epscut <$> advantages))
      with (sum_R (ceiling epscut <$> advantages)).
    cbv beta in *. lra.
Qed.

Lemma concat_length_rows (rows : list (list R)) (m : nat) :
  Forall (λ c, length c = m) rows →
  length (concat rows) = (length rows * m)%nat.
Proof.
  induction 1 as [|c rows Hc _ IH]; [done|].
  cbn. rewrite length_app, IH. lia.
Qed.

(** X20. On a minibatch of [B >= 1] samples with [m >= 1] action
    probabilities each, positive old probabilities and [epscut >= 0], the
    policy-gradient loss is computed, and it is never below
    [- mean(A + epscut * |A|)] over the advantages [A] of the batch:
    however far the new probabilities move from the old ones, the clipped
    surrogate cannot grow beyond that bound. *)
Theorem ppostep_pgloss_is_bounded logprobs baseprobs advantages epscut
    (B m : nat) :
  (1 ≤ B)%nat → (1 ≤ m)%nat → 0 <= epscut →
  length logprobs = B → length baseprobs = B → length advantages = B →
  Forall (λ p, length p = m) logprobs →
  Forall (λ p, length p = m) baseprobs →
  Forall (Forall (λ prob, 0 < prob)) baseprobs →
  ∃ loss,
    ppostep_pgloss logprobs baseprobs advantages epscut = Ok loss ∧
    - mean ((λ adv, adv + epscut * Rabs adv) <$> advantages) <= loss.
Proof.
  intros HB Hm He Hl Hb Ha Hlm Hbm _. unfold ppostep_pgloss.
  assert (Forall (λ p, length p = m) (map (map exp) logprobs)) as Hnm.
  { apply Forall_fmap. eapply Forall_impl; [exact Hlm|].
    intros p Hp. cbn. by rewrite length_map. }
  rewrite (ppostep_probratios_eq _ _ m) by done. cbn.
  rewrite ppostep_clippings_eq. cbn.
  set (probratios := zip_with _ baseprobs _).
  assert (Forall (λ rt, length rt = m) probratios) as Hpm.
  { unfold probratios.
    eapply (Forall_zip_with_fst _ (λ p, length p = m)); [exact Hbm|].
    eapply Forall_impl; [exact Hnm|]. intros newprob Hq prob Hp.
    cbn beta in *. rewrite length_zip_with. lia. }
  assert (length probratios = length advantages) as Hpl.
  { unfold probratios. rewrite length_zip_with, length_map. lia. }
  destruct (clippings_sum_le epscut probratios advantages m He Hpm Hpl)
    as (Hrows & Hrl & Hsum).
  set (rows := zip_with _ probratios advantages) in *.
  rewrite (torch_cat_ok rows m) by (done || lia). cbn. eexists. split; [done|].
  apply Ropp_le_contravar. unfold mean.
  rewrite (concat_length_rows rows m Hrows), Hrl, length_fmap, Ha.
  rewrite mult_INR.
  assert (0 < INR B) by (apply lt_0_INR; lia).
  assert (0 < INR m) by (apply lt_0_INR; lia).
  apply (Rmult_le_reg_r (INR B * INR m)); [nra|].
  field_simplify; [|lra|lra]. nra.
Qed.

Lemma ratio_one (logp : list R) :
  zip_with Rdiv (map exp logp) (map exp logp) = replicate (length logp) 1.
Proof.
  induction logp as [|x logp IH]; [done|].
  cbn. rewrite IH. f_equal. field.
  pose proof (exp_pos x). lra.
Qed.

Lemma sum_R_unclipped_rows epscut (logprobs : list (list R)) advantages (m : nat) :
  0 <= epscut →
  Forall (λ p, length p = m) logprobs →
  length logprobs = length advantages →
  let rows := zip_with (λ rt adv, clipped epscut adv <$> rt)
                (zip_with (λ prob newprob, zip_with Rdiv newprob prob)
                   (map (map exp) logprobs) (map (map exp) logprobs))
                advantages in
  Forall (λ c, length c = m) rows ∧
  length rows = length advantages ∧
  sum_R (concat rows) = INR m * sum_R advantages.
Proof.
  intros He Hlm. revert advantages.
  induction Hlm as [|logp logprobs Hm _ IH]; intros [|adv advantages] Hlen;
    try done.
  - cbn. split; [done|]. split; [done|]. lra.
  - destruct (IH advantages) as (Hrows & Hl & Hsum); [by injection Hlen|].
    cbn [map zip_with concat sum_R foldr]. fold (sum_R advantages).
    rewrite ratio_one, fmap_replicate, clipped_at_one by done.
    split; [constructor; [by rewrite length_replicate|done]|].
    split; [cbn; by rewrite Hl|].
    rewrite sum_R_app, sum_R_replicate, Hm. cbv zeta in Hsum. lra.
Qed.

(** X21. When the old probabilities are the exponentials of the very log
    probabilities being evaluated, as they are before the first update of
    an iteration, every ratio is one, nothing is clipped, and the
    policy-gradient loss is minus the mean advantage of the minibatch. *)
Theorem ppostep_pgloss_at_old_policy logprobs advantages epscut (B m : nat) :
  (1 ≤ B)%nat → (1 ≤ m)%nat → 0 <= epscut →
  length logprobs = B → length advantages = B →
  Forall (λ p, length p = m) logprobs →
  ppostep_pgloss logprobs (map (map exp) logprobs) advantages epscut
    = Ok (- mean advantages).
Proof.
  intros HB Hm He Hl Ha Hlm. unfold ppostep_pgloss.
  assert (Forall (λ p, length p = m) (map (map exp) logprobs)) as Hnm.
  { apply Forall_fmap. eapply Forall_impl; [exact Hlm|].
    intros p Hp. cbn. by rewrite length_map. }
  rewrite (ppostep_probratios_eq _ _ m) by done. cbn.
  rewrite ppostep_clippings_eq. cbn.
  destruct (sum_R_unclipped_rows epscut logprobs advantages m He Hlm)
    as (Hrows & Hrl & Hsum); [lia|].
  set (rows := zip_with _ _ advantages) in *.
  rewrite (torch_cat_ok rows m) by (done || lia). cbn. do 2 f_equal. unfold mean.
  rewrite (concat_length_rows rows m Hrows), Hrl, Hsum, Ha, mult_INR.
  assert (0 < INR B) by (apply lt_0_INR; lia).
  assert (0 < INR m) by (apply lt_0_INR; lia).
  field. lra.
Qed.
End PolicyLoss.

(** ** train: the minibatches of an optimiser epoch *)

Section Minibatches.
Context {A : Type}.
Implicit Types (idx : list A) (minibatchsize nminibatches : nat).

Lemma py_slice_minibatch idx minibatchsize i :
  py_slice idx (i * minibatchsize) ((i + 1) * minibatchsize)
    = take minibatchsize (drop (i * minibatchsize) idx).
Proof. unfold py_slice. f_equal. lia. Qed.

Lemma train_minibatches_concat idx minibatchsize nminibatches :
  concat (train_minibatches idx minibatchsize nminibatches)
    = take (nminibatches * minibatchsize) idx.
Proof.
  unfold train_minibatches.
  induction nminibatches as [|n IH]; [done|].
  rewrite seq_S, fmap_app, concat_app, IH. cbn [fmap list_fmap concat plus].
  rewrite app_nil_r, py_slice_minibatch, take_take_drop.
  f_equal. lia.
Qed.

Lemma train_minibatches_lookup idx minibatchsize nminibatches i :
  i < nminibatches →
  train_minibatches idx minibatchsize nminibatches !! i
    = Some (take minibatchsize (drop (i * minibatchsize) idx)).
Proof.
  intros Hi. unfold train_minibatches.
  rewrite list_lookup_fmap, lookup_seq_lt by done.
  cbn [fmap option_fmap option_map plus].
  by rewrite py_slice_minibatch.
Qed.
End Minibatches.

(** X22. One optimiser epoch cuts the shuffled sample indices into
    [nminibatches] minibatches of [minibatchsize] indices each, and these
    minibatches put end to end are the shuffled indices again: when the
    indices are a permutation of [range(minibatchsize * nminibatches)],
    every gathered sample is used in exactly one minibatch of the epoch. *)
Theorem train_epoch_uses_every_sample_once (idx : list nat)
    (minibatchsize nminibatches : nat) :
  idx ≡ₚ seq 0 (minibatchsize * nminibatches) →
  let batches := train_minibatches idx minibatchsize nminibatches in
  length batches = nminibatches ∧
  Forall (λ batchidx, length batchidx = minibatchsize) batches ∧
  concat batches = idx ∧
  NoDup (concat batches) ∧
  ∀ s, s < minibatchsize * nminibatches ↔ s ∈ concat batches.
Proof.
  intros Hperm batches.
  assert (length idx = minibatchsize * nminibatches) as Hlen.
  { by rewrite Hperm, length_seq. }
  assert (concat batches = idx) as Hcat.
  { unfold batches. rewrite train_minibatches_concat.
    apply take_ge. lia. }
  split; [unfold batches, train_minibatches; by rewrite length_fmap, length_seq|].
  split.
  { apply Forall_lookup. intros i batchidx Hi.
    assert (i < nminibatches) as Hlt.
    { apply lookup_lt_Some in Hi. unfold batches, train_minibatches in Hi.
      by rewrite length_fmap, length_seq in Hi. }
    unfold batches in Hi. rewrite train_minibatches_lookup in Hi by done.
    injection Hi as <-. rewrite length_take, length_drop. nia. }
  split; [done|]. rewrite Hcat.
  split; [rewrite Hperm; apply NoDup_seq|].
  intros s. rewrite Hperm, elem_of_seq. lia.
Qed.

(** X23. When fewer indices are left than a full minibatch, the slice is
    simply shorter, and past the end it is empty: slicing never fails.
    Each minibatch holds [min minibatchsize (len(idx) - i * minibatchsize)]
    indices, namely those at positions [i * minibatchsize + j]. *)
Theorem train_minibatch_slices_are_truncated {A} (idx : list A)
    (minibatchsize nminibatches i : nat) (batchidx : list A) :
  train_minibatches idx minibatchsize nminibatches !! i = Some batchidx →
  length batchidx = minibatchsize `min` (length idx - i * minibatchsize) ∧
  ∀ j, j < minibatchsize →
       batchidx !! j = idx !! (i * minibatchsize + j).
Proof.
  intros Hi.
  assert (i < nminibatches) as Hlt.
  { apply lookup_lt_Some in Hi. unfold train_minibatches in Hi.
    by rewrite length_fmap, length_seq in Hi. }
  rewrite train_minibatches_lookup in Hi by done. injection Hi as <-.
  split; [by rewrite length_take, length_drop|].
  intros j Hj. by rewrite lookup_take_lt, lookup_drop.
Qed.

(** ** experiencegenerator: consecutive experiences *)

Section GeneratorExtras.
Context {Env Policy Action LogProb RawObs Frame Info : Type}.
Context (env_reset : Env → Env * RawObs).
Context (env_step : Env → Action → Env * (RawObs * R * bool * Info)).
Context (prepro : RawObs → Frame).
Context (select_action : Policy → list Frame → Policy * (Action * LogProb)).
Context (episodesteps : option nat) (windowlength : nat).

Local Abbreviation gen_next :=
  (generator_next env_reset env_step prepro select_action
                  episodesteps windowlength).
Local Abbreviation gen_take :=
  (generator_take env_reset env_step prepro select_action
                  episodesteps windowlength).
Local Abbreviation generator :=
  (generator (Env:=Env) (Policy:=Policy) (Action:=Action) (LogProb:=LogProb)
             (RawObs:=RawObs) (Frame:=Frame)).
Local Abbreviation experience :=
  (experience (Action:=Action) (LogProb:=LogProb) (RawObs:=RawObs)
              (Frame:=Frame)).
Local Abbreviation locals :=
  (locals (Env:=Env) (Policy:=Policy) (RawObs:=RawObs) (Frame:=Frame)).
Implicit Types (g : generator) (x y : experience) (l : locals).

Local Abbreviation slid x :=
  (x_newxbatch x = drop 1 (x_xbatch x) ++ [prepro (x_newobservation x)]).
Local Abbreviation padded y :=
  (x_xbatch y = replicate windowlength (prepro (x_observation y))).
Local Abbreviation chained x y :=
  (x_observation y = x_newobservation x ∧ x_xbatch y = x_newxbatch x).
(** How the experience [y] continues what the generator [g] holds. *)
Local Abbreviation follows g y :=
  (match g with
   | Fresh _ _ => padded y
   | Suspended l last =>
       if episode_over episodesteps l last then padded y else chained last y
   end).
Local Abbreviation slid_inv := (window_slid prepro windowlength).
Local Abbreviation books := (books_kept episodesteps).

Lemma deque_append_full (q : list Frame) (f : Frame) :
  1 ≤ windowlength → length q = windowlength →
  deque_append windowlength q f = drop 1 q ++ [f].
Proof.
  intros Hk Hq. unfold deque_append. rewrite length_app. cbn [length].
  replace (length q + 1 - windowlength) with 1 by lia.
  destruct q; cbn in *; [lia|done].
Qed.

Lemma act_slides l :
  1 ≤ windowlength →
  statesqueue l = xbatch l → length (xbatch l) = windowlength →
  ∃ l' x, act env_step prepro select_action windowlength l = Ok (l', x) ∧
    slid_inv (Suspended l' x) ∧
    x_observation x = observation l ∧ x_xbatch x = xbatch l.
Proof.
  intros Hk Hq Hlen. unfold act.
  destruct (select_action _ _) as [pol [a p]].
  destruct (env_step _ _) as [e [[[ob r] d] i]].
  rewrite np_stack_nonempty by (rewrite deque_append_length; lia).
  cbn. eexists _, _. split; [done|]. cbn.
  rewrite Hq, deque_append_full by done. done.
Qed.

Lemma next_slides g :
  1 ≤ windowlength → slid_inv g →
  ∃ l' x, gen_next g = Ok (Suspended l' x, x) ∧
    slid_inv (Suspended l' x) ∧ follows g x.
Proof.
  intros Hk Hg. unfold generator_next.
  destruct g as [env policy | l last].
  - destruct (begin_episode_ok env_reset prepro windowlength env policy 0 0 []
                Hk) as (l & -> & Hob & Hx & Hq).
    cbn. destruct (act_slides l Hk) as (l' & x & -> & Hinv & Hobs & Hxb);
      [done|by rewrite Hx, length_replicate|].
    cbn. eexists _, _. split; [done|]. split; [done|].
    by rewrite Hxb, Hobs.
  - destruct Hg as (Hlen & Hxb0 & Hob0 & Hsq & Hslid). unfold resume.
    destruct (episode_over episodesteps l last) eqn:Hover.
    + destruct (begin_episode_ok env_reset prepro windowlength
        (g_env l) (g_policy l) (S (episode l)) (totalsteps l + S (step l))
        (episoderewards l ++ [(rewards l + x_reward last)%R]) Hk)
        as (l1 & -> & Hob & Hx & Hq1).
      cbn. destruct (act_slides l1 Hk) as (l' & x & -> & Hinv & Hobs & Hxb);
        [done|by rewrite Hx, length_replicate|].
      cbn. eexists _, _. split; [done|]. split; [done|].
      by rewrite Hxb, Hobs.
    + cbn.
      match goal with |- context [act _ _ _ _ ?l1] =>
        destruct (act_slides l1 Hk) as (l' & x & -> & Hinv & Hobs & Hxb)
      end; [done| |].
      { cbn. rewrite Hslid, length_app, length_drop. cbn. lia. }
      cbn. eexists _, _. split; [done|]. split; [done|].
      by rewrite Hxb, Hobs.
Qed.

Lemma next_books count total g g' x :
  books count total g → gen_next g = Ok (g', x) →
  books (S count) (total + x_reward x)%R g'.
Proof.
  intros Hg. unfold generator_next, act.
  assert (∀ l, match g with
               | Fresh env policy =>
                   begin_episode env_reset prepro windowlength env policy 0 0 []
               | Suspended l last =>
                   resume env_reset prepro episodesteps windowlength l last
               end = Ok l →
               totalsteps l + step l = count ∧
               episode l = length (episoderewards l) ∧
               (sum_R (episoderewards l) + rewards l)%R = total ∧
               (∀ m, episodesteps = Some m → S (step l) ≤ 1 `max` m))
    as Hhead.
  { intros l1. destruct g as [env policy | l last].
    - destruct Hg as [-> ->]. unfold begin_episode.
      destruct (env_reset env) as [e ob].
      destruct (np_stack _) as [xb|err]; [|done].
      cbn. intros [= <-]. cbn. unfold sum_R. cbn.
      repeat split; [lra|lia].
    - destruct Hg as (Hc & Hep & Hsum & Hcap). unfold resume.
      destruct (episode_over episodesteps l last) eqn:Hover.
      + unfold begin_episode. destruct (env_reset _) as [e ob].
        destruct (np_stack _) as [xb|err]; [|done].
        cbn. intros [= <-]. cbn.
        rewrite length_app, sum_R_app. unfold sum_R at 2. cbn.
        repeat split; [lia|lia|lra|lia].
      + intros [= <-]. cbn. unfold sum_R in *.
        repeat split; [lia|done|lra|].
        intros m Hm. unfold episode_over in Hover. rewrite Hm in Hover.
        apply orb_false_elim in Hover as [_ Hcap'].
        apply bool_decide_eq_false in Hcap'. lia. }
  destruct (match g with Fresh _ _ => _ | Suspended _ _ => _ end)
    as [l|err]; [|done].
  destruct (Hhead l eq_refl) as (Hc & Hep & Hsum & Hcap).
  cbn.
  destruct (select_action _ _) as [pol [a p]].
  destruct (env_step _ _) as [e [[[ob r] d] i]].
  destruct (np_stack _) as [xb|err]; [|done].
  cbn. intros [= <- <-]. cbn. unfold sum_R in *.
  repeat split; [lia|done|lra|done].
Qed.

Lemma take_slides n g :
  1 ≤ windowlength → slid_inv g →
  ∃ g' xs, gen_take n g = Ok (g', xs) ∧
    slid_inv g' ∧
    Forall (λ x, slid x) xs ∧
    (∀ y, head xs = Some y → follows g y) ∧
    (∀ i x y, xs !! i = Some x → xs !! S i = Some y →
       ∃ l, follows (Suspended l x) y).
Proof.
  intros Hk. revert g. induction n as [|n IH]; intros g Hg.
  - exists g, []. by repeat split.
  - cbn [generator_take].
    destruct (next_slides g Hk Hg) as (l1 & x & -> & Hinv & Hfol).
    cbn. destruct (IH _ Hinv) as (g' & xs & -> & Hg' & Hall & Hhead & Hlink).
    cbn. exists g', (x :: xs). split; [done|]. split; [done|].
    split.
    { constructor; [|done].
      destruct Hinv as (_ & Hxb & _ & _ & Hs). by rewrite Hxb. }
    split; [by intros y [= <-]|].
    intros [|i] x1 y; cbn.
    + intros [= <-] Hy. exists l1. apply Hhead. by destruct xs; simplify_eq/=.
    + apply Hlink.
Qed.

Lemma take_books n count total g g' xs :
  books count total g → gen_take n g = Ok (g', xs) →
  books (count + n) (total + sum_R (x_reward <$> xs))%R g' ∧
  (n ≠ 0 → ∃ l' x, g' = Suspended l' x ∧ last xs = Some x).
Proof.
  revert count total g xs. induction n as [|n IH]; intros count total g xs Hg.
  - cbn. intros [= <- <-]. rewrite Nat.add_0_r. unfold sum_R. cbn.
    rewrite Rplus_0_r. done.
  - cbn [generator_take].
    destruct (gen_next g) as [[g1 x]|err] eqn:Hnext; [|done]. cbn.
    destruct (gen_take n g1) as [[g2 xs2]|err] eqn:Htake; [|done]. cbn.
    intros [= <- <-].
    pose proof (next_books _ _ _ _ _ Hg Hnext) as Hg1.
    destruct (IH _ _ _ _ Hg1 Htake) as [Hg2 Hlast].
    split.
    { replace (count + S n) with (S count + n) by lia.
      cbn [fmap list_fmap]. unfold sum_R in *. cbn [foldr].
      by rewrite <- Rplus_assoc. }
    intros _. destruct n as [|n].
    + cbn in Htake. injection Htake as <- <-.
      unfold generator_next in Hnext.
      destruct (match g with Fresh _ _ => _ | Suspended _ _ => _ end)
        as [l|err]; [|done].
      cbn in Hnext.
      destruct (act _ _ _ _ _) as [[l' x']|err]; [|done].
      cbn in Hnext. injection Hnext as <- <-. by eexists _, _.
    + destruct Hlast as (l' & x' & -> & Hl); [done|].
      eexists _, _. split; [done|].
      destruct xs2; [done|]. by rewrite last_cons, Hl.
Qed.

(** X24. The experiences that [next(expgen)] hands out fit together. In
    each one the new window is the old window without its oldest frame,
    followed by the processed new observation. From one experience to the
    next, either the episode goes on, and then the next experience starts
    from the observation and the window the previous one arrived at, or a
    new episode begins on a window padded with the processed first frame.
    A terminal experience is always followed by a new episode, and without
    a step cap ([episodesteps=None]) only a terminal one is. *)
Theorem experiencegenerator_experiences_fit_together (n : nat)
    (env : Env) (policy : Policy) :
  1 ≤ windowlength →
  ∃ g xs,
    generator_take env_reset env_step prepro select_action
                   episodesteps windowlength n (Fresh env policy)
      = Ok (g, xs) ∧
    (∀ i x, xs !! i = Some x →
       x_newxbatch x
         = drop 1 (x_xbatch x) ++ [prepro (x_newobservation x)]) ∧
    (∀ i x y, xs !! i = Some x → xs !! S i = Some y →
       let continues :=
         x_observation y = x_newobservation x ∧
         x_xbatch y = x_newxbatch x in
       let restarts :=
         x_xbatch y = replicate windowlength (prepro (x_observation y)) in
       (continues ∨ restarts) ∧
       (x_done x = true → restarts) ∧
       (episodesteps = None → x_done x = false → continues)).
Proof.
  intros Hk.
  destruct (take_slides n (Fresh env policy) Hk I)
    as (g & xs & Htake & _ & Hall & _ & Hlink).
  exists g, xs. split; [done|].
  split; [intros i x Hx; by eapply (proj1 (Forall_lookup _ _) Hall)|].
  intros i x y Hx Hy. destruct (Hlink i x y Hx Hy) as [l Hfol].
  unfold episode_over in Hfol. cbv zeta.
  destruct (x_done x); cbn in Hfol.
  - split; [by right|]. by split.
  - destruct episodesteps as [m|].
    + destruct (bool_decide _); (split; [by (left + right)|by split]).
    + split; [by left|]. by split.
Qed.

(** X25. The generator's counters stay consistent with what it yields.
    After [n >= 1] experiences it is suspended at its [yield] on the last
    of them; the steps of the completed episodes plus those of the running
    one count the experiences up to the last; [episode] is the number of
    recorded episode rewards; those rewards plus the running sum plus the
    last reward add up to all rewards handed out (over the reals); and
    under a step cap [m] no episode runs past [max 1 m] steps. *)
Theorem experiencegenerator_counters (n : nat) (env : Env) (policy : Policy) :
  1 ≤ windowlength → 1 ≤ n →
  ∃ l final xs,
    generator_take env_reset env_step prepro select_action
                   episodesteps windowlength n (Fresh env policy)
      = Ok (Suspended l final, xs) ∧
    last xs = Some final ∧
    totalsteps l + step l + 1 = n ∧
    episode l = length (episoderewards l) ∧
    (sum_R (episoderewards l) + rewards l + x_reward final
       = sum_R (x_reward <$> xs))%R ∧
    (∀ m, episodesteps = Some m → S (step l) ≤ 1 `max` m).
Proof.
  intros Hk Hn.
  destruct (take_slides n (Fresh env policy) Hk I) as (g & xs & Htake & _).
  assert (books 0 0%R (Fresh env policy : generator)) as H0 by done.
  destruct (take_books n 0 0%R _ _ _ H0 Htake) as [Hb Hlast].
  destruct Hlast as (l & x & -> & Hl); [lia|].
  exists l, x, xs. split; [done|]. split; [done|].
  destruct Hb as (Hc & Hep & Hsum & Hcap).
  repeat split; [lia|done|lra|done].
Qed.
End GeneratorExtras.

(** ** runepisode, and the first episode of experiencegenerator *)

Section RunEpisodeSpec.
Context {Env Policy Action LogProb RawObs Frame Info : Type}.
Context (env_reset : Env → Env * RawObs).
Context (env_step : Env → Action → Env * (RawObs * R * bool * Info)).
Context (prepro : RawObs → Frame).
Context (select_action : Policy → list Frame → Policy * (Action * LogProb)).
Context (windowlength : nat).

Local Abbreviation run_loop :=
  (runepisode_loop (Info:=Info) env_step prepro select_action windowlength).
Local Abbreviation run :=
  (runepisode (Info:=Info) env_reset env_step prepro select_action
              windowlength).
Local Abbreviation generator :=
  (generator (Env:=Env) (Policy:=Policy) (Action:=Action) (LogProb:=LogProb)
             (RawObs:=RawObs) (Frame:=Frame)).
Local Abbreviation experience :=
  (experience (Action:=Action) (LogProb:=LogProb) (RawObs:=RawObs)
              (Frame:=Frame)).
Local Abbreviation locals :=
  (locals (Env:=Env) (Policy:=Policy) (RawObs:=RawObs) (Frame:=Frame)).
Local Abbreviation entry := (history_entry (Action:=Action) (LogProb:=LogProb)
                               (RawObs:=RawObs) (Frame:=Frame)).
Implicit Types (g : generator) (x : experience) (l : locals).
Implicit Types (history ents : list entry).

(** The generator up to the head of its inner loop. *)
Local Abbreviation loop_head M g :=
  (match g with
   | Fresh env policy =>
       begin_episode env_reset prepro windowlength env policy 0 0 []
   | Suspended l last =>
       resume env_reset prepro (Some M) windowlength l last
   end).

Lemma runepisode_loop_spec (M n : nat) g l history :
  1 ≤ windowlength →
  loop_head M g = Ok l →
  statesqueue l = xbatch l → length (xbatch l) = windowlength →
  M = step l + S n →
  ∃ env' policy' ents g' xs,
    run_loop (S n) (g_env l) (g_policy l) (observation l) (statesqueue l)
             (xbatch l) history = Ok (env', policy', history ++ ents) ∧
    1 ≤ length ents ≤ S n ∧
    (∀ i e, ents !! i = Some e → entry_done e = true → S i = length ents) ∧
    (length ents < S n → ∃ e, last ents = Some e ∧ entry_done e = true) ∧
    generator_take env_reset env_step prepro select_action (Some M)
                   windowlength (length ents) g = Ok (g', xs) ∧
    experience_entry <$> xs = ents ∧
    opens_episode (Some M) g' = true ∧
    generator_env g' = env'.
Proof.
  intros Hk. revert g l history.
  induction n as [|n IH]; intros g l history Hhead Hsq Hlen HM.
  all: cbn [runepisode_loop].
  all: destruct (select_action (g_policy l) (xbatch l)) as [pol [a p]] eqn:Esel.
  all: destruct (env_step (g_env l) a) as [e [[[ob r] d] i]] eqn:Estep.
  all: assert (np_stack (deque_append windowlength (statesqueue l) (prepro ob))
               = Ok (deque_append windowlength (statesqueue l) (prepro ob)))
         as Hstack by (apply np_stack_nonempty; rewrite deque_append_length; lia).
  all: assert (generator_next env_reset env_step prepro select_action (Some M)
                 windowlength g
               = Ok (Suspended
                       (mkLocals e pol (episode l) (totalsteps l)
                          (episoderewards l) (observation l)
                          (deque_append windowlength (statesqueue l) (prepro ob))
                          (xbatch l) (step l) (rewards l))
                       (mkExperience (observation l) (xbatch l) p a r ob
                          (deque_append windowlength (statesqueue l) (prepro ob))
                          d),
                     mkExperience (observation l) (xbatch l) p a r ob
                       (deque_append windowlength (statesqueue l) (prepro ob))
                       d)) as Hnext
         by (unfold generator_next; rewrite Hhead; cbn; unfold act;
             rewrite Esel, Estep, Hstack; done).
  - (* the last iteration of the loop *)
    exists e, pol, [(observation l, xbatch l, p, a, r, d)].
    eexists _, _.
    split; [by destruct d; [|rewrite Hstack]|].
    split; [cbn; lia|].
    split; [by intros [|j] e' He' _|].
    split; [cbn; lia|].
    cbn [length generator_take]. rewrite Hnext. cbn.
    split; [done|]. split; [done|]. split; [|done].
    cbn [opens_episode]. unfold episode_over. cbn.
    rewrite bool_decide_eq_true_2 by lia. by rewrite orb_true_r.
  - destruct d.
    + (* the episode ends *)
      exists e, pol, [(observation l, xbatch l, p, a, r, true)].
      eexists _, _.
      split; [done|]. split; [cbn; lia|].
      split; [by intros [|j] e' He' _|].
      split; [intros _; by eexists|].
      cbn [length generator_take]. rewrite Hnext. cbn.
      by repeat split.
    + (* the episode goes on *)
      rewrite Hstack. cbn [mbind result_bind].
      set (sq' := deque_append windowlength (statesqueue l) (prepro ob)) in *.
      set (l' := mkLocals e pol (episode l) (totalsteps l) (episoderewards l)
                   (observation l) sq' (xbatch l) (step l) (rewards l)) in *.
      set (x := mkExperience (observation l) (xbatch l) p a r ob sq' false)
        in *.
      set (l2 := mkLocals e pol (episode l) (totalsteps l) (episoderewards l)
                   ob sq' sq' (S (step l)) (rewards l + r)%R).
      destruct (IH (Suspended l' x) l2
                  (history ++ [(observation l, xbatch l, p, a, r, false)]))
        as (env' & policy' & ents & g' & xs & Hrun & Hbound & Hdone & Hshort
            & Htake & Hxs & Hopen & Henv).
      { unfold resume, episode_over. cbn.
        by rewrite bool_decide_eq_false_2 by lia. }
      { done. }
      { cbn. unfold sq'. rewrite deque_append_length, Hsq, Hlen. lia. }
      { cbn. lia. }
      exists env', policy', ((observation l, xbatch l, p, a, r, false) :: ents).
      exists g', (x :: xs).
      split.
      { unfold l2 in Hrun.
        cbn [g_env g_policy observation statesqueue xbatch] in Hrun.
        rewrite <- app_assoc in Hrun. exact Hrun. }
      split; [cbn; lia|].
      split.
      { intros [|j] e'; cbn; [by intros [= <-]|].
        intros He' Hd. f_equal. by eapply Hdone. }
      split.
      { intros Hlt. destruct Hshort as (e' & Hl & Hd); [cbn in Hlt; lia|].
        exists e'. split; [|done].
        destruct ents; [done|]. by rewrite last_cons, Hl. }
      cbn [length generator_take]. rewrite Hnext. cbn.
      rewrite Htake. cbn. split; [done|]. split; [by rewrite <- Hxs|].
      done.
Qed.

(** X26. An episode run by [runepisode] with [windowlength >= 1] and
    [episodesteps >= 1] returns a history of at least one and at most
    [episodesteps] entries. Only its last entry can be terminal, and when
    the history is shorter than [episodesteps] its last entry is terminal:
    the loop stops at the first [done] and nowhere else. *)
Theorem runepisode_stops_at_first_done (env : Env) (policy : Policy)
    (episodesteps : nat) :
  1 ≤ windowlength → 1 ≤ episodesteps →
  ∃ env' policy' history,
    runepisode (Info:=Info) env_reset env_step prepro select_action
               windowlength env policy episodesteps
      = Ok (env', policy', history) ∧
    1 ≤ length history ≤ episodesteps ∧
    (∀ i e, history !! i = Some e → entry_done e = true →
            S i = length history) ∧
    (length history < episodesteps →
     ∃ e, last history = Some e ∧ entry_done e = true).
Proof.
  intros Hk Hn. destruct episodesteps as [|n]; [lia|].
  unfold runepisode.
  pose proof (runepisode_loop_spec (S n) n (Fresh env policy)) as Hspec.
  unfold begin_episode in Hspec.
  destruct (env_reset env) as [e ob].
  rewrite np_stack_nonempty in * by (by rewrite length_replicate).
  cbn [mbind result_bind] in *.
  destruct (Hspec _ [] Hk eq_refl)
    as (env' & policy' & ents & g' & xs & Hrun & Hbound & Hdone & Hshort & _).
  { done. }
  { cbn. by rewrite length_replicate. }
  { done. }
  cbn in Hrun. by exists env', policy', ents.
Qed.

(** X27. What [runepisode] returns is the first episode of
    [experiencegenerator] run with the same step cap on the same
    environment and policy: the generator's first [len(history)]
    experiences, with the new observation and the new window left out,
    are the history entries one by one; the generator then stands at the
    end of the episode, and holds the environment that [runepisode]
    leaves. *)
Theorem runepisode_is_first_generator_episode (env : Env) (policy : Policy)
    (episodesteps : nat) :
  1 ≤ windowlength → 1 ≤ episodesteps →
  ∃ env' policy' history g xs,
    runepisode (Info:=Info) env_reset env_step prepro select_action
               windowlength env policy episodesteps
      = Ok (env', policy', history) ∧
    generator_take env_reset env_step prepro select_action
      (Some episodesteps) windowlength (length history) (Fresh env policy)
      = Ok (g, xs) ∧
    experience_entry <$> xs = history ∧
    opens_episode (Some episodesteps) g = true ∧
    generator_env g = env'.
Proof.
  intros Hk Hn. destruct episodesteps as [|n]; [lia|].
  unfold runepisode.
  pose proof (runepisode_loop_spec (S n) n (Fresh env policy)) as Hspec.
  unfold begin_episode in Hspec.
  destruct (env_reset env) as [e ob].
  rewrite np_stack_nonempty in * by (by rewrite length_replicate).
  cbn [mbind result_bind] in *.
  destruct (Hspec _ [] Hk eq_refl)
    as (env' & policy' & ents & g' & xs & Hrun & _ & _ & _ & Htake & Hxs
        & Hopen & Henv).
  { done. }
  { cbn. by rewrite length_replicate. }
  { done. }
  cbn in Hrun. by exists env', policy', ents, g', xs.
Qed.

End RunEpisodeSpec.

(** ** prepro *)

Section PreproSpec.
Context {Pixel : Type} (rgb2gray : list Pixel → R).

Lemma py_stride_lookup {A} (step skip : nat) (l : list A) (i : nat) :
  1 ≤ step →
  py_stride step skip l !! i = l !! (skip + i * step).
Proof.
  intros Hstep. revert skip i.
  induction l as [|a l IH]; intros skip i; [done|].
  cbn [py_stride]. destruct skip as [|s].
  - destruct i as [|j]; [done|].
    cbn [lookup list_lookup]. rewrite IH.
    replace (0 + S j * step) with (S (step - 1 + j * step)) by lia.
    done.
  - rewrite IH. done.
Qed.

Lemma length_by_lookup {A} (l : list A) (n : nat) :
  (∀ i, is_Some (l !! i) ↔ i < n) → length l = n.
Proof.
  intros H.
  destruct (decide (length l < n)) as [Hlt|Hge].
  - apply H, lookup_lt_is_Some in Hlt. lia.
  - destruct (decide (n < length l)) as [Hgt|]; [|lia].
    apply lookup_lt_is_Some, H in Hgt. lia.
Qed.

Lemma py_stride_length {A} (l : list A) :
  length (py_stride 4 0 l) = (length l + 3) / 4.
Proof.
  apply length_by_lookup. intros i.
  rewrite py_stride_lookup, lookup_lt_is_Some by lia.
  pose proof (Nat.div_mod_eq (length l + 3) 4).
  pose proof (Nat.mod_upper_bound (length l + 3) 4).
  lia.
Qed.

(** X29. [prepro] keeps every fourth row and every fourth column of the
    frame, counted from the first: entry [(i, j)] of its result is the
    grey level of pixel [(4i, 4j)] of the frame minus one half, and an
    [H x W] frame gives a [ceil(H/4) x ceil(W/4)] array, so frames whose
    sides are not multiples of four keep a last, partial cell. *)
Theorem prepro_keeps_every_fourth_pixel (image : list (list (list Pixel)))
    (H W : nat) :
  length image = H →
  Forall (λ row, length row = W) image →
  let out := prepro_image rgb2gray image in
  length out = (H + 3) / 4 ∧
  Forall (λ row, length row = (W + 3) / 4) out ∧
  ∀ i j, out !! i ≫= (.!! j)
         = (λ px, rgb2gray px - 0.5)%R <$> (image !! (4 * i) ≫= (.!! (4 * j))).
Proof.
  intros HH HW out. unfold out, prepro_image.
  split; [by rewrite !length_map, py_stride_length, HH|].
  split.
  { apply Forall_lookup. intros i row.
    change map with (@fmap list _) at 1 2 3.
    rewrite !list_lookup_fmap, py_stride_lookup by lia.
    destruct (image !! (0 + i * 4)) as [src|] eqn:Hsrc; [|done].
    cbn. intros [= <-].
    rewrite !length_map, py_stride_length.
    by rewrite (proj1 (Forall_lookup _ _) HW _ _ Hsrc). }
  intros i j.
  change map with (@fmap list _).
  rewrite !list_lookup_fmap, py_stride_lookup by lia.
  replace (0 + i * 4) with (4 * i) by lia.
  destruct (image !! (4 * i)) as [src|]; [|done].
  cbn [mbind option_bind fmap option_fmap option_map].
  rewrite !list_lookup_fmap, py_stride_lookup by lia.
  replace (0 + j * 4) with (4 * j) by lia.
  by destruct (src !! (4 * j)).
Qed.
End PreproSpec.

(** ** The added properties at concrete inputs *)

Section EnvExtrasWitnesses.
Local Abbreviation keep := (λ (_ : ()) (p : nat), p).

Lemma FrameStack_window_slides_witness :
  1 < length [true; true; true] ∧
  (FrameStack_calls fake_frame_reset fake_frame_step
     (FrameStack_init 0 2 : FrameStack nat nat)
     (Reset :: (Step <$> [true; true; true]))).2 !! 2
    = Some (Ok (LazyFrames_init [fake_frame 1; fake_frame 2])).
Proof.
  assert (1 < length [true; true; true]) as H by (cbn; lia).
  split; [exact H|].
  exact (FrameStack_window_slides fake_frame_reset fake_frame_step
           0 2 [true; true; true] 1 H).
Defined.

Lemma FrameStack_steps_before_reset_witness :
  0 < length [true; true] ∧
  (FrameStack_calls fake_frame_reset fake_frame_step
     (FrameStack_init 0 2 : FrameStack nat nat) (Step <$> [true; true])).2 !! 0
    = Some (Raise AssertionError).
Proof.
  assert (0 < length [true; true]) as H by (cbn; lia).
  split; [exact H|].
  etrans; [exact (FrameStack_steps_before_reset fake_frame_reset
                    fake_frame_step 0 2 [true; true] 0 H)|].
  destruct (decide (2 ≤ 1)) as [Hle|_]; [lia|reflexivity].
Defined.

Lemma LazyFrames_failure_is_not_cached_witness :
  LazyFrames_run keep
    (LazyFrames_init
       [fake_frame 1; {| shape := (2, 1, 1); data := [[[0]]; [[0]]] |}])
    [Len; AsArray None; Len]
    = [VLen (Raise ValueError); VArray (Raise ValueError);
       VLen (Raise ValueError)].
Proof.
  refine (proj1 (LazyFrames_failure_is_not_cached keep
            [fake_frame 1; {| shape := (2, 1, 1); data := [[[0]]; [[0]]] |}]
            [Len; AsArray None; Len] _)).
  right. eexists _, _, _. split; [reflexivity|].
  split; [constructor|]. cbn. discriminate.
Defined.

Lemma FrameStack_zero_depth_witness :
  1 < length [Reset; Step true] ∧
  (FrameStack_calls fake_frame_reset fake_frame_step
     (FrameStack_init 0 0 : FrameStack nat nat) [Reset; Step true]).2 !! 1
    = Some (Ok (LazyFrames_init [])) ∧
  LazyFrames_run keep (LazyFrames_init []) [Len]
    = [VLen (Raise ValueError)].
Proof.
  assert (1 < length [Reset; Step true]) as H by (cbn; lia).
  split; [exact H|].
  exact (FrameStack_zero_depth fake_frame_reset fake_frame_step keep
           0 [Reset; Step true] 1 [Len] H).
Defined.

Lemma FrameStack_observation_has_declared_shape_witness :
  1 ≤ 2 ∧
  ∃ out,
    (_force (LazyFrames_init [fake_frame 0; fake_frame 0])).2 = Ok out ∧
    shape out = (1, 1, 2) ∧
    wf_array out.
Proof.
  assert (∀ s, wf_array (fake_frame s) ∧ shape (fake_frame s) = (1, 1, 1))
    as Hframe.
  { intros s. split; [|reflexivity]. split; [reflexivity|].
    repeat constructor. }
  assert (1 ≤ 2) as Hk by lia.
  split; [exact Hk|].
  exact (FrameStack_observation_has_declared_shape
           fake_frame_reset fake_frame_step (1, 1, 1)
           (λ e, Hframe 0) (λ e a, Hframe (S e))
           0 2 [Reset] 0 (LazyFrames_init [fake_frame 0; fake_frame 0])
           Hk eq_refl).
Defined.

Lemma ButtonsRemapper_action_index_witness :
  ∃ h1 self,
    ButtonsRemapper_init SNES_BUTTONS Gradius_actions ∅ = (h1, Ok self) ∧
    table_ok SNES_BUTTONS Gradius_actions self h1 ∧
    ButtonsRemapper_action self 16 h1 = (h1, Raise IndexError) ∧
    ∃ action c,
      Gradius_actions !! Z.to_nat (-1 + Z.of_nat (length Gradius_actions))
        = Some action ∧
      ButtonsRemapper_action self (-1) h1
        = (<[c := press_vector SNES_BUTTONS action]> h1, Ok c) ∧
      (c ∉ dom h1).
Proof.
  destruct (ButtonsRemapper_init SNES_BUTTONS Gradius_actions ∅)
    as [h1 [self|e]] eqn:Hinit; [|vm_compute in Hinit; discriminate].
  destruct (init_inv _ _ _ _ _ Hinit) as [_ Htab].
  exists h1, self. split; [reflexivity|]. split; [exact Htab|].
  split.
  - apply (proj1 (ButtonsRemapper_action_index SNES_BUTTONS Gradius_actions
                    ∅ h1 self 16 h1 Hinit Htab)).
    right. cbn. lia.
  - apply (proj2 (ButtonsRemapper_action_index SNES_BUTTONS Gradius_actions
                    ∅ h1 self (-1) h1 Hinit Htab)).
    cbn. lia.
Defined.

Lemma ButtonsRemapper_vector_by_button_set_witness :
  ∃ h1 self arr1 arr2,
    ButtonsRemapper_init SNES_BUTTONS Gradius_actions ∅ = (h1, Ok self) ∧
    _actions self !! 4 = Some arr1 ∧
    _actions self !! 7 = Some arr2 ∧
    (h1 !! arr1 = h1 !! arr2 ↔
     ∀ b, b ∈ ["DOWN"; "RIGHT"] ↔ b ∈ ["LEFT"; "DOWN"]).
Proof.
  destruct (ButtonsRemapper_init SNES_BUTTONS Gradius_actions ∅)
    as [h1 [self|e]] eqn:Hinit; [|vm_compute in Hinit; discriminate].
  destruct (init_inv _ _ _ _ _ Hinit) as [_ Htab].
  pose proof (Forall2_length _ _ _ Htab) as Hlen. cbn in Hlen.
  destruct (lookup_lt_is_Some_2 (_actions self) 4) as [arr1 H1]; [lia|].
  destruct (lookup_lt_is_Some_2 (_actions self) 7) as [arr2 H2]; [lia|].
  exists h1, self, arr1, arr2.
  split; [reflexivity|]. split; [exact H1|]. split; [exact H2|].
  exact (ButtonsRemapper_vector_by_button_set SNES_BUTTONS Gradius_actions
           ∅ h1 self 4 7 ["DOWN"; "RIGHT"] ["LEFT"; "DOWN"] arr1 arr2
           Hinit eq_refl eq_refl H1 H2).
Defined.

Lemma discretize_actions_cases_witness :
  "Columns-Genesis"%string = "Columns-Genesis"%string ∧
  ∃ self,
    (discretize_actions "Columns-Genesis" ∅).2 = Ok (Some self) ∧
    action_space self = 4.
Proof.
  split; [reflexivity|].
  destruct (proj1 (discretize_actions_cases "Columns-Genesis" ∅) eq_refl)
    as (self & Hself & Hspace & _).
  exists self. split; [exact Hself|exact Hspace].
Defined.

Lemma train_epoch_uses_every_sample_once_witness :
  [1; 0; 2; 3] ≡ₚ seq 0 (2 * 2) ∧
  concat (train_minibatches [1; 0; 2; 3] 2 2) = [1; 0; 2; 3].
Proof.
  assert ([1; 0; 2; 3] ≡ₚ seq 0 (2 * 2)) as H by (cbn; apply perm_swap).
  split; [exact H|].
  exact (proj1 (proj2 (proj2
           (train_epoch_uses_every_sample_once [1; 0; 2; 3] 2 2 H)))).
Defined.

Lemma train_minibatch_slices_are_truncated_witness :
  train_minibatches [5; 6; 7] 2 2 !! 1 = Some [7] ∧
  length [7] = 2 `min` (length [5; 6; 7] - 1 * 2).
Proof.
  assert (train_minibatches [5; 6; 7] 2 2 !! 1 = Some [7]) as H
    by reflexivity.
  split; [exact H|].
  exact (proj1 (train_minibatch_slices_are_truncated [5; 6; 7] 2 2 1 [7] H)).
Defined.

Lemma experiencegenerator_experiences_fit_together_witness :
  1 ≤ 2 ∧
  ∃ g xs,
    generator_take fake_reset fake_real_step fake_prepro fake_select_action
                   (Some 3) 2 5 (Fresh 0 0) = Ok (g, xs) ∧
    ∀ i x, xs !! i = Some x →
      x_newxbatch x
        = drop 1 (x_xbatch x) ++ [fake_prepro (x_newobservation x)].
Proof.
  assert (1 ≤ 2) as Hk by lia.
  split; [exact Hk|].
  destruct (experiencegenerator_experiences_fit_together
              fake_reset fake_real_step fake_prepro fake_select_action
              (Some 3) 2 5 0 0 Hk) as (g & xs & Htake & Hslid & _).
  exists g, xs. split; [exact Htake|exact Hslid].
Defined.

Lemma experiencegenerator_counters_witness :
  1 ≤ 2 ∧ 1 ≤ 5 ∧
  ∃ l final xs,
    generator_take fake_reset fake_real_step fake_prepro fake_select_action
                   (Some 3) 2 5 (Fresh 0 0) = Ok (Suspended l final, xs) ∧
    totalsteps l + step l + 1 = 5.
Proof.
  assert (1 ≤ 2) as Hk by lia.
  assert (1 ≤ 5) as Hn by lia.
  split; [exact Hk|]. split; [exact Hn|].
  destruct (experiencegenerator_counters
              fake_reset fake_real_step fake_prepro fake_select_action
              (Some 3) 2 5 0 0 Hk Hn)
    as (l & final & xs & Htake & _ & Hcount & _).
  exists l, final, xs. split; [exact Htake|exact Hcount].
Defined.

Lemma runepisode_stops_at_first_done_witness :
  1 ≤ 2 ∧ 1 ≤ 7 ∧
  ∃ env' policy' history,
    runepisode fake_reset fake_real_step fake_prepro fake_select_action
               2 0 0 7 = Ok (env', policy', history) ∧
    1 ≤ length history ≤ 7.
Proof.
  assert (1 ≤ 2) as Hk by lia.
  assert (1 ≤ 7) as Hn by lia.
  split; [exact Hk|]. split; [exact Hn|].
  destruct (runepisode_stops_at_first_done
              fake_reset fake_real_step fake_prepro fake_select_action
              2 0 0 7 Hk Hn)
    as (env' & policy' & history & Hrun & Hbound & _).
  exists env', policy', history. split; [exact Hrun|exact Hbound].
Defined.

Lemma runepisode_is_first_generator_episode_witness :
  1 ≤ 2 ∧ 1 ≤ 7 ∧
  ∃ env' policy' history g xs,
    runepisode fake_reset fake_real_step fake_prepro fake_select_action
               2 0 0 7 = Ok (env', policy', history) ∧
    generator_take fake_reset fake_real_step fake_prepro fake_select_action
                   (Some 7) 2 (length history) (Fresh 0 0) = Ok (g, xs) ∧
    experience_entry <$> xs = history.
Proof.
  assert (1 ≤ 2) as Hk by lia.
  assert (1 ≤ 7) as Hn by lia.
  split; [exact Hk|]. split; [exact Hn|].
  destruct (runepisode_is_first_generator_episode
              fake_reset fake_real_step fake_prepro fake_select_action
              2 0 0 7 Hk Hn)
    as (env' & policy' & history & g & xs & Hrun & Htake & Hxs & _).
  exists env', policy', history, g, xs.
  split; [exact Hrun|]. split; [exact Htake|exact Hxs].
Defined.
End EnvExtrasWitnesses.

Section NumericExtrasWitnesses.
Open Scope R_scope.

Lemma discount_rewards_clipped_returns_witness :
  (length [1; -2]%R ≤ length [false; true])%nat ∧
  ∃ D, discount_rewards [1; -2] [false; true] (1 / 2) = Ok D ∧
       length D = 2%nat.
Proof.
  assert (length [1; -2]%R ≤ length [false; true])%nat as H by (cbn; lia).
  split; [exact H|].
  destruct (discount_rewards_clipped_returns [1; -2] [false; true] (1 / 2) H)
    as (D & HD & Hlen & _).
  exists D. split; [exact HD|exact Hlen].
Defined.

Lemma discount_rewards_ignores_magnitude_witness :
  length [2; 3] = length [1; -2] ∧
  Forall (λ c, 0 < c) [2; 3] ∧
  discount_rewards (zip_with Rmult [2; 3] [1; -2]) [false; true] (1 / 2)
    = discount_rewards [1; -2] [false; true] (1 / 2).
Proof.
  assert (Forall (λ c, 0 < c) [2; 3]) as Hpos by (repeat constructor; lra).
  split; [reflexivity|]. split; [exact Hpos|].
  exact (discount_rewards_ignores_magnitude [1; -2] [2; 3] [false; true]
           (1 / 2) eq_refl Hpos).
Defined.

Lemma discount_rewards_short_terminals_witness :
  (length [false] < length [1; 1]%R)%nat ∧
  discount_rewards [1; 1] [false] 1 = Raise IndexError.
Proof.
  assert (length [false] < length [1; 1]%R)%nat as H by (cbn; lia).
  split; [exact H|].
  exact (proj1 (discount_rewards_short_terminals [1; 1] [false] 1) H).
Defined.

Lemma discount_rewards_is_gae_witness :
  (1 ≤ length [1; -2]%R)%nat ∧ length [false; true] = length [1; -2] ∧
  ∃ D, discount_rewards [1; -2] [false; true] (1 / 2) = Ok D ∧
       gae_arrays (replicate (length [1; -2]) 0) (np_sign <$> [1; -2])
                  [false; true] 0 (1 / 2) 1
         = Ok (np_sign <$> [1; -2], D).
Proof.
  assert (1 ≤ length [1; -2]%R)%nat as H by (cbn; lia).
  split; [exact H|]. split; [reflexivity|].
  exact (discount_rewards_is_gae [1; -2] [false; true] (1 / 2) H eq_refl).
Defined.


Lemma gae_empty_segment_witness :
  generalized_advantage_estimation [] [] [] 0 1 1 = Raise IndexError.
Proof.
  exact (gae_empty_segment [] [] [] 0 1 1 (or_introl eq_refl)).
Defined.

Lemma gae_lam_one_returns_witness :
  (1 ≤ 2)%nat ∧ length [0; 0] = 2%nat ∧ length [1; 2] = 2%nat ∧
  ∃ delta A delta' A',
    gae_arrays [0; 0] [0; 1] [false; true] 0 1 1 = Ok (delta, A) ∧
    gae_arrays [1; 2] [0; 1] [false; true] 0 1 1 = Ok (delta', A') ∧
    ∀ t, (t < 2)%nat → A !!! t + [0; 0] !!! t = A' !!! t + [1; 2] !!! t.
Proof.
  assert (1 ≤ 2)%nat as H by lia.
  split; [exact H|]. split; [reflexivity|]. split; [reflexivity|].
  destruct (gae_lam_one_returns [0; 0] [1; 2] [0; 1] [false; true] 0 1 2
              H eq_refl eq_refl eq_refl eq_refl)
    as (delta & A & delta' & A' & HA & HA' & _ & Hsame).
  exists delta, A, delta', A'.
  split; [exact HA|]. split; [exact HA'|exact Hsame].
Defined.

Lemma ppostep_clip_is_one_sided_witness :
  length [1 / 2; 0] = 2%nat ∧ length [0; 0] = 2%nat ∧
  ∃ clipped,
    ppostep_newvalues_clipped [1 / 2; 0] [0; 0] (1 / 2) = Ok clipped ∧
    length clipped = 2%nat.
Proof.
  split; [reflexivity|]. split; [reflexivity|].
  destruct (ppostep_clip_is_one_sided [1 / 2; 0] [0; 0] (1 / 2) 2
              eq_refl eq_refl) as (clipped & Hclip & Hlen & _).
  exists clipped. split; [exact Hclip|exact Hlen].
Defined.

Lemma ppostep_valueloss_is_pessimistic_witness :
  length [1 / 2; 0] = 2%nat ∧ 0 <= 1 ∧
  ∃ loss,
    ppostep_valueloss [1 / 2; 0] [0; 0] [0; 0] (1 / 2) 1 = Ok loss ∧
    0 <= loss.
Proof.
  assert (0 <= 1) as Hc by lra.
  split; [reflexivity|]. split; [exact Hc|].
  destruct (ppostep_valueloss_is_pessimistic [1 / 2; 0] [0; 0] [0; 0]
              (1 / 2) 1 2 eq_refl eq_refl eq_refl Hc)
    as (loss & Hloss & Hpos & _).
  exists loss. split; [exact Hloss|exact Hpos].
Defined.

Lemma ppostep_valueloss_shape_mismatch_witness :
  length [0; 0; 0] ≠ length [0; 0] ∧
  ppostep_valueloss [0; 0] [0; 0] [0; 0; 0] (1 / 2) 1 = Raise RuntimeError.
Proof.
  assert (length [0; 0; 0] ≠ length [0; 0]) as H by (cbn; lia).
  split; [exact H|].
  apply (ppostep_valueloss_shape_mismatch [0; 0] [0; 0] [0; 0; 0] (1 / 2) 1 H);
    cbn; lia.
Defined.

Lemma ppostep_pgloss_is_bounded_witness :
  (1 ≤ 1)%nat ∧ (1 ≤ 2)%nat ∧ 0 <= 1 / 10 ∧
  ∃ loss,
    ppostep_pgloss [[0; 0]] [[1; 1]] [1] (1 / 10) = Ok loss ∧
    - mean ((λ adv, adv + 1 / 10 * Rabs adv) <$> [1]) <= loss.
Proof.
  assert (1 ≤ 1)%nat as HB by lia.
  assert (1 ≤ 2)%nat as Hm by lia.
  assert (0 <= 1 / 10) as He by lra.
  split; [exact HB|]. split; [exact Hm|]. split; [exact He|].
  apply (ppostep_pgloss_is_bounded [[0; 0]] [[1; 1]] [1] (1 / 10) 1 2
           HB Hm He eq_refl eq_refl eq_refl);
    repeat constructor; lra.
Defined.

Lemma ppostep_pgloss_at_old_policy_witness :
  (1 ≤ 1)%nat ∧ (1 ≤ 2)%nat ∧ 0 <= 1 / 10 ∧
  ppostep_pgloss [[0; 0]] (map (map exp) [[0; 0]]) [1] (1 / 10)
    = Ok (- mean [1]).
Proof.
  assert (1 ≤ 1)%nat as HB by lia.
  assert (1 ≤ 2)%nat as Hm by lia.
  assert (0 <= 1 / 10) as He by lra.
  split; [exact HB|]. split; [exact Hm|]. split; [exact He|].
  apply (ppostep_pgloss_at_old_policy [[0; 0]] [1] (1 / 10) 1 2
           HB Hm He eq_refl eq_refl).
  repeat constructor.
Defined.

Lemma prepro_keeps_every_fourth_pixel_witness :
  length [[[1]; [2]; [3]; [4]; [5]]] = 1%nat ∧
  Forall (λ row, length row = 5%nat) [[[1]; [2]; [3]; [4]; [5]]] ∧
  length (prepro_image sum_R [[[1]; [2]; [3]; [4]; [5]]]) = ((1 + 3) / 4)%nat ∧
  Forall (λ row, length row = ((5 + 3) / 4)%nat)
         (prepro_image sum_R [[[1]; [2]; [3]; [4]; [5]]]).
Proof.
  assert (Forall (λ row : list (list R), length row = 5%nat)
                 [[[1]; [2]; [3]; [4]; [5]]]) as HW
    by (repeat constructor).
  split; [reflexivity|]. split; [exact HW|].
  destruct (prepro_keeps_every_fourth_pixel sum_R
              [[[1]; [2]; [3]; [4]; [5]]] 1 5 eq_refl HW)
    as (Hlen & Hrows & _).
  split; [exact Hlen|exact Hrows].
Defined.
End NumericExtrasWitnesses.
